(** * Proxito: the documentation-serving views of Read the Docs

    A shallow embedding of [readthedocs/proxito/views.py] and the
    properties of its request pipeline: slug resolution, path
    normalisation, version lookup, the access gate and the storage
    dispatcher; then the keyword arguments of the faceted search of
    [readthedocs/search/faceted_search.py]. *)

From Stdlib Require Import List NArith ZArith Bool Lia String Ascii.
Import ListNotations.

Set Implicit Arguments.

Local Open Scope string_scope.
Local Open Scope N_scope.
Local Open Scope list_scope.

(* ================================================================== *)
(** * Python strings *)
(* ================================================================== *)

(** A Python 3 [str] is a sequence of Unicode code points.  A [bytes]
    object is a sequence of numbers below 256. *)
Abbreviation codepoint := N (only parsing).
Abbreviation str := (list N) (only parsing).
Abbreviation bytes := (list N) (only parsing).

(** String literals of the source, all of them ASCII. *)
Definition lit (s : string) : str :=
  map N_of_ascii (list_ascii_of_string s).

Definition SLASH : codepoint := 47.     (* '/' *)
Definition QMARK : codepoint := 63.     (* '?' *)
Definition PERCENT : codepoint := 37.   (* '%' *)

(** [a == b] on strings. *)
Fixpoint str_eqb (a b : str) : bool :=
  match a, b with
  | [], [] => true
  | x :: a', y :: b' => N.eqb x y && str_eqb a' b'
  | _, _ => false
  end.

(** Truth value of a string: the empty string is false. *)
Definition truthy (s : str) : bool :=
  match s with [] => false | _ :: _ => true end.

(** Truth value of an optional string: [None] and [''] are false. *)
Definition truthy_opt (o : option str) : bool :=
  match o with Some s => truthy s | None => false end.

Definition is_none {A} (o : option A) : bool :=
  match o with None => true | Some _ => false end.

(** [x or y] where [x] may be [None]; model instances are always true. *)
Definition or_else {A} (x : option A) (y : A) : A :=
  match x with Some v => v | None => y end.

(** [s.startswith(p)]. *)
Fixpoint startswith (s p : str) {struct p} : bool :=
  match p, s with
  | [], _ => true
  | x :: p', y :: s' => N.eqb x y && startswith s' p'
  | _ :: _, [] => false
  end.

(** [sub in s]: substring test. *)
Fixpoint contains (sub s : str) : bool :=
  startswith s sub ||
  match s with
  | [] => false
  | _ :: s' => contains sub s'
  end.

(** [s[-1] == c]; on the empty string Python raises IndexError, which
    the callers below rule out (the string always holds a ['/']). *)
Fixpoint last_is (c : codepoint) (s : str) : bool :=
  match s with
  | [] => false
  | [x] => N.eqb x c
  | _ :: s' => last_is c s'
  end.

Definition endswith_char (s : str) (c : codepoint) : bool := last_is c s.

(** [s.lstrip(c)], [s.rstrip(c)] and [s.strip(c)] for a one-character
    set [c]. *)
Fixpoint lstrip (c : codepoint) (s : str) : str :=
  match s with
  | x :: s' => if N.eqb x c then lstrip c s' else s
  | [] => []
  end.

Definition rstrip (c : codepoint) (s : str) : str :=
  rev (lstrip c (rev s)).

Definition strip (c : codepoint) (s : str) : str :=
  rstrip c (lstrip c s).

(** [os.path.join(a, *p)] of [posixpath]:
<<
    for b in p:
        if b.startswith(sep):          path = b
        elif not path or path.endswith(sep): path += b
        else:                          path += sep + b
>> *)
Definition join_step (path b : str) : str :=
  if startswith b [SLASH] then b
  else if negb (truthy path) || endswith_char path SLASH then path ++ b
  else path ++ SLASH :: b.

Definition os_path_join (a : str) (p : list str) : str :=
  fold_left join_step p a.

(* ================================================================== *)
(** * UTF-8 and percent-encoding *)
(* ================================================================== *)

(** [chr(c).encode('utf-8')] with [errors='strict']: lone surrogates
    cannot be encoded and raise [UnicodeEncodeError]. *)
Definition utf8_encode_char (c : codepoint) : option bytes :=
  if c <? 128 then Some [c]
  else if c <? 2048 then Some [192 + c / 64; 128 + c mod 64]
  else if c <? 65536 then
    if (55296 <=? c) && (c <=? 57343) then None
    else Some [224 + c / 4096; 128 + (c / 64) mod 64; 128 + c mod 64]
  else if c <? 1114112 then
    Some [240 + c / 262144; 128 + (c / 4096) mod 64;
          128 + (c / 64) mod 64; 128 + c mod 64]
  else None.

Fixpoint utf8_encode (s : str) : option bytes :=
  match s with
  | [] => Some []
  | c :: s' =>
      match utf8_encode_char c, utf8_encode s' with
      | Some bs, Some rest => Some (bs ++ rest)
      | _, _ => None
      end
  end.

(** Upper-case hexadecimal digit of a number below 16. *)
Definition hexdigit (n : N) : codepoint :=
  if n <? 10 then 48 + n else 55 + n.

Definition is_alpha (b : N) : bool :=
  ((65 <=? b) && (b <=? 90)) || ((97 <=? b) && (b <=? 122)).

Definition is_digit (b : N) : bool := (48 <=? b) && (b <=? 57).

(** [urllib.parse]'s always-safe bytes: letters, digits and [_.-]. *)
Definition always_safe (b : N) : bool :=
  is_alpha b || is_digit b || N.eqb b 95 || N.eqb b 46 || N.eqb b 45.

(** The [safe] argument Django's [iri_to_uri] passes to [quote]:
    [/#%[]=:;$&()+,!?*@'~]. *)
Definition iri_safe : str := lit "/#%[]=:;$&()+,!?*@'~".

Definition mem_char (b : N) (s : str) : bool := existsb (N.eqb b) s.

(** [Quoter(safe).__missing__]: a safe byte stands for itself, any
    other byte becomes ['%{:02X}'.format(b)]. *)
Definition quoter (safe : str) (b : N) : str :=
  if always_safe b || mem_char b safe then [b]
  else [PERCENT; hexdigit (b / 16); hexdigit (b mod 16)].

Definition quote_from_bytes (bs : bytes) (safe : str) : str :=
  flat_map (quoter safe) bs.

(** [urllib.parse.quote(string, safe)] on a [str]. *)
Definition quote (s safe : str) : option str :=
  match utf8_encode s with
  | Some bs => Some (quote_from_bytes bs safe)
  | None => None
  end.

(** [django.utils.encoding.iri_to_uri]:
    [quote(iri, safe="/#%[]=:;$&()+,!?*@'~")]. *)
Definition iri_to_uri (iri : str) : option str := quote iri iri_safe.

(* ================================================================== *)
(** * Data model *)
(* ================================================================== *)

(** [readthedocs.projects.models.Project], the columns the views read.
    [main_language_project] is the foreign key behind the reverse
    relation [translations]. *)
Record Project := {
  project_pk : N;
  slug : str;
  language : str;
  single_version : bool;
  main_language_project : option N;
}.

(** [readthedocs.projects.models.ProjectRelationship]. *)
Record ProjectRelationship := {
  parent : Project;
  child : Project;
  alias : option str;
}.

(** [readthedocs.builds.models.Version]. *)
Record Version := {
  version_pk : N;
  version_project : N;
  version_slug : str;
}.

Record User := {
  is_authenticated : bool;
}.

(** The request as the views use it: the slug the host middleware
    derived, the user, and the results of [get_full_path()] and
    [build_absolute_uri()]. *)
Record Request := {
  host_project_slug : str;
  user : User;
  get_full_path : str;
  build_absolute_uri : str;
}.

(** [django.conf.settings], the entries the views read or write. *)
Record Settings := {
  PYTHON_MEDIA : bool;
  CAS_SERVER_URL : str;
}.

(** What the views answer with.  Responses built by collaborators are
    kept as the call that builds them. *)
Inductive Response :=
| HttpResponseRedirect (redirect_to : str)
| RenderResponse (template : str) (status_code : N)
| CasLoginResponse (cas_server_url next_page : str)
| ServeResponse (path document_root : str)
| HttpResponse (content content_type : str) (headers : list (str * str)).

Inductive Exn :=
| Http404 (reason : str)
| MultipleObjectsReturned
| UnicodeEncodeError.

(** Calls to the collaborators of the pipeline, in the order made. *)
Inductive Event :=
| VersionQuery (project : Project) (version_slug : option str)
    (found : option Version)
| HasPerm (version : option Version) (granted : bool)
| CasLogin (cas_server_url next_page : str)
| GetStoragePath (project : Project) (version_slug : option str)
| StoragePath
| StorageUrl (path : str)
| Serve (path document_root : str).

(** The collaborators: the tables behind the ORM, the methods of
    [Project] that live in the models, the resolver, the permission
    backend, the storage backend and the library parsers. *)
Record World := {
  projects : list Project;
  relationships : list ProjectRelationship;
  versions : list Version;
  (* project.get_default_version() *)
  get_default_version : Project -> str;
  (* project.get_storage_path(type_='html', version_slug, include_file=False) *)
  get_storage_path : Project -> option str -> str;
  (* readthedocs.core.resolver.resolve(project, filename=, query_params=);
     [None] is an argument left to its default *)
  resolve : Project -> option str -> str -> str;
  (* request.user.has_perm(VIEW_DOCS_PERMISSION, version), the request
     being stashed on the user *)
  has_perm : Request -> option Version -> bool;
  (* storage.url(path) and storage.path('') *)
  storage_url : str -> str;
  storage_root : str;
  (* django.views.static.serve(request, path, document_root): the
     reason of the Http404 it raises for a directory or a file that
     does not exist, [None] when it answers with the file *)
  serve_raises : str -> str -> option str;
  (* urlparse(url).path and urlparse(url).query *)
  urlparse_path : str -> str;
  urlparse_query : str -> str;
  (* mimetypes.guess_type(path) *)
  guess_type : str -> option str * option str;
}.

(* ================================================================== *)
(** * The view monad: settings, call trace and exceptions *)
(* ================================================================== *)

Record State := {
  settings : Settings;
  trace : list Event;
}.

Definition M (A : Type) : Type := State -> (Exn + A) * State.

Definition ret {A} (a : A) : M A := fun st => (inr a, st).

Definition raise {A} (e : Exn) : M A := fun st => (inl e, st).

Definition bind {A B} (m : M A) (k : A -> M B) : M B :=
  fun st =>
    match m st with
    | (inr a, st') => k a st'
    | (inl e, st') => (inl e, st')
    end.

Notation "x <- m ;; k" := (bind m (fun x => k))
  (at level 61, m at next level, right associativity).
Notation "m ;;; k" := (bind m (fun _ => k))
  (at level 61, right associativity).

Definition call (e : Event) : M unit :=
  fun st => (inr tt, {| settings := settings st; trace := trace st ++ [e] |}).

Definition get_settings : M Settings := fun st => (inr (settings st), st).

Definition set_CAS_SERVER_URL (u : str) : M unit :=
  fun st =>
    (inr tt,
     {| settings := {| PYTHON_MEDIA := PYTHON_MEDIA (settings st);
                       CAS_SERVER_URL := u |};
        trace := trace st |}).

(** Run a view from the given settings with an empty trace. *)
Definition run {A} (m : M A) (s : Settings) : (Exn + A) * State :=
  m {| settings := s; trace := [] |}.

(* ================================================================== *)
(** * The views *)
(* ================================================================== *)

Section Views.

Variable W : World.

(** [queryset.first()]: the first row in primary-key order; the tables
    of [World] are kept in that order. *)
Definition first {A} (l : list A) : option A := hd_error l.

(** Two model instances are the same row when their keys agree. *)
Definition project_eqb (a b : Project) : bool :=
  N.eqb (project_pk a) (project_pk b).

(** [column = s] for a nullable column. *)
Definition opt_str_eqb (o : option str) (s : str) : bool :=
  match o with Some a => str_eqb a s | None => false end.

(** [get_object_or_404(queryset, **lookup)]: [queryset.get], whose
    [DoesNotExist] becomes [Http404]. *)
Definition get_object_or_404 {A} (queryset : list A) (lookup : A -> bool)
  : M A :=
  match filter lookup queryset with
  | [] => raise (Http404 (lit "No Project matches the given query."))
  | [x] => ret x
  | _ :: _ :: _ => raise MultipleObjectsReturned
  end.

(** [project.translations.all()]: the reverse side of
    [main_language_project]. *)
Definition translations (p : Project) : list Project :=
  filter (fun t =>
            match main_language_project t with
            | Some k => N.eqb k (project_pk p)
            | None => false
            end) (projects W).

(** Modelled from the spec: the queryset method
    [Version.objects.for_project], which is defined outside this
    module.  A version is identified by its project and its slug, so the method
    keeps the versions of the given project. *)
Definition for_project (p : Project) : list Version :=
  filter (fun v => N.eqb (version_project v) (project_pk p)) (versions W).

(** [queryset.filter(slug=version_slug)]; the column is not nullable,
    so a [None] slug selects nothing. *)
Definition filter_slug (wanted : option str) (qs : list Version)
  : list Version :=
  match wanted with
  | Some s => filter (fun v => str_eqb (version_slug v) s) qs
  | None => []
  end.

(** Lines 23-27. *)
Definition _serve_401 (request : Request) (project : Project) : M Response :=
  ret (RenderResponse (lit "401.html") 401).

(** Lines 38-76: the decorator that maps [subproject_slug] into a
    [Project].  [kwargs] stands for the remaining keyword arguments,
    passed on untouched. *)
Definition map_subproject_slug {K}
    (view_func : Request -> Project -> option Project -> K -> M Response)
    (request : Request) (project : Project) (subproject : option Project)
    (subproject_slug : option str) (kwargs : K) : M Response :=
  match subproject, subproject_slug with
  | None, Some (c :: s) =>
      let subproject_slug := c :: s in
      let rel :=
        first (filter (fun r => project_eqb (parent r) project
                                && opt_str_eqb (alias r) subproject_slug)
                 (relationships W)) in
      match rel with
      | Some rel => view_func request project (Some (child rel)) kwargs
      | None =>
          let rel :=
            first (filter (fun r => project_eqb (parent r) project
                                    && str_eqb (slug (child r)) subproject_slug)
                     (relationships W)) in
          match rel with
          | Some rel => view_func request project (Some (child rel)) kwargs
          | None => raise (Http404 (lit "Invalid subproject slug"))
          end
      end
  | _, _ => view_func request project subproject kwargs
  end.

(** Lines 79-106: the decorator that maps [project_slug] into a
    [Project]. *)
Definition map_project_slug {K}
    (view_func : Request -> Project -> K -> M Response)
    (request : Request) (project : option Project)
    (project_slug : option str) (kwargs : K) : M Response :=
  match project with
  | Some project => view_func request project kwargs
  | None =>
      let project_slug :=
        match project_slug with
        | Some (c :: s) => c :: s
        | _ => host_project_slug request
        end in
      match filter (fun p => str_eqb (slug p) project_slug) (projects W) with
      | [project] => view_func request project kwargs
      | [] => raise (Http404 (lit "Project does not exist."))
      | _ :: _ :: _ => raise MultipleObjectsReturned
      end
  end.

(** Both decorators stacked, as every view of the module has them. *)
Definition decorated {K}
    (view : Request -> Project -> option Project -> K -> M Response)
    (request : Request) (project : option Project) (project_slug : option str)
    (subproject : option Project) (subproject_slug : option str) (kwargs : K)
  : M Response :=
  map_project_slug
    (fun request project '(subproject, subproject_slug, kwargs) =>
       map_subproject_slug view request project subproject subproject_slug
         kwargs)
    request project project_slug (subproject, subproject_slug, kwargs).

(** Lines 111-121, the function under the decorators. *)
Definition redirect_page_with_filename (request : Request) (project : Project)
    (subproject : option Project) (filename : str) : M Response :=
  let query := urlparse_query W (get_full_path request) in
  ret (HttpResponseRedirect
         (resolve W (or_else subproject project) (Some filename) query)).

(** Lines 126-135, the function under the decorators. *)
Definition redirect_project_slug (request : Request) (project : Project)
    (subproject : option Project) (_ : unit) : M Response :=
  let query := urlparse_query W (get_full_path request) in
  ret (HttpResponseRedirect
         (resolve W (or_else subproject project) None query)).

(** The name [redirect_project_slug] as the module binds it. *)
Definition redirect_project_slug_view (request : Request)
    (project : option Project) (subproject : option Project) : M Response :=
  decorated redirect_project_slug request project None subproject None tt.

(** Lines 285-304. *)
Definition _serve_docs_nginx (request : Request) (final_project : Project)
    (path : str) : M Response :=
  let '(content_type, encoding) := guess_type W path in
  let content_type :=
    match content_type with
    | Some (c :: s) => c :: s
    | _ => lit "application/octet-stream"
    end in
  let headers :=
    match encoding with
    | Some (c :: s) => [(lit "Content-Encoding", c :: s)]
    | _ => []
    end in
  match iri_to_uri path with
  | Some x_accel_redirect =>
      ret (HttpResponse (lit "Serving internal path: " ++ path) content_type
             (headers ++ [(lit "X-Accel-Redirect", x_accel_redirect)]))
  | None => raise UnicodeEncodeError
  end.

(** Lines 140-282, the function under the decorators. *)
Definition serve_docs (request : Request) (project : Project)
    (subproject : option Project) (lang_slug version_slug : option str)
    (filename : str) : M Response :=
  (* Take the most relevant project so far *)
  let current_project := or_else subproject project in
  (* Handle a / redirect when we aren't a single version *)
  if is_none lang_slug && is_none version_slug && str_eqb filename []
     && negb (single_version current_project)
  then redirect_project_slug_view request (Some current_project) None
  else if (is_none lang_slug || is_none version_slug)
          && negb (single_version current_project)
  then raise (Http404 (lit "Invalid URL for project with versions"))
  else
    (* Handle single-version projects that have URLs like a real project *)
    let '(lang_slug, version_slug, filename) :=
      match single_version current_project, lang_slug, version_slug with
      | true, Some l, Some v =>
          if truthy l && truthy v
          then (None, None, os_path_join l [v; filename])
          else (lang_slug, version_slug, filename)
      | _, _, _ => (lang_slug, version_slug, filename)
      end in
    (* Check to see if we need to serve a translation *)
    final_project <-
      (if negb (truthy_opt lang_slug)
          || opt_str_eqb lang_slug (language current_project)
       then ret current_project
       else get_object_or_404 (translations current_project)
              (fun t => opt_str_eqb lang_slug (language t))) ;;
    (* Handle single version by grabbing the default version *)
    let version_slug :=
      if single_version final_project
      then Some (get_default_version W final_project)
      else version_slug in
    let version :=
      first (filter_slug version_slug (for_project final_project)) in
    call (VersionQuery final_project version_slug version) ;;;
    (* Check authorization of user for a version. *)
    let granted := has_perm W request version in
    call (HasPerm version granted) ;;;
    returned <-
      (if negb granted then
         if negb (is_authenticated (user request)) then
           (* Redirect to the CAS login page *)
           (if contains (lit "ticket=") (build_absolute_uri request)
            then set_CAS_SERVER_URL (lit "http://web:8000/cas/")
            else set_CAS_SERVER_URL (lit "http://dev.readthedocs.io/cas/")) ;;;
           s <- get_settings ;;
           call (CasLogin (CAS_SERVER_URL s) (build_absolute_uri request)) ;;;
           ret (Some (CasLoginResponse (CAS_SERVER_URL s)
                        (build_absolute_uri request)))
         else ret None
       else ret None) ;;
    match returned with
    | Some response => ret response
    | None =>
        call (GetStoragePath final_project version_slug) ;;;
        let storage_path := get_storage_path W final_project version_slug in
        let path := storage_path ++ SLASH :: filename in
        (* append index.html when appropriate *)
        let path :=
          if endswith_char path SLASH then path ++ lit "index.html"
          else path in
        s <- get_settings ;;
        if PYTHON_MEDIA s then
          (* Serve from the filesystem *)
          call StoragePath ;;;
          let root_path := storage_root W in
          call (Serve path root_path) ;;;
          match serve_raises W path root_path with
          | Some reason => raise (Http404 reason)
          | None => ret (ServeResponse path root_path)
          end
        else
          call (StorageUrl path) ;;;
          let url := storage_url W path in
          (* only keep the path and query *)
          let path := urlparse_path W url ++ QMARK :: urlparse_query W url in
          (* Remove `/` to avoid MethodNotSupported *)
          let path := strip SLASH path in
          (* Serve via nginx *)
          _serve_docs_nginx request final_project (lit "/proxito/" ++ path)
    end.

(** The name [serve_docs] as the module binds it. *)
Definition serve_docs_view (request : Request)
    (project : option Project) (project_slug : option str)
    (subproject : option Project) (subproject_slug : option str)
    (lang_slug version_slug : option str) (filename : str) : M Response :=
  decorated
    (fun request project subproject '(lang_slug, version_slug, filename) =>
       serve_docs request project subproject lang_slug version_slug filename)
    request project project_slug subproject subproject_slug
    (lang_slug, version_slug, filename).

End Views.

(* ================================================================== *)
(** * A small installation, used to run the views *)
(* ================================================================== *)

Module Demo.

(** A project with versions, a single-version project and its French
    translation, which has versions of its own. *)
Definition acme : Project :=
  {| project_pk := 1; slug := lit "acme"; language := lit "en";
     single_version := false; main_language_project := None |}.

Definition solo : Project :=
  {| project_pk := 2; slug := lit "solo"; language := lit "en";
     single_version := true; main_language_project := None |}.

Definition solo_fr : Project :=
  {| project_pk := 3; slug := lit "solo-fr"; language := lit "fr";
     single_version := false; main_language_project := Some 2 |}.

(** Two subprojects of [acme]: [guide], mounted under the alias
    [docs], and a project whose own slug is [docs]. *)
Definition guide : Project :=
  {| project_pk := 4; slug := lit "guide"; language := lit "en";
     single_version := false; main_language_project := None |}.

Definition docs : Project :=
  {| project_pk := 5; slug := lit "docs"; language := lit "en";
     single_version := false; main_language_project := None |}.

Definition rel_docs : ProjectRelationship :=
  {| parent := acme; child := docs; alias := None |}.

Definition rel_guide : ProjectRelationship :=
  {| parent := acme; child := guide; alias := Some (lit "docs") |}.

Definition acme_latest : Version :=
  {| version_pk := 1; version_project := 1; version_slug := lit "latest" |}.

Definition solo_latest : Version :=
  {| version_pk := 2; version_project := 2; version_slug := lit "latest" |}.

(** The storage backend signs a path by prefixing its host and
    appending a signature; the parser gives back the two parts. *)
Definition sign_query : str := lit "Signature=abc".

Fixpoint before (c : codepoint) (s : str) : str :=
  match s with
  | [] => []
  | x :: s' => if N.eqb x c then [] else x :: before c s'
  end.

Fixpoint after (c : codepoint) (s : str) : str :=
  match s with
  | [] => []
  | x :: s' => if N.eqb x c then s' else after c s'
  end.

(** The objects of the media storage, and the not-found of [serve]
    for any other path. *)
Definition stored : list str :=
  [lit "html/acme/latest/index.html";
   lit "html/acme/latest/install/index.html";
   lit "html/solo/latest/index.html"].

Definition does_not_exist (path root : str) : str :=
  34 :: root ++ SLASH :: path ++ 34 :: lit " does not exist".

Definition world (grant : Request -> option Version -> bool) : World :=
  {| projects := [acme; solo; solo_fr; guide; docs];
     relationships := [rel_docs; rel_guide];
     versions := [acme_latest; solo_latest];
     get_default_version := fun _ => lit "latest";
     get_storage_path := fun p v =>
       lit "html/" ++ slug p ++ SLASH :: or_else v (lit "None");
     resolve := fun p f q =>
       lit "http://" ++ slug p ++ lit ".readthedocs.io/en/latest/"
         ++ or_else f [] ++ (if truthy q then QMARK :: q else []);
     has_perm := grant;
     storage_url := fun path =>
       lit "https://bucket.example.com/" ++ path ++ QMARK :: sign_query;
     storage_root := lit "/srv/media";
     serve_raises := fun path root =>
       if existsb (str_eqb path) stored then None
       else Some (does_not_exist path root);
     urlparse_path := fun url => before QMARK (skipn 26 url);
     urlparse_query := fun url => after QMARK url;
     guess_type := fun _ => (Some (lit "text/html"), None) |}.

Definition anonymous : User := {| is_authenticated := false |}.
Definition member : User := {| is_authenticated := true |}.

Definition request (u : User) (path query : str) : Request :=
  {| host_project_slug := lit "acme";
     user := u;
     get_full_path := path ++ (if truthy query then QMARK :: query else []);
     build_absolute_uri :=
       lit "http://acme.readthedocs.io" ++ path
         ++ (if truthy query then QMARK :: query else []) |}.

Definition production : Settings :=
  {| PYTHON_MEDIA := false; CAS_SERVER_URL := [] |}.

Definition development : Settings :=
  {| PYTHON_MEDIA := true; CAS_SERVER_URL := [] |}.

Definition allow_all : Request -> option Version -> bool := fun _ _ => true.
Definition deny_all : Request -> option Version -> bool := fun _ _ => false.

End Demo.

(* ================================================================== *)
(** * Vocabulary of the statements *)
(* ================================================================== *)

(** [x] is the first row of [l] that passes the test [f]. *)
Definition first_match {A} (f : A -> bool) (l : list A) (x : A) : Prop :=
  exists pre post,
    l = pre ++ x :: post /\ f x = true /\ forall y, In y pre -> f y = false.

(** The two lookups of the subproject decorator. *)
Definition alias_is (project : Project) (s : str) (r : ProjectRelationship)
  : bool :=
  project_eqb (parent r) project && opt_str_eqb (alias r) s.

Definition child_slug_is (project : Project) (s : str)
    (r : ProjectRelationship) : bool :=
  project_eqb (parent r) project && str_eqb (slug (child r)) s.

(** What the stages before the access gate settle: a redirect of the
    root, an error, or the project, version slug and file name that are
    served. *)
Inductive Settled :=
| RootRedirect (target : str)
| Failed (e : Exn)
| Located (final_project : Project) (version_slug : option str)
    (filename : str).

Section Summary.

Variable W : World.

Definition settle (request : Request) (project : Project)
    (subproject : option Project) (lang_slug version_slug : option str)
    (filename : str) : Settled :=
  let current_project := or_else subproject project in
  let served p v f :=
    Located p (if single_version p then Some (get_default_version W p) else v)
      f in
  if is_none lang_slug && is_none version_slug && str_eqb filename []
     && negb (single_version current_project)
  then RootRedirect (resolve W current_project None
                       (urlparse_query W (get_full_path request)))
  else if (is_none lang_slug || is_none version_slug)
          && negb (single_version current_project)
  then Failed (Http404 (lit "Invalid URL for project with versions"))
  else
    let '(l, v, f) :=
      match single_version current_project, lang_slug, version_slug with
      | true, Some l, Some v =>
          if truthy l && truthy v
          then (None, None, os_path_join l [v; filename])
          else (lang_slug, version_slug, filename)
      | _, _, _ => (lang_slug, version_slug, filename)
      end in
    if negb (truthy_opt l) || opt_str_eqb l (language current_project)
    then served current_project v f
    else
      match filter (fun t => opt_str_eqb l (language t))
              (translations W current_project) with
      | [] => Failed (Http404 (lit "No Project matches the given query."))
      | [t] => served t v f
      | _ :: _ :: _ => Failed MultipleObjectsReturned
      end.

(** The version the locator finds. *)
Definition located (final_project : Project) (version_slug : option str)
  : option Version :=
  first (filter_slug version_slug (for_project W final_project)).

(** The file asked from the storage. *)
Definition storage_file (final_project : Project) (version_slug : option str)
    (filename : str) : str :=
  let path := get_storage_path W final_project version_slug
                ++ SLASH :: filename in
  if endswith_char path SLASH then path ++ lit "index.html" else path.

(** What [serve] gives for a file of the storage root. *)
Definition served (file : str) : Exn + Response :=
  match serve_raises W file (storage_root W) with
  | Some reason => inl (Http404 reason)
  | None => inr (ServeResponse file (storage_root W))
  end.

(** The path handed to the edge proxy for a file. *)
Definition internal_path (file : str) : str :=
  lit "/proxito/"
    ++ strip SLASH (urlparse_path W (storage_url W file)
                      ++ QMARK :: urlparse_query W (storage_url W file)).

(** The login-callback marker, as the view tests it. *)
Definition carries_ticket_marker (request : Request) : bool :=
  contains (lit "ticket=") (build_absolute_uri request).

Definition internal_cas : str := lit "http://web:8000/cas/".
Definition external_cas : str := lit "http://dev.readthedocs.io/cas/".

Definition cas_endpoint (request : Request) : str :=
  if carries_ticket_marker request then internal_cas else external_cas.

(** The access gate and the storage dispatcher in one step, from the
    state [st]. *)
Definition answer (request : Request) (final_project : Project)
    (version_slug : option str) (filename : str) (st : State)
  : (Exn + Response) * State :=
  let version := located final_project version_slug in
  let granted := has_perm W request version in
  let seen := trace st ++ [VersionQuery final_project version_slug version;
                           HasPerm version granted] in
  let uri := build_absolute_uri request in
  let file := storage_file final_project version_slug filename in
  if negb granted && negb (is_authenticated (user request)) then
    (inr (CasLoginResponse (cas_endpoint request) uri),
     {| settings := {| PYTHON_MEDIA := PYTHON_MEDIA (settings st);
                       CAS_SERVER_URL := cas_endpoint request |};
        trace := seen ++ [CasLogin (cas_endpoint request) uri] |})
  else if PYTHON_MEDIA (settings st) then
    (served file,
     {| settings := settings st;
        trace := seen ++ [GetStoragePath final_project version_slug;
                          StoragePath; Serve file (storage_root W)] |})
  else
    _serve_docs_nginx W request final_project (internal_path file)
      {| settings := settings st;
         trace := seen ++ [GetStoragePath final_project version_slug;
                           StorageUrl file] |}.

End Summary.

(** The files asked from the storage backend along a trace. *)
Definition files_tried (t : list Event) : list str :=
  flat_map (fun e =>
              match e with
              | StorageUrl path => [path]
              | Serve path _ => [path]
              | _ => []
              end) t.

(** The header of a response, when it has it. *)
Definition header (name : str) (r : Response) : option str :=
  match r with
  | HttpResponse _ _ headers =>
      match find (fun h => str_eqb (fst h) name) headers with
      | Some h => Some (snd h)
      | None => None
      end
  | _ => None
  end.

(** Strings made of characters [iri_to_uri] leaves alone. *)
Definition uri_safe (s : str) : bool :=
  forallb (fun c => always_safe c || mem_char c iri_safe) s.

Definition with_filename (g : str -> str) (x : Settled) : Settled :=
  match x with
  | Located p v f => Located p v (g f)
  | RootRedirect t => RootRedirect t
  | Failed e => Failed e
  end.

(** ** Reading a URI back

    The decoding the proxy side applies to a header value: percent
    escapes give bytes, the bytes are read as UTF-8. *)

(** Value of a hexadecimal digit, either case. *)
Definition hexval (c : codepoint) : option N :=
  if (48 <=? c) && (c <=? 57) then Some (c - 48)
  else if (65 <=? c) && (c <=? 70) then Some (c - 55)
  else if (97 <=? c) && (c <=? 102) then Some (c - 87)
  else None.

(** [%XY] with two hexadecimal digits stands for a byte, any other
    character for itself. *)
Fixpoint percent_decode (s : str) : bytes :=
  match s with
  | [] => []
  | c :: rest =>
      if c =? PERCENT then
        match rest with
        | h :: l :: rest' =>
            match hexval h, hexval l with
            | Some a, Some b => (16 * a + b) :: percent_decode rest'
            | _, _ => c :: percent_decode rest
            end
        | _ => c :: percent_decode rest
        end
      else c :: percent_decode rest
  end.

Definition continuation (b : N) : bool := (128 <=? b) && (b <? 192).

Definition surrogate (c : codepoint) : bool := (55296 <=? c) && (c <=? 57343).

(** Strict UTF-8: no stray or missing continuation byte, no overlong
    form, no surrogate, nothing above U+10FFFF. *)
Fixpoint utf8_decode (bs : bytes) : option str :=
  match bs with
  | [] => Some []
  | b0 :: r =>
      if b0 <? 128 then option_map (cons b0) (utf8_decode r)
      else if b0 <? 192 then None
      else if b0 <? 224 then
        match r with
        | b1 :: r' =>
            let c := (b0 - 192) * 64 + (b1 - 128) in
            if continuation b1 && (128 <=? c)
            then option_map (cons c) (utf8_decode r')
            else None
        | _ => None
        end
      else if b0 <? 240 then
        match r with
        | b1 :: b2 :: r' =>
            let c := (b0 - 224) * 4096 + (b1 - 128) * 64 + (b2 - 128) in
            if continuation b1 && continuation b2 && (2048 <=? c)
               && negb (surrogate c)
            then option_map (cons c) (utf8_decode r')
            else None
        | _ => None
        end
      else if b0 <? 248 then
        match r with
        | b1 :: b2 :: b3 :: r' =>
            let c := (b0 - 240) * 262144 + (b1 - 128) * 4096
                     + (b2 - 128) * 64 + (b3 - 128) in
            if continuation b1 && continuation b2 && continuation b3
               && (65536 <=? c) && (c <? 1114112)
            then option_map (cons c) (utf8_decode r')
            else None
        | _ => None
        end
      else None
  end.

Definition uri_decode (uri : str) : option str :=
  utf8_decode (percent_decode uri).

(** A percent escape at the head of a string, and anywhere in it. *)
Definition escape_at (s : str) : bool :=
  match s with
  | c :: h :: l :: _ =>
      (c =? PERCENT) && negb (is_none (hexval h)) && negb (is_none (hexval l))
  | _ => false
  end.

Fixpoint has_escape (s : str) : bool :=
  escape_at s ||
  match s with
  | [] => false
  | _ :: rest => has_escape rest
  end.

Definition ascii_only (s : str) : Prop := forall c, In c s -> c < 128.

(** ** The login-callback marker as the specification words it

    A query parameter named [ticket]: the query is what [urlsplit]
    finds between the first ['?'] and the fragment, the parameters are
    its pieces between ['&'], and the name of a parameter is what
    stands before its ['=']. *)
Fixpoint text_before (c : codepoint) (s : str) : str :=
  match s with
  | [] => []
  | x :: s' => if N.eqb x c then [] else x :: text_before c s'
  end.

Fixpoint text_after (c : codepoint) (s : str) : str :=
  match s with
  | [] => []
  | x :: s' => if N.eqb x c then s' else text_after c s'
  end.

(** [s.split(c)]. *)
Fixpoint split_on (c : codepoint) (s : str) : list str :=
  match s with
  | [] => [[]]
  | x :: s' =>
      if N.eqb x c then [] :: split_on c s'
      else match split_on c s' with
           | piece :: pieces => (x :: piece) :: pieces
           | [] => [[x]]
           end
  end.

Definition url_query (url : str) : str :=
  text_after QMARK (text_before 35 url).

Definition query_parameter_names (url : str) : list str :=
  map (text_before 61) (split_on 38 (url_query url)).

Definition has_ticket_parameter (request : Request) : bool :=
  existsb (str_eqb (lit "ticket"))
    (query_parameter_names (build_absolute_uri request)).

(** The marker as the view tests it: the text [ticket=] somewhere in
    the absolute URL. *)
Definition holds_ticket_text (request : Request) : Prop :=
  exists before after,
    build_absolute_uri request = before ++ lit "ticket=" ++ after.

Section Statements.

Variable W : World.

(** The header of every edge-proxy response read back by [decode] is
    the path the response was built for. *)
Definition header_round_trips (decode : str -> option str) : Prop :=
  forall (request : Request) (p : Project) (path : str) (st : State)
         (response : Response),
    fst (_serve_docs_nginx W request p path st) = inr response ->
    exists uri,
      header (lit "X-Accel-Redirect") response = Some uri
      /\ ascii_only uri
      /\ decode uri = Some path.

(** The login challenge of an anonymous, denied request goes through
    the internal endpoint exactly when the request has a query
    parameter named [ticket]. *)
Definition login_endpoint_follows_ticket_parameter (request : Request)
    (project : Project) (subproject : option Project)
    (lang_slug version_slug : option str) (filename : str) (s : Settings)
  : Prop :=
  let r := run (serve_docs W request project subproject lang_slug
                  version_slug filename) s in
  is_authenticated (user request) = false ->
  (exists v, In (HasPerm v false) (trace (snd r))) ->
  (fst r = inr (CasLoginResponse (lit "http://web:8000/cas/")
                  (build_absolute_uri request))
   <-> has_ticket_parameter request = true).

(** In internal-redirect mode the header [X-Accel-Redirect] of the
    response is ['/proxito/'] followed by the stripped path and query
    of the signed URL, for every file signed. *)
Definition header_is_the_stripped_signed_path (request : Request)
    (project : Project) (subproject : option Project)
    (lang_slug version_slug : option str) (filename : str) (s : Settings)
  : Prop :=
  let r := run (serve_docs W request project subproject lang_slug
                  version_slug filename) s in
  PYTHON_MEDIA s = false ->
  forall file,
    In (StorageUrl file) (trace (snd r)) ->
    let url := storage_url W file in
    exists response,
      fst r = inr response
      /\ header (lit "X-Accel-Redirect") response
         = Some (lit "/proxito/"
                   ++ strip SLASH (urlparse_path W url
                                     ++ QMARK :: urlparse_query W url)).

(** The calls of a trace that name a version slug: the version lookup
    and the construction of the storage path. *)
Definition uses_version_slug (t : list Event) (p : Project)
    (vs : option str) : Prop :=
  (exists found, In (VersionQuery p vs found) t) \/ In (GetStoragePath p vs) t.

(** No version entity for the pair. *)
Definition no_version_entity (p : Project) (vs : option str) : Prop :=
  forall v, In v (versions W) -> version_project v = project_pk p ->
            Some (version_slug v) <> vs.

(** The version locator as a terminal stage: for a request settled on
    a pair without version entity, a not-found answer, no call of the
    access gate and no file asked from the storage. *)
Definition absent_version_is_terminal (request : Request) (project : Project)
    (subproject : option Project) (lang_slug version_slug : option str)
    (filename : str) (s : Settings) : Prop :=
  forall p vs f,
    settle W request project subproject lang_slug version_slug filename
    = Located p vs f ->
    no_version_entity p vs ->
    let r := run (serve_docs W request project subproject lang_slug
                    version_slug filename) s in
    (exists reason, fst r = inl (Http404 reason))
    /\ (forall v g, ~ In (HasPerm v g) (trace (snd r)))
    /\ files_tried (trace (snd r)) = [].

(** The default version of the addressed project as the only version
    slug of a request to a single-version project. *)
Definition single_version_uses_own_default (request : Request)
    (project : Project) (subproject : option Project)
    (lang_slug version_slug : option str) (filename : str) (s : Settings)
  : Prop :=
  single_version (or_else subproject project) = true ->
  forall p vs,
    uses_version_slug
      (trace (snd (run (serve_docs W request project subproject lang_slug
                          version_slug filename) s))) p vs ->
    vs = Some (get_default_version W (or_else subproject project)).

End Statements.

(* ================================================================== *)
(** * The views as the URL patterns call them *)
(* ================================================================== *)

(** The name [redirect_page_with_filename] as the module binds it
    (lines 109-111). *)
Definition redirect_page_with_filename_view (W : World) (request : Request)
    (project : option Project) (project_slug : option str)
    (subproject : option Project) (subproject_slug : option str)
    (filename : str) : M Response :=
  decorated W (redirect_page_with_filename W) request project project_slug
    subproject subproject_slug filename.

(** The slug [map_project_slug] looks up: the one of the URL when it
    is there and not empty, the one of the host otherwise. *)
Definition wanted_project_slug (request : Request) (project_slug : option str)
  : str :=
  if truthy_opt project_slug then or_else project_slug []
  else host_project_slug request.

(** The version entities of a project with a slug. *)
Definition is_version_of (p : Project) (slug : str) (v : Version) : bool :=
  N.eqb (version_project v) (project_pk p) && str_eqb (version_slug v) slug.

(* ================================================================== *)
(** * Faceted search: the keyword arguments of [RTDFacetedSearch] *)
(* ================================================================== *)

(** Python values as keyword arguments carry them. *)
#[local] Unset Elimination Schemes.
Inductive Obj :=
| ONone
| OStr (s : str)
| OList (l : list Obj)
| ODict (d : list (str * Obj)).
#[local] Set Elimination Schemes.

(** A [dict] with string keys, in insertion order. *)
Abbreviation dict := (list (str * Obj)) (only parsing).

(** [d.get(k)]; [k in d] is [dict_has]. *)
Definition dict_get (k : str) (d : dict) : option Obj :=
  match find (fun kv => str_eqb (fst kv) k) d with
  | Some kv => Some (snd kv)
  | None => None
  end.

Definition dict_has (k : str) (d : dict) : bool :=
  negb (is_none (dict_get k d)).

(** [del d[k]], and the dictionary [d.pop(k)] leaves. *)
Definition dict_del (k : str) (d : dict) : dict :=
  filter (fun kv => negb (str_eqb (fst kv) k)) d.

(** [d[k] = v]: a key already there keeps its place, a new key goes
    last. *)
Fixpoint dict_set (k : str) (v : Obj) (d : dict) : dict :=
  match d with
  | [] => [(k, v)]
  | (k', v') :: d' =>
      if str_eqb k' k then (k, v) :: d' else (k', v') :: dict_set k v d'
  end.

(** [faceted_search.py], line 22. *)
Definition ALL_FACETS : list str :=
  [lit "project"; lit "version"; lit "doc_type"; lit "language"; lit "index"].

Inductive SearchExn :=
| TypeError.

(** Lines 35-36, one turn of the first loop:
    [kwargs.setdefault('filters', {})[facet] = kwargs.pop(facet)].
    The value is popped first; item assignment on a value that is not
    a dictionary raises [TypeError]. *)
Definition move_facet (kwargs : dict) (facet : str) : SearchExn + dict :=
  match dict_get facet kwargs with
  | None => inr kwargs
  | Some value =>
      let kwargs := dict_del facet kwargs in
      match dict_get (lit "filters") kwargs with
      | None =>
          inr (dict_set (lit "filters") (ODict [(facet, value)]) kwargs)
      | Some (ODict filters) =>
          inr (dict_set (lit "filters")
                 (ODict (dict_set facet value filters)) kwargs)
      | Some _ => inl TypeError
      end
  end.

(** Lines 34-36. *)
Fixpoint move_facets (facets : list str) (kwargs : dict) : SearchExn + dict :=
  match facets with
  | [] => inr kwargs
  | facet :: rest =>
      match move_facet kwargs facet with
      | inr kwargs => move_facets rest kwargs
      | inl e => inl e
      end
  end.

(** Lines 39-41. *)
Definition drop_facets (kwargs : dict) : dict :=
  fold_left (fun kwargs f => if dict_has f kwargs then dict_del f kwargs
                             else kwargs)
    ALL_FACETS kwargs.

(** Lines 32-42, [RTDFacetedSearch.__init__] for a class with the
    facets [facets]: the keyword arguments handed on to
    [FacetedSearch.__init__]. *)
Definition RTDFacetedSearch_init (facets : list str) (kwargs : dict)
  : SearchExn + dict :=
  match move_facets facets kwargs with
  | inr kwargs => inr (drop_facets kwargs)
  | inl e => inl e
  end.

(** The facets of the four search classes, lines 92-139. *)
Definition DomainSearch_facets : list str :=
  [lit "project"; lit "version"; lit "doc_type"].
Definition ProjectSearch_facets : list str := [lit "language"].
Definition PageSearch_facets : list str := [lit "project"; lit "version"].
Definition AllSearch_facets : list str :=
  [lit "project"; lit "version"; lit "language"; lit "doc_type"; lit "index"].

Definition is_dict (o : Obj) : bool :=
  match o with ODict _ => true | _ => false end.

(** The filters given by the caller, when they are a dictionary. *)
Definition filters_given (kwargs : dict) : dict :=
  match dict_get (lit "filters") kwargs with
  | Some (ODict d) => d
  | _ => []
  end.

Definition mem_str (k : str) (l : list str) : bool := existsb (str_eqb k) l.

(** Keyword arguments of a project search, and what is handed on. *)
Definition demo_kwargs : dict :=
  [(lit "query", OStr (lit "install"));
   (lit "language", OStr (lit "en"));
   (lit "project", OStr (lit "acme"));
   (lit "filters", ODict [(lit "version", OStr (lit "latest"))])].

Definition demo_passed : dict :=
  [(lit "query", OStr (lit "install"));
   (lit "filters", ODict [(lit "version", OStr (lit "latest"));
                          (lit "language", OStr (lit "en"))])].

(* ================================================================== *)
(** * Lists, strings and the monad *)
(* ================================================================== *)

Lemma str_eqb_refl (s : str) : str_eqb s s = true.
Proof.
  induction s as [|c s IH]; simpl; [reflexivity|].
  now rewrite N.eqb_refl, IH.
Qed.

Lemma str_eqb_eq (a b : str) : str_eqb a b = true <-> a = b.
Proof.
  split.
  - revert b. induction a as [|x a IH]; intros [|y b] H; simpl in H;
      try discriminate; [reflexivity|].
    apply andb_true_iff in H as [Hx Hab].
    apply N.eqb_eq in Hx. apply IH in Hab. now subst.
  - intros ->. apply str_eqb_refl.
Qed.

Lemma filter_nil_iff {A} (f : A -> bool) (l : list A) :
  filter f l = [] <-> forall x, In x l -> f x = false.
Proof.
  induction l as [|a l IH]; simpl.
  - split; [intros _ x []|reflexivity].
  - destruct (f a) eqn:Fa.
    + split; [discriminate|]. intros H. rewrite (H a) in Fa by now left.
      discriminate.
    + rewrite IH. split.
      * intros H x [<-|Hx]; auto.
      * intros H x Hx. apply H. now right.
Qed.

Lemma first_filter_None {A} (f : A -> bool) (l : list A) :
  first (filter f l) = None <-> forall x, In x l -> f x = false.
Proof.
  rewrite <- filter_nil_iff. unfold first.
  destruct (filter f l); simpl; split; congruence.
Qed.

Lemma first_match_filter {A} (f : A -> bool) (l : list A) (x : A) :
  first_match f l x <-> first (filter f l) = Some x.
Proof.
  split.
  - intros (pre & post & -> & Fx & Hpre).
    rewrite filter_app. apply filter_nil_iff in Hpre. rewrite Hpre.
    simpl. now rewrite Fx.
  - induction l as [|a l IH]; simpl; [discriminate|].
    destruct (f a) eqn:Fa; simpl.
    + intros [= ->]. exists [], l. repeat split; auto. intros y [].
    + intros H. destruct (IH H) as (pre & post & -> & Fx & Hpre).
      exists (a :: pre), post. repeat split; auto.
      intros y [<-|Hy]; auto.
Qed.

Lemma first_filter_exists {A} (f : A -> bool) (l : list A) (x : A) :
  In x l -> f x = true -> exists y, first (filter f l) = Some y.
Proof.
  intros Hin Fx. destruct (first (filter f l)) as [y|] eqn:E; eauto.
  rewrite first_filter_None in E. rewrite (E x Hin) in Fx. discriminate.
Qed.

Lemma str_eqb_neq (a b : str) : a <> b -> str_eqb a b = false.
Proof.
  intros H. destruct (str_eqb a b) eqn:E; [|reflexivity].
  apply str_eqb_eq in E. contradiction.
Qed.

Lemma filter_unique {A} (f : A -> bool) (l : list A) (x : A) :
  NoDup l -> In x l -> f x = true ->
  (forall y, In y l -> f y = true -> y = x) ->
  filter f l = [x].
Proof.
  induction l as [|a l IH]; intros Hd Hin Hx Huniq; [destruct Hin|].
  inversion Hd as [|? ? Hnotin Hd']; subst. simpl.
  destruct Hin as [->|Hin].
  - rewrite Hx. f_equal. apply filter_nil_iff. intros y Hy.
    destruct (f y) eqn:Fy; [|reflexivity].
    assert (y = x) by (apply Huniq; [now right|exact Fy]).
    subst. contradiction.
  - destruct (f a) eqn:Fa.
    + assert (a = x) by (apply Huniq; [now left|exact Fa]).
      subst. contradiction.
    + apply IH; auto. intros y Hy. apply Huniq. now right.
Qed.

Lemma startswith_spec (s p : str) :
  startswith s p = true <-> exists rest, s = p ++ rest.
Proof.
  revert s. induction p as [|x p IH]; intros s; simpl.
  - split; [intros _; now exists s|reflexivity].
  - destruct s as [|y s].
    + split; [discriminate|intros [rest E]; discriminate].
    + rewrite andb_true_iff, N.eqb_eq, IH. split.
      * intros [-> [rest ->]]. now exists rest.
      * intros [rest E]. injection E as -> ->. split; [reflexivity|].
        now exists rest.
Qed.

(** [sub in s] holds exactly when [s] is some text, [sub], some
    text. *)
Lemma contains_spec (sub s : str) :
  contains sub s = true <-> exists pre post, s = pre ++ sub ++ post.
Proof.
  induction s as [|x s IH].
  - cbn [contains]. rewrite orb_false_r, startswith_spec. split.
    + intros [rest E]. now exists [], rest.
    + intros (pre & post & E). destruct pre; [|discriminate].
      now exists post.
  - cbn [contains]. rewrite orb_true_iff, startswith_spec, IH. split.
    + intros [[rest E]|(pre & post & ->)].
      * now exists [], rest.
      * now exists (x :: pre), post.
    + intros (pre & post & E). destruct pre as [|y pre].
      * left. now exists post.
      * right. injection E as -> ->. now exists pre, post.
Qed.

Lemma last_is_cons (c x : codepoint) (s : str) :
  s <> [] -> last_is c (x :: s) = last_is c s.
Proof. destruct s; [contradiction|reflexivity]. Qed.

Lemma last_is_app (c : codepoint) (a b : str) :
  b <> [] -> last_is c (a ++ b) = last_is c b.
Proof.
  intros Hb. induction a as [|x a IH]; [reflexivity|].
  rewrite <- app_comm_cons, last_is_cons; [exact IH|].
  destruct a; [exact Hb|discriminate].
Qed.

Lemma last_is_nonempty (c : codepoint) (s : str) :
  last_is c s = true -> s <> [].
Proof. destruct s; [discriminate|discriminate]. Qed.

Lemma startswith_app (f g : str) (c : codepoint) :
  f <> [] -> startswith (f ++ g) [c] = startswith f [c].
Proof.
  destruct f as [|x f]; [contradiction|]. intros _. reflexivity.
Qed.

Lemma join_step_app (path f g : str) :
  f <> [] -> join_step path (f ++ g) = join_step path f ++ g.
Proof.
  intros Hf. unfold join_step. rewrite startswith_app by assumption.
  destruct (startswith f [SLASH]); [reflexivity|].
  destruct (negb (truthy path) || endswith_char path SLASH).
  - now rewrite app_assoc.
  - now rewrite app_comm_cons, app_assoc.
Qed.

Lemma join_step_last (c : codepoint) (path f : str) :
  f <> [] -> last_is c (join_step path f) = last_is c f.
Proof.
  intros Hf. unfold join_step.
  destruct (startswith f [SLASH]); [reflexivity|].
  destruct (negb (truthy path) || endswith_char path SLASH).
  - now apply last_is_app.
  - rewrite last_is_app; [|discriminate]. now apply last_is_cons.
Qed.

Lemma os_path_join_filename (l v f g : str) :
  f <> [] ->
  os_path_join l [v; f ++ g] = os_path_join l [v; f] ++ g
  /\ last_is SLASH (os_path_join l [v; f]) = last_is SLASH f.
Proof.
  intros Hf. unfold os_path_join. cbn [fold_left].
  split; [now apply join_step_app|now apply join_step_last].
Qed.

(** *** [strip] *)

Lemma lstrip_spec (c : codepoint) (s : str) :
  exists n, s = repeat c n ++ lstrip c s
            /\ startswith (lstrip c s) [c] = false.
Proof.
  induction s as [|x s (n & E & H)].
  - exists 0%nat. split; reflexivity.
  - simpl. destruct (N.eqb_spec x c) as [->|Hx].
    + exists (S n). simpl. split; [now rewrite <- E|exact H].
    + exists 0%nat. split; [reflexivity|]. simpl.
      rewrite andb_true_r. apply N.eqb_neq. congruence.
Qed.

Lemma last_is_rev (c : codepoint) (s : str) :
  last_is c (rev s) = startswith s [c].
Proof.
  destruct s as [|x s]; [reflexivity|]. simpl rev.
  rewrite last_is_app by discriminate. simpl.
  rewrite andb_true_r. apply N.eqb_sym.
Qed.

Lemma rstrip_spec (c : codepoint) (s : str) :
  exists m, s = rstrip c s ++ repeat c m /\ last_is c (rstrip c s) = false.
Proof.
  unfold rstrip. destruct (lstrip_spec c (rev s)) as (m & E & H).
  exists m. split.
  - rewrite <- (rev_involutive s) at 1. rewrite E at 1.
    now rewrite rev_app_distr, rev_repeat.
  - now rewrite last_is_rev.
Qed.

(** [strip] takes every leading and trailing [c] away, and nothing
    else. *)
Lemma strip_spec (c : codepoint) (s : str) :
  exists n m,
    s = repeat c n ++ strip c s ++ repeat c m
    /\ startswith (strip c s) [c] = false
    /\ last_is c (strip c s) = false.
Proof.
  unfold strip.
  destruct (lstrip_spec c s) as (n & En & Hn).
  destruct (rstrip_spec c (lstrip c s)) as (m & Em & Hm).
  exists n, m. repeat split.
  - now rewrite <- Em.
  - destruct (rstrip c (lstrip c s)) as [|x r] eqn:R; [reflexivity|].
    rewrite Em in Hn. rewrite startswith_app in Hn by discriminate.
    exact Hn.
  - exact Hm.
Qed.

Lemma in_lstrip (c x : codepoint) (s : str) :
  x <> c -> In x s -> In x (lstrip c s).
Proof.
  intros Hx. induction s as [|y s IH]; [easy|]. simpl.
  destruct (N.eqb_spec y c) as [->|Hy].
  - intros [E|Hin]; [congruence|auto].
  - auto.
Qed.

Lemma in_strip (c x : codepoint) (s : str) :
  x <> c -> In x s -> In x (strip c s).
Proof.
  intros Hx Hin. unfold strip, rstrip.
  apply in_rev. rewrite rev_involutive.
  apply in_lstrip; [exact Hx|]. apply -> in_rev.
  now apply in_lstrip.
Qed.

(** *** [iri_to_uri] *)

Lemma utf8_encode_app (a b : str) :
  utf8_encode (a ++ b) =
  match utf8_encode a, utf8_encode b with
  | Some x, Some y => Some (x ++ y)
  | _, _ => None
  end.
Proof.
  induction a as [|c a IH]; simpl.
  - now destruct (utf8_encode b).
  - rewrite IH. destruct (utf8_encode_char c) as [bs|]; [|reflexivity].
    destruct (utf8_encode a) as [x|]; [|reflexivity].
    destruct (utf8_encode b) as [y|]; [|reflexivity].
    now rewrite app_assoc.
Qed.

Lemma iri_to_uri_app (a b : str) :
  iri_to_uri (a ++ b) =
  match iri_to_uri a, iri_to_uri b with
  | Some x, Some y => Some (x ++ y)
  | _, _ => None
  end.
Proof.
  unfold iri_to_uri, quote. rewrite utf8_encode_app.
  destruct (utf8_encode a) as [x|]; [|reflexivity].
  destruct (utf8_encode b) as [y|]; [|reflexivity].
  unfold quote_from_bytes. now rewrite flat_map_app.
Qed.

Lemma utf8_encode_None (s : str) :
  utf8_encode s = None <-> exists c, In c s /\ utf8_encode_char c = None.
Proof.
  induction s as [|c s IH]; simpl.
  - split; [discriminate|intros (c & [] & _)].
  - destruct (utf8_encode_char c) as [bs|] eqn:Ec.
    + destruct (utf8_encode s) as [x|].
      * split; [discriminate|].
        intros (d & [<-|Hd] & Hn); [congruence|].
        assert (Some x = None) by (apply IH; eauto). discriminate.
      * split; [|reflexivity]. intros _.
        destruct (proj1 IH eq_refl) as (d & Hd & Hn). eauto.
    + split; [|reflexivity]. intros _. exists c. auto.
Qed.

Lemma iri_to_uri_None (s : str) :
  iri_to_uri s = None <-> exists c, In c s /\ utf8_encode_char c = None.
Proof.
  rewrite <- utf8_encode_None. unfold iri_to_uri, quote.
  destruct (utf8_encode s); split; congruence.
Qed.

Lemma always_safe_ascii (c : N) : always_safe c = true -> c < 128.
Proof.
  unfold always_safe, is_alpha, is_digit. intros H.
  repeat (apply orb_true_iff in H as [H|H]);
    repeat (apply andb_true_iff in H as [? H]);
    repeat match goal with
           | H : (_ <=? _) = true |- _ => apply N.leb_le in H
           | H : (_ =? _) = true |- _ => apply N.eqb_eq in H
           end; lia.
Qed.

Lemma iri_safe_ascii (c : N) : mem_char c iri_safe = true -> c < 128.
Proof.
  unfold mem_char. intros H. apply existsb_exists in H as (x & Hx & E).
  apply N.eqb_eq in E. subst x.
  vm_compute in Hx.
  repeat (destruct Hx as [<-|Hx]; [reflexivity|]). destruct Hx.
Qed.

Lemma iri_to_uri_char_safe (c : N) :
  always_safe c || mem_char c iri_safe = true -> iri_to_uri [c] = Some [c].
Proof.
  intros H.
  assert (c < 128).
  { apply orb_true_iff in H as [H|H];
      [now apply always_safe_ascii|now apply iri_safe_ascii]. }
  unfold iri_to_uri, quote. simpl. unfold utf8_encode_char.
  destruct (N.ltb_spec c 128); [|lia].
  simpl. unfold quoter. now rewrite H.
Qed.

Lemma iri_to_uri_safe (s : str) : uri_safe s = true -> iri_to_uri s = Some s.
Proof.
  induction s as [|c s IH]; [reflexivity|]. simpl.
  intros H. apply andb_true_iff in H as [Hc Hs].
  change (c :: s) with ([c] ++ s). rewrite iri_to_uri_app.
  now rewrite (iri_to_uri_char_safe c Hc), (IH Hs).
Qed.

Lemma iri_to_uri_keeps (c : N) (s u : str) :
  always_safe c || mem_char c iri_safe = true ->
  In c s -> iri_to_uri s = Some u -> In c u.
Proof.
  intros Hc Hin Hu. apply in_split in Hin as (a & b & ->).
  rewrite iri_to_uri_app in Hu. change (c :: b) with ([c] ++ b) in Hu.
  rewrite iri_to_uri_app, (iri_to_uri_char_safe c Hc) in Hu.
  destruct (iri_to_uri a) as [x|]; [|discriminate].
  destruct (iri_to_uri b) as [y|]; [|discriminate].
  injection Hu as <-. apply in_or_app. right. now left.
Qed.

(** *** UTF-8 *)

Ltac nlia := zify; Z.to_euclidean_division_equations; lia.

Ltac decide_tests :=
  repeat match goal with
         | |- context [?a <? ?b] => destruct (N.ltb_spec a b); try nlia
         | |- context [?a <=? ?b] => destruct (N.leb_spec a b); try nlia
         end.

Lemma some_eq {A} (a b : A) : Some a = Some b -> a = b.
Proof. congruence. Qed.

Ltac got_bytes := let E := fresh in intros E; apply some_eq in E; subst.

Ltac each_byte := repeat (apply Forall_cons; [nlia|]); apply Forall_nil.

Lemma hexval_hexdigit (n : N) : n < 16 -> hexval (hexdigit n) = Some n.
Proof.
  intros H. unfold hexval, hexdigit.
  destruct (N.ltb_spec n 10).
  - decide_tests. cbn [andb]. f_equal. lia.
  - decide_tests; cbn [andb]; f_equal; lia.
Qed.

Lemma utf8_encode_char_bytes (c : N) (bs : list N) :
  utf8_encode_char c = Some bs -> Forall (fun b => b < 256) bs.
Proof.
  unfold utf8_encode_char.
  destruct (N.ltb_spec c 128); [got_bytes; each_byte|].
  destruct (N.ltb_spec c 2048); [got_bytes; each_byte|].
  destruct (N.ltb_spec c 65536).
  { destruct ((55296 <=? c) && (c <=? 57343)); [discriminate|].
    got_bytes; each_byte. }
  destruct (N.ltb_spec c 1114112); [|discriminate].
  got_bytes; each_byte.
Qed.

Lemma utf8_decode_encode_char (c : N) (bs rest : list N) :
  utf8_encode_char c = Some bs ->
  utf8_decode (bs ++ rest) = option_map (cons c) (utf8_decode rest).
Proof.
  unfold utf8_encode_char.
  destruct (N.ltb_spec c 128) as [H1|H1].
  { got_bytes. cbn [app utf8_decode].
    destruct (N.ltb_spec c 128); [reflexivity|lia]. }
  destruct (N.ltb_spec c 2048) as [H2|H2].
  { got_bytes. cbn [app utf8_decode]. unfold continuation.
    replace ((192 + c / 64 - 192) * 64 + (128 + c mod 64 - 128)) with c by nlia.
    decide_tests. reflexivity. }
  destruct (N.ltb_spec c 65536) as [H3|H3].
  { destruct ((55296 <=? c) && (c <=? 57343)) eqn:Hs; [discriminate|].
    got_bytes. cbn [app utf8_decode]. unfold continuation, surrogate.
    replace ((224 + c / 4096 - 224) * 4096 + (128 + (c / 64) mod 64 - 128) * 64
             + (128 + c mod 64 - 128)) with c by nlia.
    rewrite Hs.
    decide_tests. reflexivity. }
  destruct (N.ltb_spec c 1114112) as [H4|H4]; [|discriminate].
  got_bytes. cbn [app utf8_decode]. unfold continuation.
  replace ((240 + c / 262144 - 240) * 262144
           + (128 + (c / 4096) mod 64 - 128) * 4096
           + (128 + (c / 64) mod 64 - 128) * 64
           + (128 + c mod 64 - 128)) with c by nlia.
  decide_tests. reflexivity.
Qed.

Lemma utf8_decode_encode (s : list N) (bs : list N) :
  utf8_encode s = Some bs -> utf8_decode bs = Some s.
Proof.
  revert bs. induction s as [|c s IH]; intros bs; simpl.
  - now intros [= <-].
  - destruct (utf8_encode_char c) as [cb|] eqn:Ec; [|discriminate].
    destruct (utf8_encode s) as [rest|]; [|discriminate].
    intros [= <-]. rewrite (@utf8_decode_encode_char c cb rest Ec).
    now rewrite (IH rest eq_refl).
Qed.

(** *** Percent escapes *)

Lemma has_escape_cons (b : N) (r : list N) :
  b <> PERCENT -> has_escape (b :: r) = has_escape r.
Proof.
  intros Hb. cbn [has_escape]. unfold escape_at.
  destruct r as [|h [|l r]]; try reflexivity.
  apply N.eqb_neq in Hb. now rewrite Hb.
Qed.

Lemma has_escape_app (a r : list N) :
  Forall (fun b => b <> PERCENT) a -> has_escape (a ++ r) = has_escape r.
Proof.
  induction 1 as [|b a Hb _ IH]; [reflexivity|].
  rewrite <- app_comm_cons, (@has_escape_cons b (a ++ r) Hb). exact IH.
Qed.

Lemma hexval_ascii (h : N) : hexval h <> None -> h < 128 /\ h <> PERCENT.
Proof.
  unfold hexval, PERCENT.
  destruct (N.leb_spec 48 h), (N.leb_spec h 57), (N.leb_spec 65 h),
    (N.leb_spec h 70), (N.leb_spec 97 h), (N.leb_spec h 102);
    cbn [andb]; intros Hv; try (split; lia); congruence.
Qed.

Lemma utf8_encode_char_high (c : N) (bs : list N) :
  utf8_encode_char c = Some bs -> 128 <= c ->
  Forall (fun b => 128 <= b) bs.
Proof.
  unfold utf8_encode_char. intros E Hc.
  destruct (N.ltb_spec c 128); [lia|].
  destruct (N.ltb_spec c 2048);
    [apply some_eq in E; subst;
     each_byte|].
  destruct (N.ltb_spec c 65536).
  { destruct ((55296 <=? c) && (c <=? 57343)); [discriminate|].
    apply some_eq in E; subst.
    each_byte. }
  destruct (N.ltb_spec c 1114112); [|discriminate].
  apply some_eq in E; subst.
  each_byte.
Qed.

Lemma utf8_encode_char_low (c : N) :
  c < 128 -> utf8_encode_char c = Some [c].
Proof.
  intros H. unfold utf8_encode_char.
  destruct (N.ltb_spec c 128); [reflexivity|lia].
Qed.

Lemma utf8_encode_char_percent (c : N) (bs : list N) :
  utf8_encode_char c = Some bs -> c <> PERCENT ->
  Forall (fun b => b <> PERCENT) bs.
Proof.
  intros E Hc. destruct (N.lt_ge_cases c 128) as [Hlow|Hhigh].
  - rewrite (@utf8_encode_char_low c Hlow) in E. apply some_eq in E. subst.
    now repeat constructor.
  - eapply Forall_impl; [|exact (@utf8_encode_char_high c bs E Hhigh)].
    unfold PERCENT. intros b Hb. cbv beta in Hb. lia.
Qed.

(** An ASCII byte at the head of an encoding is a character of the
    string. *)
Lemma utf8_encode_head (s : list N) (h : N) (rest : list N) :
  utf8_encode s = Some (h :: rest) -> h < 128 ->
  exists s', s = h :: s' /\ utf8_encode s' = Some rest.
Proof.
  destruct s as [|c s]; [discriminate|]. simpl.
  destruct (utf8_encode_char c) as [cb|] eqn:Ec; [|discriminate].
  destruct (utf8_encode s) as [sb|] eqn:Es; [|discriminate].
  intros E Hh. apply some_eq in E.
  destruct (N.lt_ge_cases c 128) as [Hlow|Hhigh].
  - rewrite (@utf8_encode_char_low c Hlow) in Ec. apply some_eq in Ec. subst cb.
    injection E as -> ->. now exists s.
  - pose proof (@utf8_encode_char_high c cb Ec Hhigh) as Hcb.
    destruct cb as [|b cb].
    + unfold utf8_encode_char in Ec.
      repeat match type of Ec with
             | (if ?t then _ else _) = _ => destruct t; try discriminate
             end.
    + injection E as -> _. inversion Hcb; subst. lia.
Qed.

Lemma utf8_encode_escape (s bs : list N) :
  utf8_encode s = Some bs -> has_escape s = false -> has_escape bs = false.
Proof.
  revert bs. induction s as [|c s IH]; intros bs.
  - intros E _. apply some_eq in E. now subst.
  - simpl utf8_encode.
    destruct (utf8_encode_char c) as [cb|] eqn:Ec; [|discriminate].
    destruct (utf8_encode s) as [sb|] eqn:Es; [|discriminate].
    intros E Hs. apply some_eq in E. subst bs.
    destruct (N.eq_dec c PERCENT) as [->|Hc].
    + rewrite (@utf8_encode_char_low PERCENT) in Ec by (unfold PERCENT; lia).
      apply some_eq in Ec. subst cb.
      cbn [has_escape app] in *. apply orb_false_iff in Hs as [Hat Hs].
      rewrite (IH sb eq_refl Hs), orb_false_r.
      destruct sb as [|h [|l sb]]; try reflexivity.
      cbn [escape_at]. rewrite N.eqb_refl. cbn [andb].
      destruct (hexval h) eqn:Hh; [|reflexivity].
      destruct (hexval l) eqn:Hl; [|reflexivity].
      exfalso.
      destruct (@hexval_ascii h) as [Hh' _]; [congruence|].
      destruct (@hexval_ascii l) as [Hl' _]; [congruence|].
      destruct (@utf8_encode_head s h (l :: sb) Es Hh') as (s' & -> & Es').
      destruct (@utf8_encode_head s' l sb Es' Hl') as (s'' & -> & _).
      cbn [escape_at] in Hat.
      rewrite N.eqb_refl, Hh, Hl in Hat. discriminate.
    + rewrite (@has_escape_cons c s Hc) in Hs.
      rewrite (@has_escape_app cb sb (@utf8_encode_char_percent c cb Ec Hc)).
      exact (IH sb eq_refl Hs).
Qed.

Lemma quoter_percent : quoter iri_safe PERCENT = [PERCENT].
Proof. reflexivity. Qed.

(** Two hexadecimal digits at the head of a quoted string are bytes of
    the string quoted. *)
Lemma quoted_head (bs : list N) (h l : N) (rest : list N) :
  quote_from_bytes bs iri_safe = h :: l :: rest ->
  hexval h <> None -> hexval l <> None ->
  exists bs', bs = h :: l :: bs'.
Proof.
  unfold quote_from_bytes. intros E Hh Hl.
  destruct (@hexval_ascii h Hh) as [_ Hh'].
  destruct (@hexval_ascii l Hl) as [_ Hl'].
  destruct bs as [|b1 bs]; [discriminate|].
  cbn [flat_map] in E. unfold quoter at 1 in E.
  destruct (always_safe b1 || mem_char b1 iri_safe);
    [|injection E as E _; congruence].
  injection E as -> E.
  destruct bs as [|b2 bs]; [discriminate|].
  cbn [flat_map] in E. unfold quoter at 1 in E.
  destruct (always_safe b2 || mem_char b2 iri_safe);
    [|injection E as E _; congruence].
  injection E as -> _. now exists bs.
Qed.

Lemma percent_decode_quote (bs : list N) :
  Forall (fun b => b < 256) bs -> has_escape bs = false ->
  percent_decode (quote_from_bytes bs iri_safe) = bs.
Proof.
  unfold quote_from_bytes.
  induction 1 as [|b bs Hb Hbs IH]; [reflexivity|].
  intros Hesc. cbn [flat_map].
  destruct (N.eq_dec b PERCENT) as [->|Hp].
  - rewrite quoter_percent. cbn [app percent_decode].
    rewrite N.eqb_refl.
    cbn [has_escape] in Hesc. apply orb_false_iff in Hesc as [Hat Hesc].
    rewrite (IH Hesc).
    destruct (flat_map (quoter iri_safe) bs) as [|h [|l rest]] eqn:O;
      try reflexivity.
    destruct (hexval h) eqn:Hh; [|reflexivity].
    destruct (hexval l) eqn:Hl; [|reflexivity].
    exfalso.
    destruct (@quoted_head bs h l rest O) as [bs' ->]; try congruence.
    cbn [escape_at] in Hat. rewrite N.eqb_refl, Hh, Hl in Hat.
    discriminate.
  - rewrite (@has_escape_cons b bs Hp) in Hesc.
    unfold quoter at 1.
    destruct (always_safe b || mem_char b iri_safe).
    + cbn [app percent_decode]. apply N.eqb_neq in Hp. rewrite Hp.
      now rewrite (IH Hesc).
    + cbn [app percent_decode]. rewrite N.eqb_refl.
      rewrite (@hexval_hexdigit (b / 16)), (@hexval_hexdigit (b mod 16))
        by nlia.
      rewrite (IH Hesc). f_equal. nlia.
Qed.

Lemma quote_ascii (bs : list N) :
  Forall (fun b => b < 256) bs ->
  forall c, In c (quote_from_bytes bs iri_safe) -> c < 128.
Proof.
  unfold quote_from_bytes. intros Hbs c Hc.
  apply in_flat_map in Hc as (b & Hb & Hc).
  rewrite Forall_forall in Hbs. specialize (Hbs b Hb).
  unfold quoter in Hc.
  destruct (always_safe b || mem_char b iri_safe) eqn:S.
  - destruct Hc as [<-|[]].
    apply orb_true_iff in S as [S|S];
      [exact (@always_safe_ascii b S)|exact (@iri_safe_ascii b S)].
  - unfold hexdigit, PERCENT in Hc.
    destruct Hc as [<-|[<-|[<-|[]]]]; [lia| |];
      match goal with
      | |- context [?a <? ?b] => destruct (N.ltb_spec a b)
      end; nlia.
Qed.

Lemma utf8_encode_bytes (s bs : list N) :
  utf8_encode s = Some bs -> Forall (fun b => b < 256) bs.
Proof.
  revert bs. induction s as [|c s IH]; intros bs; simpl.
  - intros E. apply some_eq in E. subst. constructor.
  - destruct (utf8_encode_char c) as [cb|] eqn:Ec; [|discriminate].
    destruct (utf8_encode s) as [sb|]; [|discriminate].
    intros E. apply some_eq in E. subst.
    apply Forall_app.
    split; [exact (@utf8_encode_char_bytes c cb Ec)|now apply IH].
Qed.

Lemma iri_to_uri_ascii (s uri : list N) :
  iri_to_uri s = Some uri -> ascii_only uri.
Proof.
  unfold iri_to_uri, quote.
  destruct (utf8_encode s) as [bs|] eqn:E; [|discriminate].
  intros U. apply some_eq in U. subst uri.
  exact (@quote_ascii bs (@utf8_encode_bytes s bs E)).
Qed.

Lemma uri_decode_iri_to_uri (s uri : list N) :
  iri_to_uri s = Some uri -> has_escape s = false -> uri_decode uri = Some s.
Proof.
  unfold iri_to_uri, quote, uri_decode.
  destruct (utf8_encode s) as [bs|] eqn:E; [|discriminate].
  intros U Hs. apply some_eq in U. subst uri.
  rewrite percent_decode_quote.
  - exact (@utf8_decode_encode s bs E).
  - exact (@utf8_encode_bytes s bs E).
  - exact (@utf8_encode_escape s bs E Hs).
Qed.

Lemma high_byte_unsafe (b : N) :
  128 <= b -> always_safe b || mem_char b iri_safe = false.
Proof.
  intros H. destruct (always_safe b || mem_char b iri_safe) eqn:E;
    [|reflexivity].
  apply orb_true_iff in E as [E|E];
    [apply always_safe_ascii in E|apply iri_safe_ascii in E]; lia.
Qed.

Lemma iri_to_uri_char_unsafe (c : N) (x : str) :
  always_safe c || mem_char c iri_safe = false ->
  iri_to_uri [c] = Some x -> exists x', x = PERCENT :: x'.
Proof.
  intros Hc. unfold iri_to_uri, quote. cbn [utf8_encode].
  destruct (utf8_encode_char c) as [bs|] eqn:Ec; [|discriminate].
  intros E. apply some_eq in E. subst x. rewrite app_nil_r.
  assert (Hhead : exists b rest,
             bs = b :: rest
             /\ always_safe b || mem_char b iri_safe = false).
  { unfold utf8_encode_char in Ec.
    repeat match type of Ec with
           | context [if ?t then _ else _] => destruct t eqn:?
           end; try discriminate; apply some_eq in Ec; subst bs;
      eexists _, _; (split; [reflexivity|]);
      try exact Hc; apply high_byte_unsafe; nlia. }
  destruct Hhead as (b & rest & -> & Hb).
  unfold quote_from_bytes. cbn [flat_map]. unfold quoter at 1.
  rewrite Hb. cbn [app]. eauto.
Qed.

(** Only the strings made of safe characters are left as they are. *)
Lemma iri_to_uri_fixed (s : str) : iri_to_uri s = Some s -> uri_safe s = true.
Proof.
  induction s as [|c s IH]; [reflexivity|].
  change (c :: s) with ([c] ++ s) at 1. rewrite iri_to_uri_app.
  destruct (iri_to_uri [c]) as [x|] eqn:Ex; [|discriminate].
  destruct (iri_to_uri s) as [y|] eqn:Ey; [|discriminate].
  intros E. apply some_eq in E.
  destruct (always_safe c || mem_char c iri_safe) eqn:Hc.
  - rewrite (iri_to_uri_char_safe c Hc) in Ex. apply some_eq in Ex.
    subst x. injection E as ->. cbn [uri_safe forallb]. rewrite Hc.
    now apply IH.
  - destruct (iri_to_uri_char_unsafe c Hc Ex) as [x' ->].
    injection E as <- _. discriminate.
Qed.

Section Properties.

Variable W : World.

(* ------------------------------------------------------------------ *)
(** ** The pipeline in two steps *)

Ltac gate_step :=
  cbn [settings trace fst snd negb andb PYTHON_MEDIA CAS_SERVER_URL];
  match goal with
  | H : ?x = _ |- context [if ?x then _ else _] => rewrite H
  | |- context [if negb (has_perm ?w ?r ?v) then _ else _] =>
      destruct (has_perm w r v) eqn:?
  | |- context [if negb (is_authenticated ?u) then _ else _] =>
      destruct (is_authenticated u) eqn:?
  | |- context [if contains ?a ?b then _ else _] =>
      destruct (contains a b) eqn:?
  | |- context [if PYTHON_MEDIA ?s then _ else _] =>
      destruct (PYTHON_MEDIA s) eqn:?
  | |- context [if endswith_char ?a ?b then _ else _] =>
      destruct (endswith_char a b) eqn:?
  | |- context [match serve_raises ?w ?a ?b with _ => _ end] =>
      destruct (serve_raises w a b) eqn:?
  end.

Ltac gate_cases :=
  unfold answer, bind, call, ret, raise, get_settings, set_CAS_SERVER_URL,
    cas_endpoint, carries_ticket_marker, located, storage_file, served,
    internal_path, internal_cas, external_cas;
  repeat gate_step;
  cbn [settings trace fst snd negb andb PYTHON_MEDIA CAS_SERVER_URL];
  repeat rewrite <- app_assoc; cbn [app];
  try reflexivity.

Lemma serve_docs_settle_answer (request : Request) (project : Project)
    (subproject : option Project) (lang_slug version_slug : option str)
    (filename : str) (st : State) :
  serve_docs W request project subproject lang_slug version_slug filename st =
  match settle W request project subproject lang_slug version_slug filename with
  | RootRedirect target => (inr (HttpResponseRedirect target), st)
  | Failed e => (inl e, st)
  | Located p v f => answer W request p v f st
  end.
Proof.
  unfold serve_docs, settle.
  destruct (is_none lang_slug && is_none version_slug && str_eqb filename []
            && negb (single_version (or_else subproject project))).
  { reflexivity. }
  destruct ((is_none lang_slug || is_none version_slug)
            && negb (single_version (or_else subproject project))).
  { reflexivity. }
  destruct (match single_version (or_else subproject project), lang_slug,
                  version_slug with
            | true, Some l, Some v =>
                if truthy l && truthy v
                then (None, None, os_path_join l [v; filename])
                else (lang_slug, version_slug, filename)
            | _, _, _ => (lang_slug, version_slug, filename)
            end) as [[l v] f].
  destruct (negb (truthy_opt l)
            || opt_str_eqb l (language (or_else subproject project))).
  { unfold bind at 1, ret at 1. gate_cases. }
  unfold get_object_or_404.
  destruct (filter (fun t => opt_str_eqb l (language t))
              (translations W (or_else subproject project)))
    as [|t [|t' ts]].
  - reflexivity.
  - unfold bind at 1, ret at 1. gate_cases.
  - reflexivity.
Qed.

(* ------------------------------------------------------------------ *)
(** ** Slug resolver *)

(** C5.  Subproject resolution, for a parent project and a non-empty
    subproject slug: (a) the first relationship of the parent whose
    alias is the slug gives the subproject; (b) when no alias matches,
    the first relationship of the parent whose child has that slug
    gives it; (c) when neither matches the request ends in the
    not-found 'Invalid subproject slug'; (d) when an alias of the
    parent equals the slug of another, plain child of the same parent,
    an alias match is taken, and it is the aliased child when the
    alias names one child only. *)
Theorem subproject_alias_first_then_child_slug :
  forall (K : Type)
         (view : Request -> Project -> option Project -> K -> M Response)
         (request : Request) (project : Project) (subproject_slug : str)
         (kwargs : K),
    subproject_slug <> [] ->
    let rels := relationships W in
    let outcome :=
      map_subproject_slug W view request project None (Some subproject_slug)
        kwargs in
    let served c := view request project (Some c) kwargs in
    (forall rel, first_match (alias_is project subproject_slug) rels rel ->
                 outcome = served (child rel))
    /\ ((forall r, In r rels -> alias_is project subproject_slug r = false) ->
        forall rel,
          first_match (child_slug_is project subproject_slug) rels rel ->
          outcome = served (child rel))
    /\ ((forall r, In r rels -> alias_is project subproject_slug r = false) ->
        (forall r, In r rels ->
                   child_slug_is project subproject_slug r = false) ->
        outcome = raise (Http404 (lit "Invalid subproject slug")))
    /\ (forall ra rb,
          In ra rels -> alias_is project subproject_slug ra = true ->
          In rb rels -> child_slug_is project subproject_slug rb = true ->
          (exists rel, In rel rels
                       /\ alias_is project subproject_slug rel = true
                       /\ outcome = served (child rel))
          /\ ((forall r, In r rels ->
                         alias_is project subproject_slug r = true ->
                         child r = child ra) ->
              outcome = served (child ra))).
Proof.
  intros K view request project s kwargs Hs rels outcome served.
  assert (Hout : outcome =
    match first (filter (alias_is project s) rels) with
    | Some rel => served (child rel)
    | None =>
        match first (filter (child_slug_is project s) rels) with
        | Some rel => served (child rel)
        | None => raise (Http404 (lit "Invalid subproject slug"))
        end
    end).
  { subst outcome served rels. unfold map_subproject_slug.
    destruct s as [|c s]; [contradiction|]. reflexivity. }
  split; [|split; [|split]].
  - intros rel Hrel. apply first_match_filter in Hrel.
    now rewrite Hout, Hrel.
  - intros Hno rel Hrel. apply first_match_filter in Hrel.
    apply first_filter_None in Hno. now rewrite Hout, Hno, Hrel.
  - intros Hno Hno'. apply first_filter_None in Hno, Hno'.
    now rewrite Hout, Hno, Hno'.
  - intros ra rb Hra Halias _ _.
    destruct (@first_filter_exists _ (alias_is project s) rels ra Hra Halias)
      as [rel Hrel].
    pose proof Hrel as Hm. apply first_match_filter in Hm.
    destruct Hm as (pre & post & E & Frel & _).
    assert (Hin : In rel rels).
    { rewrite E. apply in_or_app. right. now left. }
    split.
    + exists rel. repeat split; auto. now rewrite Hout, Hrel.
    + intros Huniq. rewrite Hout, Hrel. f_equal. now apply Huniq.
Qed.

(** With the project at hand and nothing left to resolve for the
    subproject, the decorated view is the function it wraps. *)
Lemma serve_docs_view_resolved (request : Request) (project : Project)
    (project_slug : option str) (subproject : option Project)
    (subproject_slug lang_slug version_slug : option str) (filename : str) :
  subproject <> None \/ truthy_opt subproject_slug = false ->
  serve_docs_view W request (Some project) project_slug subproject
    subproject_slug lang_slug version_slug filename
  = serve_docs W request project subproject lang_slug version_slug filename.
Proof.
  intros Hres. unfold serve_docs_view, decorated, map_project_slug,
    map_subproject_slug.
  destruct subproject as [sub|]; [reflexivity|].
  destruct Hres as [Hsub|Hslug]; [contradiction|].
  destruct subproject_slug as [[|c slug]|]; [reflexivity|discriminate|
                                             reflexivity].
Qed.

Lemma run_serve_docs (request : Request) (project : Project)
    (subproject : option Project) (lang_slug version_slug : option str)
    (filename : str) (s : Settings) :
  run (serve_docs W request project subproject lang_slug version_slug
         filename) s =
  match settle W request project subproject lang_slug version_slug filename with
  | RootRedirect target =>
      (inr (HttpResponseRedirect target), {| settings := s; trace := [] |})
  | Failed e => (inl e, {| settings := s; trace := [] |})
  | Located p v f => answer W request p v f {| settings := s; trace := [] |}
  end.
Proof. unfold run. apply serve_docs_settle_answer. Qed.

(** The edge-proxy response: either the path has a URI form and the
    response carries it, or the path cannot be encoded. *)
Lemma nginx_cases (request : Request) (p : Project) (path : str) (st : State) :
  (exists ct hs u,
      iri_to_uri path = Some u
      /\ _serve_docs_nginx W request p path st =
         (inr (HttpResponse (lit "Serving internal path: " ++ path) ct
                 (hs ++ [(lit "X-Accel-Redirect", u)])), st)
      /\ (hs = [] \/ exists enc, hs = [(lit "Content-Encoding", enc)]))
  \/ (iri_to_uri path = None
      /\ _serve_docs_nginx W request p path st = (inl UnicodeEncodeError, st)).
Proof.
  unfold _serve_docs_nginx.
  destruct (guess_type W path) as [ct enc].
  destruct (iri_to_uri path) as [u|]; [left|right; auto].
  eexists _, _, u. split; [reflexivity|]. split; [reflexivity|].
  destruct enc as [[|c e]|]; eauto.
Qed.

Lemma nginx_any_state (request : Request) (p : Project) (path : str)
    (st st' : State) :
  _serve_docs_nginx W request p path st' =
  (fst (_serve_docs_nginx W request p path st), st').
Proof.
  unfold _serve_docs_nginx.
  destruct (guess_type W path) as [ct enc].
  destruct (iri_to_uri path); reflexivity.
Qed.

(** The three ways the access gate and the dispatcher end. *)
Lemma answer_cases (request : Request) (p : Project) (vs : option str)
    (f : str) (st : State) :
  let version := located W p vs in
  let granted := has_perm W request version in
  let seen :=
    trace st ++ [VersionQuery p vs version; HasPerm version granted] in
  let file := storage_file W p vs f in
  let r := answer W request p vs f st in
  (granted = false /\ is_authenticated (user request) = false
   /\ r = (inr (CasLoginResponse (cas_endpoint request)
                  (build_absolute_uri request)),
           {| settings := {| PYTHON_MEDIA := PYTHON_MEDIA (settings st);
                             CAS_SERVER_URL := cas_endpoint request |};
              trace := seen ++ [CasLogin (cas_endpoint request)
                                  (build_absolute_uri request)] |}))
  \/ ((granted = true \/ is_authenticated (user request) = true)
      /\ PYTHON_MEDIA (settings st) = true
      /\ r = (served W file,
              {| settings := settings st;
                 trace := seen ++ [GetStoragePath p vs; StoragePath;
                                   Serve file (storage_root W)] |}))
  \/ ((granted = true \/ is_authenticated (user request) = true)
      /\ PYTHON_MEDIA (settings st) = false
      /\ r = (fst (_serve_docs_nginx W request p (internal_path W file) st),
              {| settings := settings st;
                 trace := seen ++ [GetStoragePath p vs; StorageUrl file] |})).
Proof.
  intros version granted seen file r. subst r. unfold answer.
  fold version. fold granted. fold seen. fold file.
  destruct granted eqn:G; destruct (is_authenticated (user request)) eqn:A;
    cbn [negb andb];
    try (left; repeat split; reflexivity);
    right; (destruct (PYTHON_MEDIA (settings st)) eqn:P;
            [left|right]; (split; [auto|]); (split; [reflexivity|]);
            try reflexivity);
    apply nginx_any_state.
Qed.

(** The two ways [serve] ends for a file. *)
Lemma served_cases (file : str) :
  (exists reason,
      serve_raises W file (storage_root W) = Some reason
      /\ served W file = inl (Http404 reason))
  \/ (serve_raises W file (storage_root W) = None
      /\ served W file = inr (ServeResponse file (storage_root W))).
Proof.
  unfold served. destruct (serve_raises W file (storage_root W)) as [reason|];
    [left; exists reason|right]; split; reflexivity.
Qed.

(* ------------------------------------------------------------------ *)
(** ** Path normaliser *)

(** C6.  For a project that is not single-version, a request without
    language slug, without version slug and with an empty file name is
    answered by a redirect to the resolver's URL for the project alone
    (no file name, language or version given, so its canonical root),
    and the query of the request's full path is handed to the resolver
    unchanged.  Nothing else happens: the state is left as it was. *)
Theorem root_request_redirects_keeping_query :
  forall (request : Request) (project : Project) (subproject : option Project)
         (st : State),
    single_version (or_else subproject project) = false ->
    serve_docs W request project subproject None None [] st =
    (inr (HttpResponseRedirect
            (resolve W (or_else subproject project) None
               (urlparse_query W (get_full_path request)))),
     st).
Proof.
  intros request project subproject st Hmulti.
  rewrite serve_docs_settle_answer. unfold settle.
  rewrite Hmulti. reflexivity.
Qed.

(** C7.  For a project that is not single-version, a request in which
    exactly one of the language and version slugs is absent, or whose
    file name is not empty while one of the two slugs is absent, ends
    in the not-found 'Invalid URL for project with versions'; the
    trace of calls is empty, so the authorization predicate has not
    been called. *)
Theorem incomplete_version_path_rejected_before_gate :
  forall (request : Request) (project : Project) (subproject : option Project)
         (lang_slug version_slug : option str) (filename : str)
         (s : Settings),
    single_version (or_else subproject project) = false ->
    (lang_slug = None /\ version_slug <> None)
    \/ (lang_slug <> None /\ version_slug = None)
    \/ (filename <> [] /\ (lang_slug = None \/ version_slug = None)) ->
    let r := run (serve_docs W request project subproject lang_slug
                    version_slug filename) s in
    r = (inl (Http404 (lit "Invalid URL for project with versions")),
         {| settings := s; trace := [] |})
    /\ forall v g, ~ In (HasPerm v g) (trace (snd r)).
Proof.
  intros request project subproject lang_slug version_slug filename s
    Hmulti Hpath r.
  assert (E : r = (inl (Http404 (lit "Invalid URL for project with versions")),
                   {| settings := s; trace := [] |})).
  { subst r. unfold run. rewrite serve_docs_settle_answer. unfold settle.
    rewrite Hmulti.
    destruct Hpath as [[-> Hv]|[[Hl ->]|[Hf [-> | ->]]]].
    - destruct version_slug; [reflexivity|contradiction].
    - destruct lang_slug; [reflexivity|contradiction].
    - destruct filename; [contradiction|].
      destruct version_slug; reflexivity.
    - destruct filename; [contradiction|].
      destruct lang_slug; reflexivity. }
  split; [exact E|]. rewrite E. intros v g [].
Qed.

(* ------------------------------------------------------------------ *)
(** ** Access gate *)

(** The access gate is reached only through [answer]: a run that called the
    permission backend is a run of the access gate on what was settled. *)
Lemma gate_reached (request : Request) (project : Project)
    (subproject : option Project) (lang_slug version_slug : option str)
    (filename : str) (s : Settings) (e : Event) :
  In e (trace (snd (run (serve_docs W request project subproject lang_slug
                           version_slug filename) s))) ->
  exists p vs f,
    settle W request project subproject lang_slug version_slug filename
    = Located p vs f
    /\ run (serve_docs W request project subproject lang_slug version_slug
              filename) s
       = answer W request p vs f {| settings := s; trace := [] |}.
Proof.
  rewrite run_serve_docs.
  destruct (settle W request project subproject lang_slug version_slug
              filename) as [t|x|p vs f]; cbn [snd trace].
  - intros [].
  - intros [].
  - intros _. now exists p, vs, f.
Qed.

(** The endpoint the view picks, in the words of the statements. *)
Lemma cas_endpoint_cases (request : Request) :
  (cas_endpoint request = lit "http://web:8000/cas/"
   /\ holds_ticket_text request)
  \/ (cas_endpoint request = lit "http://dev.readthedocs.io/cas/"
      /\ ~ holds_ticket_text request).
Proof.
  unfold cas_endpoint, carries_ticket_marker, holds_ticket_text.
  destruct (contains (lit "ticket=") (build_absolute_uri request)) eqn:C.
  - left. split; [reflexivity|]. now apply contains_spec.
  - right. split; [reflexivity|]. intros H. apply contains_spec in H.
    congruence.
Qed.

(** C4, amended.  A request that the earlier stages settle on a
    version the access gate denies to an anonymous identity is
    answered by the login challenge whose return target is the
    request's absolute URL (query string included, as
    [build_absolute_uri] gives it): the run is the lookup, the
    permission check and the login call, and no file is asked from the
    storage.  The CAS endpoint set for the challenge is the internal
    one exactly when the text [ticket=] stands somewhere in the
    absolute URL, in a parameter named [ticket] or anywhere else, and
    the external one exactly when it does not. *)
Theorem anonymous_denied_gets_login_challenge :
  forall (request : Request) (project : Project) (subproject : option Project)
         (lang_slug version_slug : option str) (filename : str)
         (s : Settings) (p : Project) (vs : option str) (f : str),
    settle W request project subproject lang_slug version_slug filename
    = Located p vs f ->
    has_perm W request (located W p vs) = false ->
    is_authenticated (user request) = false ->
    let r := run (serve_docs W request project subproject lang_slug
                    version_slug filename) s in
    exists endpoint,
      fst r = inr (CasLoginResponse endpoint (build_absolute_uri request))
      /\ CAS_SERVER_URL (settings (snd r)) = endpoint
      /\ trace (snd r)
         = [VersionQuery p vs (located W p vs);
            HasPerm (located W p vs) false;
            CasLogin endpoint (build_absolute_uri request)]
      /\ (endpoint = lit "http://web:8000/cas/" <-> holds_ticket_text request)
      /\ (endpoint = lit "http://dev.readthedocs.io/cas/"
          <-> ~ holds_ticket_text request)
      /\ files_tried (trace (snd r)) = [].
Proof.
  intros request project subproject lang_slug version_slug filename s p vs f
    Hsettled Hdenied Hanon r.
  subst r. rewrite run_serve_docs, Hsettled.
  destruct (answer_cases request p vs f {| settings := s; trace := [] |})
    as [(_ & _ & E)|[([G|A] & _ & _)|([G|A] & _ & _)]];
    try congruence.
  rewrite E, Hdenied. cbn [fst snd trace settings app CAS_SERVER_URL].
  exists (cas_endpoint request).
  split; [reflexivity|]. split; [reflexivity|]. split; [reflexivity|].
  destruct (cas_endpoint_cases request) as [[-> Hm]|[-> Hm]].
  - split; [split; [intros _; exact Hm|reflexivity]|].
    split; [split; [discriminate|intros H; contradiction]|reflexivity].
  - split; [split; [discriminate|intros H; contradiction]|].
    split; [split; [intros _; exact Hm|reflexivity]|reflexivity].
Qed.

(** When the access gate has denied the version to an authenticated identity,
    the run goes on to the storage: a file is asked for, and the
    response is not the rendered 401 page. *)
Lemma authenticated_denied_reaches_storage :
  forall (request : Request) (project : Project) (subproject : option Project)
         (lang_slug version_slug : option str) (filename : str)
         (s : Settings) (v : option Version),
    let r := run (serve_docs W request project subproject lang_slug
                    version_slug filename) s in
    In (HasPerm v false) (trace (snd r)) ->
    is_authenticated (user request) = true ->
    (exists file, files_tried (trace (snd r)) = [file])
    /\ forall template code, fst r <> inr (RenderResponse template code).
Proof.
  intros request project subproject lang_slug version_slug filename s v r
    Hdenied Hauth.
  destruct (gate_reached _ _ _ _ _ _ _ _ Hdenied) as (p & vs & f & _ & Hrun).
  subst r. rewrite Hrun in *. clear Hrun.
  destruct (answer_cases request p vs f {| settings := s; trace := [] |})
    as [(_ & A & _)|[(_ & _ & E)|(_ & _ & E)]];
    try congruence; rewrite E; cbn [fst snd trace settings app].
  - split; [eexists; reflexivity|].
    destruct (served_cases (storage_file W p vs f))
      as [(reason & _ & Es)|[_ Es]]; rewrite Es; discriminate.
  - split; [eexists; reflexivity|].
    destruct (nginx_cases request p
                (internal_path W (storage_file W p vs f))
                {| settings := s; trace := [] |})
      as [(ct & hs & u & _ & En & _)|[_ En]]; rewrite En; discriminate.
Qed.

(* ------------------------------------------------------------------ *)
(** ** Storage dispatcher *)

Lemma storage_file_directory (p : Project) (vs : option str) (f : str) :
  endswith_char f SLASH = true ->
  storage_file W p vs f
  = get_storage_path W p vs ++ SLASH :: f ++ lit "index.html"
  /\ storage_file W p vs (f ++ lit "index.html") = storage_file W p vs f.
Proof.
  intros Hf. pose proof (@last_is_nonempty _ _ Hf) as Hne.
  unfold storage_file, endswith_char in *.
  rewrite (last_is_app SLASH (get_storage_path W p vs) (b := SLASH :: f))
    by discriminate.
  rewrite (last_is_cons SLASH SLASH Hne), Hf.
  rewrite (last_is_app SLASH (get_storage_path W p vs)
             (b := SLASH :: f ++ lit "index.html")) by discriminate.
  rewrite (app_comm_cons f (lit "index.html") SLASH).
  rewrite (last_is_app SLASH (SLASH :: f) (b := lit "index.html"))
    by discriminate.
  cbn [app]. rewrite <- !app_assoc. cbn [app].
  split; reflexivity.
Qed.

(** Completing a directory name by hand does not change what the
    earlier stages settle, but for the file name. *)
Lemma settle_directory (request : Request) (project : Project)
    (subproject : option Project) (lang_slug version_slug : option str)
    (f : str) :
  endswith_char f SLASH = true ->
  settle W request project subproject lang_slug version_slug
    (f ++ lit "index.html")
  = with_filename (fun n => n ++ lit "index.html")
      (settle W request project subproject lang_slug version_slug f)
  /\ forall p vs n,
      settle W request project subproject lang_slug version_slug f
      = Located p vs n ->
      endswith_char n SLASH = true.
Proof.
  intros Hf. pose proof (@last_is_nonempty _ _ Hf) as Hne.
  destruct f as [|c f]; [contradiction|].
  unfold settle.
  replace (str_eqb ((c :: f) ++ lit "index.html") []) with false
    by reflexivity.
  replace (str_eqb (c :: f) []) with false by reflexivity.
  rewrite !andb_false_r. cbn [andb].
  destruct ((is_none lang_slug || is_none version_slug)
            && negb (single_version (or_else subproject project))).
  { split; [reflexivity|discriminate]. }
  assert (Hfold :
    forall l v,
      os_path_join l [v; (c :: f) ++ lit "index.html"]
      = os_path_join l [v; c :: f] ++ lit "index.html"
      /\ endswith_char (os_path_join l [v; c :: f]) SLASH = true).
  { intros l v.
    destruct (os_path_join_filename l v (f := c :: f) (lit "index.html"))
      as [E1 E2]; [discriminate|].
    split; [exact E1|]. unfold endswith_char in *.
    exact (eq_trans E2 Hf). }
  destruct (single_version (or_else subproject project)) eqn:Hsv.
  - destruct lang_slug as [l|], version_slug as [v|];
      try destruct (truthy l && truthy v) eqn:Ht;
      try destruct (Hfold l v) as [E1 E2]; try rewrite E1;
      repeat match goal with
        | |- context [if ?b then _ else _] => destruct b
        | |- context [match filter ?g ?l with _ => _ end] =>
            destruct (filter g l) as [|? [|? ?]]
        end;
      cbn [with_filename];
      (split; [reflexivity|]); intros q ws n [= <- <- <-];
      try assumption; try exact Hf; try discriminate.
  - destruct lang_slug as [l|], version_slug as [v|];
      repeat match goal with
        | |- context [if ?b then _ else _] => destruct b
        | |- context [match filter ?g ?l with _ => _ end] =>
            destruct (filter g l) as [|? [|? ?]]
        end;
      cbn [with_filename];
      (split; [reflexivity|]); intros q ws n [= <- <- <-];
      try exact Hf; try discriminate.
Qed.

Lemma answer_directory (request : Request) (p : Project) (vs : option str)
    (f : str) (st : State) :
  endswith_char f SLASH = true ->
  answer W request p vs (f ++ lit "index.html") st = answer W request p vs f st.
Proof.
  intros Hf. unfold answer.
  now rewrite (proj2 (storage_file_directory p vs f Hf)).
Qed.

Lemma files_tried_settled (request : Request) (project : Project)
    (subproject : option Project) (lang_slug version_slug : option str)
    (filename : str) (s : Settings) :
  let r := run (serve_docs W request project subproject lang_slug
                  version_slug filename) s in
  files_tried (trace (snd r)) = []
  \/ exists p vs f,
       settle W request project subproject lang_slug version_slug filename
       = Located p vs f
       /\ files_tried (trace (snd r)) = [storage_file W p vs f].
Proof.
  intros r. subst r. rewrite run_serve_docs.
  destruct (settle W request project subproject lang_slug version_slug
              filename) as [t|x|p vs f]; [now left|now left|].
  destruct (answer_cases request p vs f {| settings := s; trace := [] |})
    as [(_ & _ & E)|[(_ & _ & E)|(_ & _ & E)]]; rewrite E;
    cbn [snd trace app files_tried flat_map]; [now left| |];
    right; exists p, vs, f; split; reflexivity.
Qed.

(** C9.  For a request the earlier stages settle on a project, a
    version slug and a file name: (a) when the access gate lets it
    through, the run asks the storage for exactly one file, by [serve]
    in direct mode and by [storage.url] otherwise; the file is the
    storage path, ['/'], the name and [index.html] when the name is
    empty or ends in ['/'], and the storage path, ['/'] and the name,
    nothing appended, for any other name; (b) when the access gate
    answers with the login challenge no file is asked for; (c) a
    request for a file name ending in ['/'] is settled on a name
    ending in ['/'], and runs exactly as the request for that name
    with [index.html] appended: same calls, same file asked from the
    storage, same response. *)
Theorem trailing_slash_serves_index_html :
  forall (request : Request) (project : Project) (subproject : option Project)
         (lang_slug version_slug : option str) (filename : str)
         (s : Settings) (p : Project) (vs : option str) (f : str),
    settle W request project subproject lang_slug version_slug filename
    = Located p vs f ->
    let r := run (serve_docs W request project subproject lang_slug
                    version_slug filename) s in
    let granted := has_perm W request (located W p vs) in
    let base := get_storage_path W p vs ++ SLASH :: f in
    let file := if negb (truthy f) || endswith_char f SLASH
                then base ++ lit "index.html" else base in
    (granted = true \/ is_authenticated (user request) = true ->
     files_tried (trace (snd r)) = [file]
     /\ In (if PYTHON_MEDIA s then Serve file (storage_root W)
            else StorageUrl file) (trace (snd r)))
    /\ (granted = false -> is_authenticated (user request) = false ->
        files_tried (trace (snd r)) = [])
    /\ (endswith_char filename SLASH = true ->
        endswith_char f SLASH = true
        /\ run (serve_docs W request project subproject lang_slug version_slug
                  (filename ++ lit "index.html")) s = r).
Proof.
  intros request project subproject lang_slug version_slug filename s p vs f
    Hsettled r granted base file.
  assert (Hfile : storage_file W p vs f = file).
  { subst file base. unfold storage_file, endswith_char.
    rewrite (last_is_app SLASH (get_storage_path W p vs) (b := SLASH :: f))
      by discriminate.
    destruct f as [|c f']; [reflexivity|].
    now rewrite (@last_is_cons SLASH SLASH (c :: f')) by discriminate. }
  split; [|split].
  - intros Hpass. subst r. rewrite run_serve_docs, Hsettled.
    destruct (answer_cases request p vs f {| settings := s; trace := [] |})
      as [(G & A & _)|[(_ & P & E)|(_ & P & E)]].
    + fold granted in G. destruct Hpass; congruence.
    + rewrite E, Hfile. cbn [fst snd trace settings app] in *. rewrite P.
      split; [reflexivity|]. do 4 right. left. reflexivity.
    + rewrite E, Hfile. cbn [fst snd trace settings app] in *. rewrite P.
      split; [reflexivity|]. do 3 right. left. reflexivity.
  - intros G A. subst r. rewrite run_serve_docs, Hsettled.
    destruct (answer_cases request p vs f {| settings := s; trace := [] |})
      as [(_ & _ & E)|[([G'|A'] & _ & _)|([G'|A'] & _ & _)]];
      try (fold granted in G'); try congruence.
    rewrite E. reflexivity.
  - intros Hf.
    destruct (settle_directory request project subproject lang_slug
                version_slug filename Hf) as [E Hdir].
    pose proof (Hdir p vs f Hsettled) as Hfd.
    split; [exact Hfd|].
    subst r. rewrite !run_serve_docs. rewrite E, Hsettled.
    cbn [with_filename]. now apply answer_directory.
Qed.

Lemma x_accel_header (content ct : str) (hs : list (str * str)) (u : str) :
  hs = [] \/ (exists enc, hs = [(lit "Content-Encoding", enc)]) ->
  header (lit "X-Accel-Redirect")
    (HttpResponse content ct (hs ++ [(lit "X-Accel-Redirect", u)])) = Some u.
Proof. intros [->|[enc ->]]; reflexivity. Qed.

(** C10, amended.  In internal-redirect mode, a request the earlier
    stages settle on a file and the access gate lets through has the
    storage sign that file, and the path handed to the edge proxy is
    ['/proxito/'] followed by the signed URL's path, ['?'] and its
    query, after every leading and trailing ['/'] of that string has
    been taken away and nothing else; the ['?'] is always there, also
    with an empty query.  The response carries this path in its body.
    Its header [X-Accel-Redirect] is the URI form of the path: it
    starts with ['/proxito/'], contains ['?'], and is the path itself
    exactly when the stripped string is made of URI-safe characters;
    any other character is written as percent escapes.  The only
    other outcome is the encoding error of a path with a lone
    surrogate. *)
Theorem internal_redirect_header_path :
  forall (request : Request) (project : Project) (subproject : option Project)
         (lang_slug version_slug : option str) (filename : str)
         (s : Settings) (p : Project) (vs : option str) (f : str),
    PYTHON_MEDIA s = false ->
    settle W request project subproject lang_slug version_slug filename
    = Located p vs f ->
    has_perm W request (located W p vs) = true
    \/ is_authenticated (user request) = true ->
    let r := run (serve_docs W request project subproject lang_slug
                    version_slug filename) s in
    let file := storage_file W p vs f in
    let url := storage_url W file in
    let joined := urlparse_path W url ++ QMARK :: urlparse_query W url in
    let kept := strip SLASH joined in
    let path := lit "/proxito/" ++ kept in
    In (StorageUrl file) (trace (snd r))
    /\ (exists n m, joined = repeat SLASH n ++ kept ++ repeat SLASH m
                    /\ startswith kept [SLASH] = false
                    /\ endswith_char kept SLASH = false)
    /\ In QMARK kept
    /\ ((exists ct hs uri kept_uri,
           fst r = inr (HttpResponse (lit "Serving internal path: " ++ path)
                          ct hs)
           /\ header (lit "X-Accel-Redirect")
                (HttpResponse (lit "Serving internal path: " ++ path) ct hs)
              = Some uri
           /\ iri_to_uri path = Some uri
           /\ iri_to_uri kept = Some kept_uri
           /\ uri = lit "/proxito/" ++ kept_uri
           /\ In QMARK uri
           /\ (uri = path <-> uri_safe kept = true))
        \/ (fst r = inl UnicodeEncodeError
            /\ exists c, In c kept /\ utf8_encode_char c = None)).
Proof.
  intros request project subproject lang_slug version_slug filename s p vs f
    Hmode Hsettled Hpass r file url joined kept path.
  assert (Hq : In QMARK kept).
  { subst kept. apply in_strip; [discriminate|].
    subst joined. apply in_or_app. right. now left. }
  assert (Hrun : r = (fst (_serve_docs_nginx W request p path
                             {| settings := s; trace := [] |}),
                      {| settings := s;
                         trace := [VersionQuery p vs (located W p vs);
                                   HasPerm (located W p vs)
                                     (has_perm W request (located W p vs));
                                   GetStoragePath p vs; StorageUrl file] |})).
  { subst r. rewrite run_serve_docs, Hsettled.
    destruct (answer_cases request p vs f {| settings := s; trace := [] |})
      as [(G & A & _)|[(_ & P & _)|(_ & _ & E)]];
      cbn [settings] in *; [destruct Hpass; congruence|congruence|].
    exact E. }
  rewrite Hrun. cbn [fst snd trace].
  split; [do 3 right; left; reflexivity|].
  split; [|split; [exact Hq|]].
  { subst kept. destruct (strip_spec SLASH joined) as (n & m & E & H1 & H2).
    exists n, m. auto. }
  destruct (nginx_cases request p path {| settings := s; trace := [] |})
    as [(ct & hs & u & Hu & E & Hhs)|[Hu E]]; rewrite E; cbn [fst].
  - left.
    pose proof Hu as Hsplit. unfold path in Hsplit.
    rewrite iri_to_uri_app in Hsplit.
    change (iri_to_uri (lit "/proxito/")) with (Some (lit "/proxito/"))
      in Hsplit.
    destruct (iri_to_uri kept) as [ku|] eqn:Hk; [|discriminate].
    apply some_eq in Hsplit.
    exists ct, (hs ++ [(lit "X-Accel-Redirect", u)]), u, ku.
    split; [reflexivity|]. split; [now apply x_accel_header|].
    split; [exact Hu|]. split; [reflexivity|]. split; [now symmetry|].
    split.
    + apply (@iri_to_uri_keeps QMARK path u); [reflexivity| |exact Hu].
      unfold path. apply in_or_app. now right.
    + rewrite <- Hsplit. unfold path. split.
      * intros Heq. apply app_inv_head in Heq. subst ku.
        now apply iri_to_uri_fixed.
      * intros Hsafe. rewrite (iri_to_uri_safe kept Hsafe) in Hk.
        apply some_eq in Hk. now subst ku.
  - right. split; [reflexivity|].
    apply iri_to_uri_None in Hu as (c & Hc & Hn).
    unfold path in Hc. apply in_app_or in Hc as [Hc|Hc]; [|eauto].
    exfalso. vm_compute in Hc.
    repeat (destruct Hc as [<-|Hc]; [discriminate|]). destruct Hc.
Qed.

(* ------------------------------------------------------------------ *)
(** ** Version locator *)

Lemma located_None_iff (p : Project) (vs : option str) :
  located W p vs = None <-> no_version_entity W p vs.
Proof.
  unfold located, no_version_entity, filter_slug, for_project.
  destruct vs as [slug|].
  - rewrite first_filter_None. split.
    + intros H v Hv Hp [= E].
      assert (Hin : In v (filter (fun v0 => version_project v0 =? project_pk p)
                            (versions W))).
      { apply filter_In. split; [exact Hv|]. now apply N.eqb_eq. }
      specialize (H v Hin). rewrite E, str_eqb_refl in H. discriminate.
    + intros H v Hin. apply filter_In in Hin as [Hv Hp].
      apply N.eqb_eq in Hp.
      destruct (str_eqb (version_slug v) slug) eqn:E; [|reflexivity].
      apply str_eqb_eq in E. exfalso. apply (H v Hv Hp). now rewrite E.
  - split; [discriminate|reflexivity].
Qed.

(** The version slug the trace shows is the one settled. *)
Lemma version_slug_settled (request : Request) (project : Project)
    (subproject : option Project) (lang_slug version_slug : option str)
    (filename : str) (s : Settings) (p : Project) (vs : option str) :
  uses_version_slug
    (trace (snd (run (serve_docs W request project subproject lang_slug
                        version_slug filename) s))) p vs ->
  exists f,
    settle W request project subproject lang_slug version_slug filename
    = Located p vs f.
Proof.
  intros Huse.
  assert (exists e, In e (trace (snd (run (serve_docs W request project
                      subproject lang_slug version_slug filename) s))))
    as [e He].
  { destruct Huse as [[found H]|H]; eauto. }
  destruct (gate_reached _ _ _ _ _ _ _ _ He) as (q & ws & f & Hs & Hrun).
  rewrite Hrun in Huse. clear He Hrun. exists f.
  destruct (answer_cases request q ws f {| settings := s; trace := [] |})
    as [(_ & _ & E)|[(_ & _ & E)|(_ & _ & E)]];
    rewrite E in Huse; cbn [fst snd trace settings app] in Huse;
    destruct Huse as [[found Hin]|Hin];
    repeat (destruct Hin as [Hin|Hin];
            [try discriminate; injection Hin as <- <-; exact Hs|]);
    destruct Hin.
Qed.

Lemma settle_default (request : Request) (project : Project)
    (subproject : option Project) (lang_slug version_slug : option str)
    (filename : str) (p : Project) (vs : option str) (f : str) :
  settle W request project subproject lang_slug version_slug filename
  = Located p vs f ->
  single_version p = true -> vs = Some (get_default_version W p).
Proof.
  unfold settle.
  repeat match goal with
         | |- context [if ?b then _ else _] => destruct b eqn:?
         | |- context [match filter ?g ?l with _ => _ end] =>
             destruct (filter g l) as [|? [|? ?]]
         | |- context [match ?o with Some _ => _ | None => _ end] =>
             destruct o eqn:?
         end;
    try discriminate; intros [= <- <- <-]; congruence.
Qed.

Lemma settle_fold (request : Request) (project : Project)
    (subproject : option Project) (l v filename : str) :
  single_version (or_else subproject project) = true ->
  l <> [] -> v <> [] ->
  settle W request project subproject (Some l) (Some v) filename
  = settle W request project subproject None None
      (os_path_join l [v; filename]).
Proof.
  intros Hsv Hl Hv. unfold settle. rewrite Hsv.
  destruct l; [contradiction|]. destruct v; [contradiction|].
  cbn [is_none truthy andb orb negb truthy_opt]. rewrite !andb_false_r.
  reflexivity.
Qed.

Lemma settle_single_current (request : Request) (project : Project)
    (subproject : option Project) (lang_slug version_slug : option str)
    (filename : str) :
  let current := or_else subproject project in
  single_version current = true ->
  truthy_opt lang_slug = false \/ lang_slug = Some (language current)
  \/ truthy_opt version_slug = true ->
  exists f,
    settle W request project subproject lang_slug version_slug filename
    = Located current (Some (get_default_version W current)) f.
Proof.
  intros current Hsv Hcond. unfold settle. fold current. rewrite Hsv.
  rewrite !andb_false_r. cbn [negb andb].
  destruct lang_slug as [[|c l]|]; cbn [truthy_opt truthy negb orb andb];
    try (destruct version_slug; eexists; reflexivity).
  destruct version_slug as [[|c' v]|];
    cbn [truthy_opt truthy negb orb andb] in *;
    try (eexists; reflexivity);
    (destruct Hcond as [H|[H|H]]; try discriminate;
     injection H as H; cbn [opt_str_eqb]; rewrite H, str_eqb_refl;
     eexists; reflexivity).
Qed.

(** C2, amended.  For a request settled on a project and version
    slug without version entity, the locator yields an absent version
    and no answer of its own.  The first two calls of the run are the
    lookup, which finds nothing, and the access gate, consulted with
    the absent version; when the access gate grants access the storage
    path is built from the version slug and the one file of the
    request is asked from the storage; when it denies an anonymous
    identity the answer is the login challenge.  The only not-found
    the run can end in is the one of the storage dispatcher in direct
    mode: [serve] has been called for the file and has raised it. *)
Theorem absent_version_goes_through_gate :
  forall (request : Request) (project : Project) (subproject : option Project)
         (lang_slug version_slug : option str) (filename : str)
         (s : Settings) (p : Project) (vs : option str) (f : str),
    settle W request project subproject lang_slug version_slug filename
    = Located p vs f ->
    no_version_entity W p vs ->
    let r := run (serve_docs W request project subproject lang_slug
                    version_slug filename) s in
    let file := storage_file W p vs f in
    (forall reason,
        fst r = inl (Http404 reason) ->
        PYTHON_MEDIA s = true
        /\ serve_raises W file (storage_root W) = Some reason
        /\ In (Serve file (storage_root W)) (trace (snd r)))
    /\ (exists rest,
          trace (snd r)
          = VersionQuery p vs None
              :: HasPerm None (has_perm W request None) :: rest)
    /\ (has_perm W request None = true ->
        In (GetStoragePath p vs) (trace (snd r))
        /\ files_tried (trace (snd r)) = [file])
    /\ (has_perm W request None = false ->
        is_authenticated (user request) = false ->
        exists endpoint,
          fst r = inr (CasLoginResponse endpoint (build_absolute_uri request))).
Proof.
  intros request project subproject lang_slug version_slug filename s p vs f
    Hsettled Habsent r file.
  apply located_None_iff in Habsent.
  subst r. rewrite run_serve_docs, Hsettled.
  destruct (answer_cases request p vs f {| settings := s; trace := [] |})
    as [(G & A & E)|[(GA & P & E)|(GA & _ & E)]];
    rewrite Habsent in *; rewrite E; cbn [fst snd trace settings app] in *;
    (split; [|split; [eexists; reflexivity|split]]).
  - discriminate.
  - congruence.
  - eauto.
  - intros reason Hr. fold file in Hr.
    destruct (served_cases file) as [(reason' & Hs & Es)|[_ Es]];
      rewrite Es in Hr; [|discriminate].
    injection Hr as <-. repeat split; auto.
    do 4 right. left. reflexivity.
  - intros _. split; [|reflexivity]. right; right; left; reflexivity.
  - intros G A. destruct GA; congruence.
  - intros reason.
    destruct (nginx_cases request p
                (internal_path W (storage_file W p vs f))
                {| settings := s; trace := [] |})
      as [(ct & hs & u & _ & En & _)|[_ En]]; rewrite En; discriminate.
  - intros _. split; [|reflexivity]. right; right; left; reflexivity.
  - intros G A. destruct GA; congruence.
Qed.

(* ------------------------------------------------------------------ *)
(** ** Single-version projects *)

Lemma settle_single_plain (request : Request) (project : Project)
    (subproject : option Project) (lang_slug version_slug : option str)
    (filename : str) :
  let current := or_else subproject project in
  single_version current = true ->
  truthy_opt lang_slug = false ->
  settle W request project subproject lang_slug version_slug filename
  = Located current (Some (get_default_version W current)) filename.
Proof.
  intros current Hsv Hlang. unfold settle. fold current. rewrite Hsv.
  rewrite !andb_false_r.
  destruct lang_slug as [[|c l]|]; try discriminate;
    destruct version_slug as [ver|]; reflexivity.
Qed.

Lemma settle_translation (request : Request) (project : Project)
    (subproject : option Project) (l : str) (version_slug : option str)
    (filename : str) (tr : Project) :
  let current := or_else subproject project in
  l <> [] -> l <> language current ->
  (if single_version current then truthy_opt version_slug = false
   else version_slug <> None) ->
  NoDup (projects W) ->
  In tr (translations W current) -> language tr = l ->
  (forall t', In t' (translations W current) -> language t' = l -> t' = tr) ->
  settle W request project subproject (Some l) version_slug filename
  = Located tr (if single_version tr then Some (get_default_version W tr)
                else version_slug) filename.
Proof.
  intros current Hl Hlang Hver Hd Ht Htl Huniq.
  assert (Hfilter : filter (fun t0 => opt_str_eqb (Some l) (language t0))
                      (translations W current) = [tr]).
  { cbn [opt_str_eqb]. apply filter_unique.
    - unfold translations. now apply NoDup_filter.
    - exact Ht.
    - rewrite Htl. apply str_eqb_refl.
    - intros t' Ht' E. apply str_eqb_eq in E. now apply Huniq. }
  assert (Hown : opt_str_eqb (Some l) (language current) = false)
    by (cbn [opt_str_eqb]; now apply str_eqb_neq).
  unfold settle. fold current.
  destruct l as [|c l]; [contradiction|].
  destruct (single_version current).
  - destruct version_slug as [[|c' v]|]; try discriminate;
      cbn [is_none truthy truthy_opt andb orb negb];
      rewrite Hown, Hfilter; reflexivity.
  - destruct version_slug as [v|]; [|contradiction].
    cbn [is_none truthy truthy_opt andb orb negb].
    rewrite Hown, Hfilter. reflexivity.
Qed.

(** A request settled on a project and a version slug: the run starts
    with the lookup and the permission check on them, and goes on to
    the storage when the access gate lets it through. *)
Lemma settled_gate (request : Request) (project : Project)
    (subproject : option Project) (lang_slug version_slug : option str)
    (filename : str) (s : Settings) (p : Project) (vs : option str)
    (f : str) :
  settle W request project subproject lang_slug version_slug filename
  = Located p vs f ->
  let t := trace (snd (run (serve_docs W request project subproject
                              lang_slug version_slug filename) s)) in
  (exists rest,
      t = VersionQuery p vs (located W p vs)
            :: HasPerm (located W p vs) (has_perm W request (located W p vs))
            :: rest)
  /\ (has_perm W request (located W p vs) = true
      \/ is_authenticated (user request) = true ->
      In (GetStoragePath p vs) t
      /\ files_tried t = [storage_file W p vs f]).
Proof.
  intros Hs t. subst t. rewrite run_serve_docs, Hs.
  destruct (answer_cases request p vs f {| settings := s; trace := [] |})
    as [(G & A & E)|[(_ & _ & E)|(_ & _ & E)]]; rewrite E;
    cbn [fst snd trace app files_tried flat_map];
    (split; [eexists; reflexivity|]).
  - intros [H|H]; congruence.
  - intros _. split; [|reflexivity]. right; right; left; reflexivity.
  - intros _. split; [|reflexivity]. right; right; left; reflexivity.
Qed.

(** C3, amended.  (a) Whenever the project served in the end (the
    addressed project, or the translation a language slug selects) is
    single-version, the version slug of the version lookup and of the
    storage path is that project's default version, whatever the path
    says.  (b) For an addressed single-version project, when the
    language slug is absent or empty, or is the project's own
    language, or comes with a non-empty version slug, the run starts
    with the lookup of the default version of the addressed project
    and the permission check on what was found, the storage path is
    built for that version once the access gate is passed, and no
    other project or version slug is used.  (c) When the language
    slug selects a translation that is single-version, the lookup and
    the storage path are those of the translation's default version.
    (d) For an addressed single-version project, a non-empty language
    slug and a non-empty version slug are joined with the file name by
    [os.path.join] and cleared: the request runs as the one without
    slugs for the joined file name, and the file asked from the
    storage is the joined name under the storage path of the default
    version. *)
Theorem single_version_final_project_uses_default :
  forall (request : Request) (project : Project) (subproject : option Project)
         (lang_slug version_slug : option str) (filename : str)
         (s : Settings),
    let current := or_else subproject project in
    let r := run (serve_docs W request project subproject lang_slug
                    version_slug filename) s in
    let t := trace (snd r) in
    let looked_up p vs :=
      exists rest,
        t = VersionQuery p vs (located W p vs)
              :: HasPerm (located W p vs)
                   (has_perm W request (located W p vs))
              :: rest in
    let passes p vs :=
      has_perm W request (located W p vs) = true
      \/ is_authenticated (user request) = true in
    (forall p vs,
        uses_version_slug t p vs ->
        single_version p = true ->
        vs = Some (get_default_version W p))
    /\ (single_version current = true ->
        truthy_opt lang_slug = false \/ lang_slug = Some (language current)
        \/ truthy_opt version_slug = true ->
        let default := Some (get_default_version W current) in
        looked_up current default
        /\ (passes current default -> In (GetStoragePath current default) t)
        /\ forall p vs,
            uses_version_slug t p vs -> p = current /\ vs = default)
    /\ (forall l tr,
          lang_slug = Some l -> l <> [] -> l <> language current ->
          (if single_version current then truthy_opt version_slug = false
           else version_slug <> None) ->
          NoDup (projects W) ->
          In tr (translations W current) -> language tr = l ->
          (forall t', In t' (translations W current) ->
                      language t' = l -> t' = tr) ->
          single_version tr = true ->
          let default := Some (get_default_version W tr) in
          looked_up tr default
          /\ (passes tr default -> In (GetStoragePath tr default) t))
    /\ (single_version current = true ->
        forall l v,
          lang_slug = Some l -> version_slug = Some v ->
          l <> [] -> v <> [] ->
          let default := Some (get_default_version W current) in
          let joined := os_path_join l [v; filename] in
          r = run (serve_docs W request project subproject None None joined) s
          /\ looked_up current default
          /\ (passes current default ->
              files_tried t = [storage_file W current default joined])).
Proof.
  intros request project subproject lang_slug version_slug filename s
    current r t looked_up passes.
  split; [|split; [|split]].
  - intros p vs Huse Hsv.
    destruct (version_slug_settled _ _ _ _ _ _ _ Huse) as [f Hs].
    exact (settle_default _ _ _ _ _ _ Hs Hsv).
  - intros Hsv Hcond default.
    destruct (@settle_single_current request project subproject lang_slug
                version_slug filename Hsv Hcond) as [f Hs].
    fold current in Hs. fold default in Hs.
    destruct (@settled_gate request project subproject lang_slug version_slug
                filename s current default f Hs) as [Hlook Hpass].
    split; [exact Hlook|]. split; [intros Hp; now apply Hpass|].
    intros p vs Huse.
    destruct (version_slug_settled _ _ _ _ _ _ _ Huse) as [f' Hs'].
    rewrite Hs in Hs'. injection Hs' as <- <- _. split; reflexivity.
  - intros l tr -> Hl Hlang Hver Hd Ht Htl Huniq Hsv default.
    pose proof (@settle_translation request project subproject l version_slug
                  filename tr Hl Hlang Hver Hd Ht Htl Huniq) as Hs.
    rewrite Hsv in Hs. fold default in Hs.
    destruct (@settled_gate request project subproject (Some l) version_slug
                filename s tr default filename Hs) as [Hlook Hpass].
    split; [exact Hlook|]. intros Hp. now apply Hpass.
  - intros Hsv l v -> -> Hl Hv default joined.
    assert (Hs : settle W request project subproject (Some l) (Some v)
                   filename = Located current default joined).
    { rewrite (settle_fold request project subproject filename Hsv Hl Hv).
      now apply settle_single_plain. }
    split; [|split].
    + subst r. rewrite !run_serve_docs.
      now rewrite (settle_fold request project subproject filename Hsv Hl Hv).
    + exact (proj1 (@settled_gate request project subproject (Some l)
                      (Some v) filename s current default joined Hs)).
    + intros Hp.
      exact (proj2 (proj2 (@settled_gate request project subproject (Some l)
                             (Some v) filename s current default joined Hs)
                      Hp)).
Qed.

(* ------------------------------------------------------------------ *)
(** ** The header of the edge-proxy response *)

(** C8, amended.  The edge-proxy response exists for every path that
    can be encoded, that is, without lone surrogate.  Its header
    [X-Accel-Redirect] is the URI form of the path and holds ASCII
    characters only, whatever the characters of the path.  Reading
    the header back (percent escapes to bytes, bytes as UTF-8) gives
    the path again whenever the path holds no percent escape of its
    own; an escape already in the path is passed on as it is, and
    reads back as the character it stands for. *)
Theorem internal_redirect_header_is_ascii_uri :
  forall (request : Request) (p : Project) (path : str) (st : State),
    match fst (_serve_docs_nginx W request p path st) with
    | inr response =>
        exists uri,
          header (lit "X-Accel-Redirect") response = Some uri
          /\ iri_to_uri path = Some uri
          /\ ascii_only uri
          /\ (has_escape path = false -> uri_decode uri = Some path)
    | inl e =>
        e = UnicodeEncodeError
        /\ exists c, In c path /\ utf8_encode_char c = None
    end.
Proof.
  intros request p path st.
  destruct (nginx_cases request p path st)
    as [(ct & hs & u & Hu & E & Hhs)|[Hu E]]; rewrite E; cbn [fst].
  - exists u. repeat split.
    + now apply x_accel_header.
    + exact Hu.
    + exact (@iri_to_uri_ascii path u Hu).
    + exact (@uri_decode_iri_to_uri path u Hu).
  - split; [reflexivity|]. now apply iri_to_uri_None.
Qed.

End Properties.

(* ================================================================== *)
(** * The statements at work on the small installation *)
(* ================================================================== *)

Lemma subproject_alias_first_then_child_slug_witness :
  lit "docs" <> []
  /\ forall (view : Request -> Project -> option Project -> unit -> M Response)
            (request : Request),
      map_subproject_slug (Demo.world Demo.allow_all) view request Demo.acme
        None (Some (lit "docs")) tt
      = view request Demo.acme (Some Demo.guide) tt.
Proof.
  split; [discriminate|].
  intros view request.
  assert (Hs : lit "docs" <> []) by discriminate.
  destruct (subproject_alias_first_then_child_slug (Demo.world Demo.allow_all)
              view request Demo.acme tt Hs) as (_ & _ & _ & Hwins).
  apply (Hwins Demo.rel_guide Demo.rel_docs).
  - right; left; reflexivity.
  - reflexivity.
  - left; reflexivity.
  - reflexivity.
  - intros r [<-|[<-|[]]]; [discriminate|reflexivity].
Defined.

Lemma root_request_redirects_keeping_query_witness :
  single_version (or_else None Demo.acme) = false
  /\ run (serve_docs (Demo.world Demo.allow_all)
            (Demo.request Demo.anonymous (lit "/") (lit "highlight=x"))
            Demo.acme None None None []) Demo.production
     = (inr (HttpResponseRedirect
               (lit "http://acme.readthedocs.io/en/latest/?highlight=x")),
        {| settings := Demo.production; trace := [] |}).
Proof.
  split; [reflexivity|].
  exact (root_request_redirects_keeping_query (Demo.world Demo.allow_all)
           (Demo.request Demo.anonymous (lit "/") (lit "highlight=x"))
           Demo.acme None
           {| settings := Demo.production; trace := [] |} eq_refl).
Defined.

Lemma incomplete_version_path_rejected_before_gate_witness :
  fst (run (serve_docs (Demo.world Demo.deny_all)
              (Demo.request Demo.anonymous (lit "/en/index.html") [])
              Demo.acme None (Some (lit "en")) None (lit "index.html"))
         Demo.production)
  = inl (Http404 (lit "Invalid URL for project with versions")).
Proof.
  refine (f_equal fst
            (proj1 (incomplete_version_path_rejected_before_gate
                      (Demo.world Demo.deny_all)
                      (Demo.request Demo.anonymous (lit "/en/index.html") [])
                      Demo.acme None (lang_slug := Some (lit "en"))
                      (version_slug := None) (filename := lit "index.html")
                      Demo.production eq_refl _))).
  right; left. split; [discriminate|reflexivity].
Defined.

(** C1.  A member who is signed in and whom the access gate denies the
    version: the run does not answer 401, it asks the storage for the
    file and hands it to the edge proxy. *)
Lemma authenticated_denied_is_served :
  let request :=
    Demo.request Demo.member (lit "/en/latest/index.html") [] in
  let r := run (serve_docs (Demo.world Demo.deny_all) request Demo.acme None
                  (Some (lit "en")) (Some (lit "latest")) (lit "index.html"))
             Demo.production in
  is_authenticated (user request) = true
  /\ trace (snd r)
     = [VersionQuery Demo.acme (Some (lit "latest")) (Some Demo.acme_latest);
        HasPerm (Some Demo.acme_latest) false;
        GetStoragePath Demo.acme (Some (lit "latest"));
        StorageUrl (lit "html/acme/latest/index.html")]
  /\ fst r
     = inr (HttpResponse
              (lit "Serving internal path: /proxito/html/acme/latest/index.html?Signature=abc")
              (lit "text/html")
              [(lit "X-Accel-Redirect",
                lit "/proxito/html/acme/latest/index.html?Signature=abc")])
  /\ fst r <> inr (RenderResponse (lit "401.html") 401).
Proof.
  cbv zeta. repeat split; try (vm_compute; reflexivity).
  vm_compute. discriminate.
Qed.

(** C4.  An anonymous, denied request whose only query parameters are
    [x] and [myticket]: it has no parameter named [ticket], and its
    login goes through the internal endpoint all the same. *)
Lemma login_endpoint_tests_a_substring :
  ~ login_endpoint_follows_ticket_parameter (Demo.world Demo.deny_all)
      (Demo.request Demo.anonymous (lit "/en/latest/index.html")
         (lit "x=1&myticket=2"))
      Demo.acme None (Some (lit "en")) (Some (lit "latest"))
      (lit "index.html") Demo.production.
Proof.
  intros H.
  assert (E : has_ticket_parameter
                (Demo.request Demo.anonymous (lit "/en/latest/index.html")
                   (lit "x=1&myticket=2")) = true).
  { apply H.
    - reflexivity.
    - exists (Some Demo.acme_latest). right; left; reflexivity.
    - reflexivity. }
  discriminate.
Qed.

Lemma anonymous_denied_gets_login_challenge_witness :
  let request :=
    Demo.request Demo.anonymous (lit "/en/latest/index.html")
      (lit "x=1&myticket=2") in
  let r := run (serve_docs (Demo.world Demo.deny_all) request Demo.acme None
                  (Some (lit "en")) (Some (lit "latest")) (lit "index.html"))
             Demo.production in
  has_ticket_parameter request = false
  /\ holds_ticket_text request
  /\ fst r
     = inr (CasLoginResponse (lit "http://web:8000/cas/")
              (lit "http://acme.readthedocs.io/en/latest/index.html?x=1&myticket=2"))
  /\ trace (snd r)
     = [VersionQuery Demo.acme (Some (lit "latest")) (Some Demo.acme_latest);
        HasPerm (Some Demo.acme_latest) false;
        CasLogin (lit "http://web:8000/cas/")
          (lit "http://acme.readthedocs.io/en/latest/index.html?x=1&myticket=2")].
Proof.
  cbv zeta.
  destruct (@anonymous_denied_gets_login_challenge
              (Demo.world Demo.deny_all)
              (Demo.request Demo.anonymous (lit "/en/latest/index.html")
                 (lit "x=1&myticket=2"))
              Demo.acme None (Some (lit "en")) (Some (lit "latest"))
              (lit "index.html") Demo.production
              Demo.acme (Some (lit "latest")) (lit "index.html")
              eq_refl eq_refl eq_refl)
    as (endpoint & Hr & _ & Ht & Hinternal & _).
  assert (Hm : holds_ticket_text
                 (Demo.request Demo.anonymous (lit "/en/latest/index.html")
                    (lit "x=1&myticket=2"))).
  { exists (lit "http://acme.readthedocs.io/en/latest/index.html?x=1&my"),
      (lit "2"). reflexivity. }
  apply Hinternal in Hm. subst endpoint.
  split; [reflexivity|]. split; [apply Hinternal; reflexivity|].
  split; [exact Hr|exact Ht].
Defined.

Lemma trailing_slash_serves_index_html_witness :
  let W := Demo.world Demo.allow_all in
  let request := Demo.request Demo.anonymous (lit "/en/latest/install/") [] in
  let r := run (serve_docs W request Demo.acme None (Some (lit "en"))
                  (Some (lit "latest")) (lit "install/")) Demo.development in
  files_tried (trace (snd r)) = [lit "html/acme/latest/install/index.html"]
  /\ In (Serve (lit "html/acme/latest/install/index.html") (lit "/srv/media"))
       (trace (snd r))
  /\ run (serve_docs W request Demo.acme None (Some (lit "en"))
            (Some (lit "latest")) (lit "install/index.html")) Demo.development
     = r
  /\ fst r = inr (ServeResponse (lit "html/acme/latest/install/index.html")
                    (lit "/srv/media")).
Proof.
  cbv zeta.
  destruct (@trailing_slash_serves_index_html
              (Demo.world Demo.allow_all)
              (Demo.request Demo.anonymous (lit "/en/latest/install/") [])
              Demo.acme None (Some (lit "en")) (Some (lit "latest"))
              (lit "install/") Demo.development
              Demo.acme (Some (lit "latest")) (lit "install/") eq_refl)
    as (Hserved & _ & Hsame).
  destruct (Hserved (or_introl eq_refl)) as [Hfiles Hevent].
  destruct (Hsame eq_refl) as [_ Hrun].
  split; [exact Hfiles|]. split; [exact Hevent|]. split; [exact Hrun|].
  reflexivity.
Defined.

(** C10.  A file name with the character U+00E9, signed by a storage
    that leaves it as it is: the header is not the stripped path and
    query of the signed URL, the character is written as two percent
    escapes. *)
Lemma header_is_not_the_stripped_signed_path :
  ~ header_is_the_stripped_signed_path (Demo.world Demo.allow_all)
      (Demo.request Demo.anonymous (lit "/en/latest/caf" ++ [233]) [])
      Demo.acme None (Some (lit "en")) (Some (lit "latest"))
      (lit "caf" ++ [233]) Demo.production.
Proof.
  intros H.
  destruct (H eq_refl (lit "html/acme/latest/caf" ++ [233]))
    as (response & Hr & Hh).
  - do 3 right. left. reflexivity.
  - vm_compute in Hr. apply (f_equal (fun x => match x with
                                               | inr y => Some y
                                               | inl _ => None
                                               end)) in Hr.
    apply some_eq in Hr. subst response.
    vm_compute in Hh. discriminate.
Qed.

Lemma internal_redirect_header_path_witness :
  let W := Demo.world Demo.allow_all in
  let request :=
    Demo.request Demo.anonymous (lit "/en/latest/caf" ++ [233]) [] in
  let r := run (serve_docs W request Demo.acme None (Some (lit "en"))
                  (Some (lit "latest")) (lit "caf" ++ [233]))
             Demo.production in
  In (StorageUrl (lit "html/acme/latest/caf" ++ [233])) (trace (snd r))
  /\ fst r
     = inr (HttpResponse
              (lit "Serving internal path: /proxito/html/acme/latest/caf"
                 ++ 233 :: lit "?Signature=abc")
              (lit "text/html")
              [(lit "X-Accel-Redirect",
                lit "/proxito/html/acme/latest/caf%C3%A9?Signature=abc")])
  /\ iri_to_uri (lit "/proxito/html/acme/latest/caf"
                   ++ 233 :: lit "?Signature=abc")
     = Some (lit "/proxito/html/acme/latest/caf%C3%A9?Signature=abc").
Proof.
  cbv zeta.
  destruct (@internal_redirect_header_path
              (Demo.world Demo.allow_all)
              (Demo.request Demo.anonymous (lit "/en/latest/caf" ++ [233]) [])
              Demo.acme None (Some (lit "en")) (Some (lit "latest"))
              (lit "caf" ++ [233]) Demo.production
              Demo.acme (Some (lit "latest")) (lit "caf" ++ [233])
              eq_refl eq_refl (or_introl eq_refl))
    as (Hsigned & _ & _ & [(ct & hs & uri & ku & Hr & Hh & Hu & _)|[Hr _]]).
  - split; [exact Hsigned|]. split; [reflexivity|]. exact (eq_refl).
  - split; [exact Hsigned|]. split; [reflexivity|]. exact (eq_refl).
Defined.

(** C2.  A request for a version slug that names no version, with an
    access gate that grants: no not-found, the access gate is called
    with the absent     version and the file is asked from the storage. *)
Lemma absent_version_is_not_terminal :
  ~ absent_version_is_terminal (Demo.world Demo.allow_all)
      (Demo.request Demo.anonymous (lit "/en/stable/index.html") [])
      Demo.acme None (Some (lit "en")) (Some (lit "stable"))
      (lit "index.html") Demo.production.
Proof.
  intros H.
  destruct (H Demo.acme (Some (lit "stable")) (lit "index.html") eq_refl)
    as [[reason Hr] _].
  - intros v [<-|[<-|[]]] Hp; vm_compute; discriminate.
  - vm_compute in Hr. discriminate.
Qed.

Lemma absent_version_goes_through_gate_witness :
  let W := Demo.world Demo.allow_all in
  let request :=
    Demo.request Demo.anonymous (lit "/en/stable/index.html") [] in
  let run_in s :=
    run (serve_docs W request Demo.acme None (Some (lit "en"))
           (Some (lit "stable")) (lit "index.html")) s in
  files_tried (trace (snd (run_in Demo.production)))
  = [lit "html/acme/stable/index.html"]
  /\ fst (run_in Demo.development)
     = inl (Http404 (Demo.does_not_exist (lit "html/acme/stable/index.html")
                       (lit "/srv/media")))
  /\ In (Serve (lit "html/acme/stable/index.html") (lit "/srv/media"))
       (trace (snd (run_in Demo.development))).
Proof.
  cbv zeta.
  assert (Habsent : no_version_entity (Demo.world Demo.allow_all) Demo.acme
                      (Some (lit "stable"))).
  { intros v [<-|[<-|[]]] Hp; vm_compute; discriminate. }
  split; [|split; [reflexivity|]].
  - exact (proj2 (proj1 (proj2 (proj2
             (@absent_version_goes_through_gate
                (Demo.world Demo.allow_all)
                (Demo.request Demo.anonymous (lit "/en/stable/index.html") [])
                Demo.acme None (Some (lit "en")) (Some (lit "stable"))
                (lit "index.html") Demo.production
                Demo.acme (Some (lit "stable")) (lit "index.html")
                eq_refl Habsent))) eq_refl)).
  - exact (proj2 (proj2 (proj1
             (@absent_version_goes_through_gate
                (Demo.world Demo.allow_all)
                (Demo.request Demo.anonymous (lit "/en/stable/index.html") [])
                Demo.acme None (Some (lit "en")) (Some (lit "stable"))
                (lit "index.html") Demo.development
                Demo.acme (Some (lit "stable")) (lit "index.html")
                eq_refl Habsent)
             (Demo.does_not_exist (lit "html/acme/stable/index.html")
                (lit "/srv/media")) eq_refl))).
Defined.

(** C3.  A single-version project addressed with a lone language slug
    that selects its translation, which has versions: the version
    lookup is made with no version slug at all, not with the default
    version of the addressed project. *)
Lemma single_version_translation_misses_default :
  ~ single_version_uses_own_default (Demo.world Demo.allow_all)
      (Demo.request Demo.anonymous (lit "/fr/index.html") [])
      Demo.solo None (Some (lit "fr")) None (lit "index.html")
      Demo.production.
Proof.
  intros H.
  assert (E : None = Some (get_default_version (Demo.world Demo.allow_all)
                             (or_else None Demo.solo))).
  { apply (H eq_refl Demo.solo_fr None).
    left. exists None. vm_compute. left. reflexivity. }
  discriminate.
Qed.

Lemma single_version_final_project_uses_default_witness :
  let W := Demo.world Demo.allow_all in
  let request :=
    Demo.request Demo.anonymous (lit "/en/latest/a.html") [] in
  let r := run (serve_docs W request Demo.solo None (Some (lit "en"))
                  (Some (lit "latest")) (lit "a.html")) Demo.production in
  (exists rest,
      trace (snd r)
      = VersionQuery Demo.solo (Some (lit "latest")) (Some Demo.solo_latest)
          :: HasPerm (Some Demo.solo_latest) true :: rest)
  /\ files_tried (trace (snd r)) = [lit "html/solo/latest/en/latest/a.html"]
  /\ r = run (serve_docs W request Demo.solo None None None
                (lit "en/latest/a.html")) Demo.production.
Proof.
  cbv zeta.
  destruct (@single_version_final_project_uses_default
              (Demo.world Demo.allow_all)
              (Demo.request Demo.anonymous (lit "/en/latest/a.html") [])
              Demo.solo None (Some (lit "en")) (Some (lit "latest"))
              (lit "a.html") Demo.production)
    as (_ & _ & _ & Hfold).
  destruct (Hfold eq_refl (lit "en") (lit "latest") eq_refl eq_refl)
    as (Hrun & Hlook & Hfile); try discriminate.
  split; [exact Hlook|]. split; [|exact Hrun].
  exact (Hfile (or_introl eq_refl)).
Defined.

(** C8.  Two paths, one with the character U+00E9 and one with its
    percent escape already written out, get the same header: no way of
    reading the header back gives the path of every response. *)
Lemma header_does_not_round_trip :
  ~ exists decode, header_round_trips (Demo.world Demo.allow_all) decode.
Proof.
  intros [decode H].
  pose (request := Demo.request Demo.anonymous (lit "/") []).
  pose (st := {| settings := Demo.production; trace := [] |}).
  destruct (H request Demo.acme (lit "/proxito/caf%C3%A9?") st _ eq_refl)
    as (u1 & Hh1 & _ & Hd1).
  destruct (H request Demo.acme (lit "/proxito/caf" ++ [233; 63]) st _ eq_refl)
    as (u2 & Hh2 & _ & Hd2).
  vm_compute in Hh1, Hh2.
  injection Hh1 as <-. injection Hh2 as <-.
  rewrite Hd1 in Hd2. vm_compute in Hd2. discriminate.
Qed.

Lemma internal_redirect_header_is_ascii_uri_witness :
  has_escape (lit "/proxito/caf" ++ [233; 63]) = false
  /\ uri_decode (lit "/proxito/caf%C3%A9?")
     = Some (lit "/proxito/caf" ++ [233; 63]).
Proof.
  split; [reflexivity|].
  pose proof (@internal_redirect_header_is_ascii_uri
                (Demo.world Demo.allow_all)
                (Demo.request Demo.anonymous (lit "/") [])
                Demo.acme (lit "/proxito/caf" ++ [233; 63])
                {| settings := Demo.production; trace := [] |}) as H.
  cbv beta iota in H.
  change (fst (_serve_docs_nginx (Demo.world Demo.allow_all)
                 (Demo.request Demo.anonymous (lit "/") []) Demo.acme
                 (lit "/proxito/caf" ++ [233; 63])
                 {| settings := Demo.production; trace := [] |}))
    with (@inr Exn Response
            (HttpResponse
               (lit "Serving internal path: /proxito/caf" ++ [233; 63])
               (lit "text/html")
               [(lit "X-Accel-Redirect", lit "/proxito/caf%C3%A9?")])) in H.
  destruct H as (uri & Hh & _ & _ & Hd).
  injection Hh as <-. apply Hd. reflexivity.
Defined.

(* ================================================================== *)
(** * Further properties of the views *)
(* ================================================================== *)

Lemma NoDup_map_inj {A B} (g : A -> B) (l : list A) (x y : A) :
  NoDup (map g l) -> In x l -> In y l -> g x = g y -> x = y.
Proof.
  induction l as [|a l IH]; intros Hd Hx Hy E; [destruct Hx|].
  simpl in Hd. inversion Hd as [|? ? Hnotin Hd']; subst.
  destruct Hx as [->|Hx], Hy as [->|Hy]; auto.
  - exfalso. apply Hnotin. rewrite E. now apply in_map.
  - exfalso. apply Hnotin. rewrite <- E. now apply in_map.
Qed.

Lemma NoDup_of_map {A B} (g : A -> B) (l : list A) :
  NoDup (map g l) -> NoDup l.
Proof.
  induction l as [|a l IH]; intros Hd; [constructor|].
  simpl in Hd. inversion Hd as [|? ? Hnotin Hd']; subst.
  constructor; [|now apply IH]. intros Hin. apply Hnotin. now apply in_map.
Qed.

Lemma wanted_project_slug_match (request : Request) (project_slug : option str) :
  match project_slug with
  | Some (c :: s) => c :: s
  | _ => host_project_slug request
  end = wanted_project_slug request project_slug.
Proof. now destruct project_slug as [[|c s]|]. Qed.

(** X1.  [map_project_slug], called without a project object, looks
    up the slug of the URL when one is given and is not empty, and the
    slug the host middleware put on the request otherwise.  When no
    project has that slug, the decorator raises the not-found
    ['Project does not exist.'] and the view is not called. *)
Theorem unknown_project_slug_is_not_found :
  forall (W : World) (K : Type)
         (view : Request -> Project -> K -> M Response)
         (request : Request) (project_slug : option str) (kwargs : K),
    (forall p, In p (projects W) ->
               slug p <> wanted_project_slug request project_slug) ->
    map_project_slug W view request None project_slug kwargs
    = raise (Http404 (lit "Project does not exist.")).
Proof.
  intros W K view request project_slug kwargs Hnone.
  unfold map_project_slug. rewrite wanted_project_slug_match.
  assert (E : filter (fun p => str_eqb (slug p)
                                 (wanted_project_slug request project_slug))
                (projects W) = []).
  { apply filter_nil_iff. intros p Hp.
    destruct (str_eqb (slug p) (wanted_project_slug request project_slug))
      eqn:Es; [|reflexivity].
    apply str_eqb_eq in Es. now apply Hnone in Es. }
  now rewrite E.
Qed.

(** X2.  [map_project_slug], called without a project object, slugs
    of projects being unique: the view is called with the project
    whose slug is the one looked up (the URL's, or the host's when the
    URL gives none or an empty one), the request and the remaining
    arguments being passed on as they came. *)
Theorem project_slug_selects_the_project :
  forall (W : World) (K : Type)
         (view : Request -> Project -> K -> M Response)
         (request : Request) (project_slug : option str) (kwargs : K)
         (p : Project),
    NoDup (map slug (projects W)) ->
    In p (projects W) ->
    slug p = wanted_project_slug request project_slug ->
    map_project_slug W view request None project_slug kwargs
    = view request p kwargs.
Proof.
  intros W K view request project_slug kwargs p Hd Hp Hslug.
  unfold map_project_slug. rewrite wanted_project_slug_match.
  rewrite (@filter_unique _
             (fun q => str_eqb (slug q)
                         (wanted_project_slug request project_slug))
             (projects W) p); [reflexivity| | | |].
  - exact (NoDup_of_map slug (projects W) Hd).
  - exact Hp.
  - rewrite Hslug. apply str_eqb_refl.
  - intros q Hq Eq. apply str_eqb_eq in Eq.
    apply (@NoDup_map_inj _ _ slug (projects W) q p Hd Hq Hp). congruence.
Qed.

Lemma projects_with_slug (W : World) (p : Project) (s : str) :
  NoDup (map slug (projects W)) -> In p (projects W) -> slug p = s ->
  filter (fun q => str_eqb (slug q) s) (projects W) = [p].
Proof.
  intros Hd Hp Hslug. apply filter_unique.
  - exact (NoDup_of_map slug (projects W) Hd).
  - exact Hp.
  - rewrite Hslug. apply str_eqb_refl.
  - intros q Hq Eq. apply str_eqb_eq in Eq.
    apply (@NoDup_map_inj _ _ slug (projects W) q p Hd Hq Hp). congruence.
Qed.

(** X3.  The two decorators in front of [serve_docs]: a request
    without project object whose looked-up slug is the slug of [p],
    and whose non-empty subproject slug is first matched as an alias
    by the relationship [rel] of [p], is served exactly as the request
    for the child of [rel] alone; the parent has no further part in
    what is served. *)
Theorem subproject_request_is_served_as_the_subproject :
  forall (W : World) (request : Request) (project_slug : option str)
         (subproject_slug : str) (lang_slug version_slug : option str)
         (filename : str) (p : Project) (rel : ProjectRelationship),
    NoDup (map slug (projects W)) ->
    In p (projects W) ->
    slug p = wanted_project_slug request project_slug ->
    subproject_slug <> [] ->
    first_match (alias_is p subproject_slug) (relationships W) rel ->
    serve_docs_view W request None project_slug None (Some subproject_slug)
      lang_slug version_slug filename
    = serve_docs W request (child rel) None lang_slug version_slug filename.
Proof.
  intros W request project_slug s lang_slug version_slug filename p rel
    Hd Hp Hslug Hs Hrel.
  unfold serve_docs_view, decorated, map_project_slug.
  rewrite wanted_project_slug_match.
  rewrite (@projects_with_slug W p _ Hd Hp Hslug).
  apply first_match_filter in Hrel.
  unfold map_subproject_slug. destruct s as [|c s]; [contradiction|].
  change (fun r : ProjectRelationship =>
            project_eqb (parent r) p && opt_str_eqb (alias r) (c :: s))
    with (alias_is p (c :: s)).
  rewrite Hrel. reflexivity.
Qed.

(** What the two decorators can do: call the view, or raise. *)
Lemma map_subproject_slug_cases (W : World) (K : Type)
    (view : Request -> Project -> option Project -> K -> M Response)
    (request : Request) (project : Project) (subproject : option Project)
    (subproject_slug : option str) (kwargs : K) :
  (exists sub,
      map_subproject_slug W view request project subproject subproject_slug
        kwargs = view request project sub kwargs)
  \/ map_subproject_slug W view request project subproject subproject_slug
       kwargs = raise (Http404 (lit "Invalid subproject slug")).
Proof.
  unfold map_subproject_slug.
  destruct subproject as [sub|]; [left; eexists; reflexivity|].
  destruct subproject_slug as [[|c sl]|]; try (left; eexists; reflexivity).
  repeat match goal with
         | |- context [first ?l] => destruct (first l)
         end; try (left; eexists; reflexivity).
  now right.
Qed.

Lemma map_project_slug_cases (W : World) (K : Type)
    (view : Request -> Project -> K -> M Response)
    (request : Request) (project : option Project)
    (project_slug : option str) (kwargs : K) :
  (exists p,
      map_project_slug W view request project project_slug kwargs
      = view request p kwargs)
  \/ map_project_slug W view request project project_slug kwargs
     = raise (Http404 (lit "Project does not exist."))
  \/ map_project_slug W view request project project_slug kwargs
     = raise MultipleObjectsReturned.
Proof.
  unfold map_project_slug.
  destruct project as [p|]; [left; eexists; reflexivity|].
  match goal with
  | |- context [filter ?g (projects W)] =>
      destruct (filter g (projects W)) as [|p [|p' ps]]
  end; [right; now left|left; eexists; reflexivity|right; now right].
Qed.

(** X4.  [redirect_page_with_filename] under its decorators changes
    no setting and calls none of the collaborators of the serving
    pipeline.  It answers with a redirect to the resolver's URL for a
    project, the file name and the query of the request's full path,
    or raises one of the decorators' errors: the not-found
    ['Project does not exist.'], the not-found
    ['Invalid subproject slug'], or [MultipleObjectsReturned]. *)
Theorem redirect_page_with_filename_outcomes :
  forall (W : World) (request : Request) (project : option Project)
         (project_slug : option str) (subproject : option Project)
         (subproject_slug : option str) (filename : str) (st : State),
    let r := redirect_page_with_filename_view W request project project_slug
               subproject subproject_slug filename st in
    snd r = st
    /\ match fst r with
       | inr response =>
           exists target,
             response
             = HttpResponseRedirect
                 (resolve W target (Some filename)
                    (urlparse_query W (get_full_path request)))
       | inl e =>
           e = Http404 (lit "Project does not exist.")
           \/ e = Http404 (lit "Invalid subproject slug")
           \/ e = MultipleObjectsReturned
       end.
Proof.
  intros W request project project_slug subproject subproject_slug filename
    st r. subst r.
  unfold redirect_page_with_filename_view, decorated.
  destruct (map_project_slug_cases W
              (fun request project '(subproject, subproject_slug, kwargs) =>
                 map_subproject_slug W (redirect_page_with_filename W)
                   request project subproject subproject_slug kwargs)
              request project project_slug
              (subproject, subproject_slug, filename))
    as [[p E]|[E|E]]; rewrite E.
  - destruct (map_subproject_slug_cases W (redirect_page_with_filename W)
                request p subproject subproject_slug filename)
      as [[sub E']|E']; rewrite E'.
    + split; [reflexivity|]. eexists. reflexivity.
    + split; [reflexivity|]. right; left; reflexivity.
  - split; [reflexivity|]. left; reflexivity.
  - split; [reflexivity|]. right; right; reflexivity.
Qed.

(** X5.  A language slug that is not empty, is not the language of
    the addressed project and is the language of none of its
    translations ends the request in the not-found of
    [get_object_or_404], before the version lookup, the permission
    check or the storage are called.  (The request is one that passes
    the path normaliser: with a version slug for a project with
    versions, without a non-empty one for a single-version project.) *)
Theorem unknown_translation_is_not_found :
  forall (W : World) (request : Request) (project : Project)
         (subproject : option Project) (l : str) (version_slug : option str)
         (filename : str) (s : Settings),
    let current := or_else subproject project in
    l <> [] -> l <> language current ->
    (if single_version current then truthy_opt version_slug = false
     else version_slug <> None) ->
    (forall t, In t (translations W current) -> language t <> l) ->
    run (serve_docs W request project subproject (Some l) version_slug
           filename) s
    = (inl (Http404 (lit "No Project matches the given query.")),
       {| settings := s; trace := [] |}).
Proof.
  intros W request project subproject l version_slug filename s current
    Hl Hlang Hver Hnone.
  rewrite run_serve_docs. unfold settle. fold current.
  assert (Hfilter : filter (fun t => opt_str_eqb (Some l) (language t))
                      (translations W current) = []).
  { apply filter_nil_iff. intros t Ht. cbn [opt_str_eqb].
    apply str_eqb_neq. intros E. now apply (Hnone t Ht). }
  assert (Hown : opt_str_eqb (Some l) (language current) = false)
    by (cbn [opt_str_eqb]; now apply str_eqb_neq).
  destruct l as [|c l]; [contradiction|].
  destruct (single_version current).
  - destruct version_slug as [[|c' v]|]; try discriminate;
      cbn [is_none truthy truthy_opt andb orb negb];
      rewrite Hown, Hfilter; reflexivity.
  - destruct version_slug as [v|]; [|contradiction].
    cbn [is_none truthy truthy_opt andb orb negb].
    rewrite Hown, Hfilter. reflexivity.
Qed.

(** A run that got past the normaliser and the translation lookup. *)
Lemma settled_run (W : World) (request : Request) (project : Project)
    (subproject : option Project) (lang_slug version_slug : option str)
    (filename : str) (s : Settings) (p : Project) (vs : option str)
    (f : str) :
  settle W request project subproject lang_slug version_slug filename
  = Located p vs f ->
  let r := run (serve_docs W request project subproject lang_slug
                  version_slug filename) s in
  (exists rest,
      trace (snd r)
      = VersionQuery p vs (located W p vs)
          :: HasPerm (located W p vs) (has_perm W request (located W p vs))
          :: rest)
  /\ (files_tried (trace (snd r)) = []
      \/ files_tried (trace (snd r)) = [storage_file W p vs f])
  /\ (forall target, fst r <> inr (HttpResponseRedirect target))
  /\ (forall reason,
        fst r = inl (Http404 reason) ->
        PYTHON_MEDIA s = true
        /\ serve_raises W (storage_file W p vs f) (storage_root W)
           = Some reason).
Proof.
  intros Hs r. subst r. rewrite run_serve_docs, Hs.
  destruct (answer_cases W request p vs f {| settings := s; trace := [] |})
    as [(_ & _ & E)|[(_ & P & E)|(_ & _ & E)]]; rewrite E;
    cbn [fst snd trace settings app files_tried flat_map] in *.
  - split; [eexists; reflexivity|]. split; [now left|].
    split; discriminate.
  - split; [eexists; reflexivity|]. split; [now right|].
    destruct (served_cases W (storage_file W p vs f))
      as [(reason' & Hr & Es)|[_ Es]]; rewrite Es;
      (split; [discriminate|]); intros reason Hq; [|discriminate].
    injection Hq as <-. split; assumption.
  - split; [eexists; reflexivity|]. split; [now right|].
    destruct (nginx_cases W request p
                (internal_path W (storage_file W p vs f))
                {| settings := s; trace := [] |})
      as [(ct & hs & u & _ & En & _)|[_ En]]; rewrite En;
      split; discriminate.
Qed.

(** X6.  A language slug that is not the language of the addressed
    project and is the language of exactly one of its translations
    makes that translation the project served: the version is looked
    up in the translation, the permission is checked on what was
    found there, and the only file that can be asked from the storage
    is the one under the translation's storage path.  The version slug
    is the translation's default version when the translation is
    single-version, and the one of the request otherwise. *)
Theorem translation_is_served_from_its_own_project :
  forall (W : World) (request : Request) (project : Project)
         (subproject : option Project) (l : str) (version_slug : option str)
         (filename : str) (s : Settings) (t : Project),
    let current := or_else subproject project in
    l <> [] -> l <> language current ->
    (if single_version current then truthy_opt version_slug = false
     else version_slug <> None) ->
    NoDup (projects W) ->
    In t (translations W current) -> language t = l ->
    (forall t', In t' (translations W current) -> language t' = l -> t' = t) ->
    let r := run (serve_docs W request project subproject (Some l)
                    version_slug filename) s in
    let vs := if single_version t then Some (get_default_version W t)
              else version_slug in
    (exists rest,
        trace (snd r)
        = VersionQuery t vs (located W t vs)
            :: HasPerm (located W t vs) (has_perm W request (located W t vs))
            :: rest)
    /\ (files_tried (trace (snd r)) = []
        \/ files_tried (trace (snd r)) = [storage_file W t vs filename]).
Proof.
  intros W request project subproject l version_slug filename s t current
    Hl Hlang Hver Hd Ht Htl Huniq r vs.
  assert (Hfilter : filter (fun t0 => opt_str_eqb (Some l) (language t0))
                      (translations W current) = [t]).
  { cbn [opt_str_eqb]. apply filter_unique.
    - unfold translations. now apply NoDup_filter.
    - exact Ht.
    - rewrite Htl. apply str_eqb_refl.
    - intros t' Ht' E. apply str_eqb_eq in E. now apply Huniq. }
  assert (Hown : opt_str_eqb (Some l) (language current) = false)
    by (cbn [opt_str_eqb]; now apply str_eqb_neq).
  assert (Hs : settle W request project subproject (Some l) version_slug
                 filename = Located t vs filename).
  { unfold settle. fold current.
    destruct l as [|c l]; [contradiction|].
    destruct (single_version current).
    - destruct version_slug as [[|c' v]|]; try discriminate;
        cbn [is_none truthy truthy_opt andb orb negb];
        rewrite Hown, Hfilter; reflexivity.
    - destruct version_slug as [v|]; [|contradiction].
      cbn [is_none truthy truthy_opt andb orb negb].
      rewrite Hown, Hfilter. reflexivity. }
  destruct (@settled_run W request project subproject (Some l) version_slug
              filename s t vs filename Hs) as (H1 & H2 & _).
  split; assumption.
Qed.


(** X8.  For a project with versions, a request with a version slug
    and with an empty language slug or the project's own language is
    served from the addressed project with the version slug of the
    request: the lookup and the permission check come first, and the
    only file that can be asked from the storage is the one under the
    storage path of that version. *)
Theorem versioned_request_keeps_its_slugs :
  forall (W : World) (request : Request) (project : Project)
         (subproject : option Project) (l v filename : str) (s : Settings),
    let current := or_else subproject project in
    single_version current = false ->
    l = [] \/ l = language current ->
    let r := run (serve_docs W request project subproject (Some l) (Some v)
                    filename) s in
    (exists rest,
        trace (snd r)
        = VersionQuery current (Some v) (located W current (Some v))
            :: HasPerm (located W current (Some v))
                 (has_perm W request (located W current (Some v)))
            :: rest)
    /\ (files_tried (trace (snd r)) = []
        \/ files_tried (trace (snd r))
           = [storage_file W current (Some v) filename]).
Proof.
  intros W request project subproject l v filename s current Hmulti Hl r.
  assert (Hs : settle W request project subproject (Some l) (Some v) filename
               = Located current (Some v) filename).
  { unfold settle. fold current. rewrite Hmulti.
    cbn [is_none andb orb negb].
    destruct Hl as [->| ->].
    - reflexivity.
    - cbn [opt_str_eqb]. rewrite str_eqb_refl, orb_true_r. reflexivity. }
  destruct (@settled_run W request project subproject (Some l) (Some v)
              filename s current (Some v) filename Hs) as (H1 & H2 & _).
  split; assumption.
Qed.

Lemma join_plain (l v f : str) :
  l <> [] -> v <> [] ->
  endswith_char l SLASH = false -> startswith v [SLASH] = false ->
  endswith_char v SLASH = false -> startswith f [SLASH] = false ->
  os_path_join l [v; f] = l ++ SLASH :: v ++ SLASH :: f.
Proof.
  intros Hl Hv Hle Hvs Hve Hfs. unfold os_path_join. cbn [fold_left].
  assert (E1 : join_step l v = l ++ SLASH :: v).
  { unfold join_step. rewrite Hvs, Hle.
    destruct l; [contradiction|reflexivity]. }
  rewrite E1. unfold join_step. rewrite Hfs.
  assert (E2 : endswith_char (l ++ SLASH :: v) SLASH = false).
  { unfold endswith_char in *. rewrite last_is_app by discriminate.
    now rewrite (@last_is_cons SLASH SLASH v Hv). }
  rewrite E2. destruct (l ++ SLASH :: v) eqn:E.
  - now destruct l.
  - cbn [truthy negb orb]. rewrite <- E. now rewrite <- app_assoc.
Qed.

Lemma join_absolute (l v f : str) :
  startswith f [SLASH] = true -> os_path_join l [v; f] = f.
Proof.
  intros Hf. unfold os_path_join. cbn [fold_left].
  unfold join_step at 1. now rewrite Hf.
Qed.

(** X9.  For a single-version project, language and version slugs
    that are not empty and hold no ['/'] at their joints (the language
    does not end with one, the version neither starts nor ends with
    one, the file name does not start with one) are put in front of
    the file name with single ['/'] in between: the request runs as
    the one without slugs for [lang/version/filename]. *)
Theorem single_version_fold_is_a_plain_path :
  forall (W : World) (request : Request) (project : Project)
         (subproject : option Project) (l v filename : str) (s : Settings),
    single_version (or_else subproject project) = true ->
    l <> [] -> v <> [] ->
    endswith_char l SLASH = false -> startswith v [SLASH] = false ->
    endswith_char v SLASH = false -> startswith filename [SLASH] = false ->
    run (serve_docs W request project subproject (Some l) (Some v) filename) s
    = run (serve_docs W request project subproject None None
             (l ++ SLASH :: v ++ SLASH :: filename)) s.
Proof.
  intros W request project subproject l v filename s Hsv Hl Hv Hle Hvs Hve
    Hfs.
  rewrite !run_serve_docs.
  rewrite (@settle_fold W request project subproject l v filename Hsv Hl Hv).
  now rewrite (@join_plain l v filename Hl Hv Hle Hvs Hve Hfs).
Qed.

(** X10.  For a single-version project, when the file name starts
    with ['/'], [os.path.join] drops the language and version slugs it
    is given: the request runs as the one without slugs for the file
    name alone. *)
Theorem absolute_filename_discards_the_slugs :
  forall (W : World) (request : Request) (project : Project)
         (subproject : option Project) (l v filename : str) (s : Settings),
    single_version (or_else subproject project) = true ->
    l <> [] -> v <> [] ->
    startswith filename [SLASH] = true ->
    run (serve_docs W request project subproject (Some l) (Some v) filename) s
    = run (serve_docs W request project subproject None None filename) s.
Proof.
  intros W request project subproject l v filename s Hsv Hl Hv Hf.
  rewrite !run_serve_docs.
  rewrite (@settle_fold W request project subproject l v filename Hsv Hl Hv).
  now rewrite (@join_absolute l v filename Hf).
Qed.

(** X11.  The calls [serve_docs] makes to its collaborators come in
    one of four shapes: none at all; or the version lookup, then the
    permission check on what the lookup found, followed by either the
    login call (and then the check had denied an anonymous user), or
    the storage path, the storage root and the file served from it, or
    the storage path and the signing of the file's URL. *)
Theorem serve_docs_call_order :
  forall (W : World) (request : Request) (project : Project)
         (subproject : option Project) (lang_slug version_slug : option str)
         (filename : str) (s : Settings),
    let t := trace (snd (run (serve_docs W request project subproject
                                lang_slug version_slug filename) s)) in
    t = []
    \/ exists p vs file,
        let version := located W p vs in
        let granted := has_perm W request version in
        let head := [VersionQuery p vs version; HasPerm version granted] in
        (t = head ++ [CasLogin (cas_endpoint request)
                        (build_absolute_uri request)]
         /\ granted = false /\ is_authenticated (user request) = false)
        \/ t = head ++ [GetStoragePath p vs; StoragePath;
                        Serve file (storage_root W)]
        \/ t = head ++ [GetStoragePath p vs; StorageUrl file].
Proof.
  intros W request project subproject lang_slug version_slug filename s t.
  subst t. rewrite run_serve_docs.
  destruct (settle W request project subproject lang_slug version_slug
              filename) as [target|e|p vs f]; [now left|now left|].
  right. exists p, vs, (storage_file W p vs f).
  destruct (answer_cases W request p vs f {| settings := s; trace := [] |})
    as [(G & A & E)|[(_ & _ & E)|(_ & _ & E)]]; rewrite E;
    cbn [snd trace app].
  - left. repeat split; assumption.
  - right; left; reflexivity.
  - right; right; reflexivity.
Qed.

(** X12.  [serve_docs] never changes [PYTHON_MEDIA].  It leaves the
    settings as they were in every run but the one that answers with
    the login challenge; that run sets [CAS_SERVER_URL] to the
    endpoint the challenge is issued for, which is one of the two
    fixed addresses. *)
Theorem serve_docs_settings_invariant :
  forall (W : World) (request : Request) (project : Project)
         (subproject : option Project) (lang_slug version_slug : option str)
         (filename : str) (s : Settings),
    let r := run (serve_docs W request project subproject lang_slug
                    version_slug filename) s in
    PYTHON_MEDIA (settings (snd r)) = PYTHON_MEDIA s
    /\ (settings (snd r) = s
        \/ (fst r = inr (CasLoginResponse (cas_endpoint request)
                           (build_absolute_uri request))
            /\ CAS_SERVER_URL (settings (snd r)) = cas_endpoint request
            /\ (cas_endpoint request = lit "http://web:8000/cas/"
                \/ cas_endpoint request
                   = lit "http://dev.readthedocs.io/cas/"))).
Proof.
  intros W request project subproject lang_slug version_slug filename s r.
  subst r. rewrite run_serve_docs.
  destruct (settle W request project subproject lang_slug version_slug
              filename) as [target|e|p vs f];
    [split; [reflexivity|now left]|split; [reflexivity|now left]|].
  destruct (answer_cases W request p vs f {| settings := s; trace := [] |})
    as [(_ & _ & E)|[(_ & _ & E)|(_ & _ & E)]]; rewrite E;
    cbn [fst snd settings PYTHON_MEDIA CAS_SERVER_URL];
    (split; [reflexivity|]); [right|now left|now left].
  repeat split. unfold cas_endpoint.
  destruct (carries_ticket_marker request); [now left|now right].
Qed.

Lemma storage_file_is_no_directory (W : World) (p : Project)
    (vs : option str) (f : str) :
  endswith_char (storage_file W p vs f) SLASH = false.
Proof.
  unfold storage_file.
  destruct (endswith_char (get_storage_path W p vs ++ SLASH :: f) SLASH)
    eqn:E; [|exact E].
  unfold endswith_char. now rewrite last_is_app by discriminate.
Qed.

(** X13.  No file [serve_docs] asks from the storage backend, in
    either serving mode, has a name ending with ['/']. *)
Theorem storage_is_never_asked_for_a_directory :
  forall (W : World) (request : Request) (project : Project)
         (subproject : option Project) (lang_slug version_slug : option str)
         (filename : str) (s : Settings),
    Forall (fun file => endswith_char file SLASH = false)
      (files_tried
         (trace (snd (run (serve_docs W request project subproject lang_slug
                             version_slug filename) s)))).
Proof.
  intros W request project subproject lang_slug version_slug filename s.
  destruct (files_tried_settled W request project subproject lang_slug
              version_slug filename s) as [E|(p & vs & f & _ & E)];
    rewrite E; [constructor|].
  constructor; [apply storage_file_is_no_directory|constructor].
Qed.

Lemma settle_failed (W : World) (request : Request) (project : Project)
    (subproject : option Project) (lang_slug version_slug : option str)
    (filename : str) (e : Exn) :
  settle W request project subproject lang_slug version_slug filename
  = Failed e ->
  e = Http404 (lit "Invalid URL for project with versions")
  \/ e = Http404 (lit "No Project matches the given query.")
  \/ e = MultipleObjectsReturned.
Proof.
  unfold settle.
  repeat match goal with
         | |- context [if ?b then _ else _] => destruct b
         | |- context [match filter ?g ?l with _ => _ end] =>
             destruct (filter g l) as [|? [|? ?]]
         | |- context [match ?o with Some _ => _ | None => _ end] =>
             destruct o
         end;
    intros E; try discriminate; injection E as <-; auto.
Qed.

(** X14.  The two serving modes exclude each other.  With
    [PYTHON_MEDIA] set, no URL is signed, the edge-proxy response is
    never given and the encoding error of its header cannot occur;
    without it, the storage root is not asked for, nothing is served
    from the file system and the file response is never given. *)
Theorem serving_mode_is_exclusive :
  forall (W : World) (request : Request) (project : Project)
         (subproject : option Project) (lang_slug version_slug : option str)
         (filename : str) (s : Settings),
    let r := run (serve_docs W request project subproject lang_slug
                    version_slug filename) s in
    if PYTHON_MEDIA s
    then (forall file, ~ In (StorageUrl file) (trace (snd r)))
         /\ (forall content ct hs, fst r <> inr (HttpResponse content ct hs))
         /\ fst r <> inl UnicodeEncodeError
    else ~ In StoragePath (trace (snd r))
         /\ (forall file root, ~ In (Serve file root) (trace (snd r)))
         /\ (forall file root, fst r <> inr (ServeResponse file root)).
Proof.
  intros W request project subproject lang_slug version_slug filename s r.
  subst r. rewrite run_serve_docs.
  destruct (settle W request project subproject lang_slug version_slug
              filename) as [target|e|p vs f] eqn:Hs.
  - destruct (PYTHON_MEDIA s); cbn [fst snd trace];
      (split; [|split]); try discriminate; intros; intros [].
  - pose proof (@settle_failed W request project subproject lang_slug
                  version_slug filename e Hs) as He.
    destruct (PYTHON_MEDIA s); cbn [fst snd trace];
      (split; [|split]); try discriminate;
      try (intros E; destruct He as [->|[->| ->]]; discriminate);
      intros; intros [].
  - destruct (answer_cases W request p vs f {| settings := s; trace := [] |})
      as [(_ & _ & E)|[(_ & P & E)|(_ & P & E)]]; rewrite E;
      cbn [fst snd trace settings app] in *.
    + destruct (PYTHON_MEDIA s); (split; [|split]); try discriminate;
        intros; intros Hin;
        repeat (destruct Hin as [Hin|Hin]; [discriminate|]); destruct Hin.
    + rewrite P.
      destruct (served_cases W (storage_file W p vs f))
        as [(reason & _ & Es)|[_ Es]]; rewrite Es;
        (split; [|split]); try discriminate;
        intros file Hin;
        repeat (destruct Hin as [Hin|Hin]; [discriminate|]); destruct Hin.
    + rewrite P. split; [|split].
      * intros Hin.
        repeat (destruct Hin as [Hin|Hin]; [discriminate|]); destruct Hin.
      * intros file root Hin.
        repeat (destruct Hin as [Hin|Hin]; [discriminate|]); destruct Hin.
      * intros file root.
        destruct (nginx_cases W request p
                    (internal_path W (storage_file W p vs f))
                    {| settings := s; trace := [] |})
          as [(ct & hs & u & _ & En & _)|[_ En]]; rewrite En; discriminate.
Qed.


(** X15.  [serve_docs] under its decorators never answers with a
    rendered page, so never with the 401 page of [_serve_401].  The
    login challenge is given to anonymous users only, for the endpoint
    and the return address of the request.  A not-found carries one
    of four reasons, those of the two decorators, of the path
    normaliser and of the translation lookup, or else is the one
    [serve] raises in direct mode for the file asked from the
    storage. *)
Theorem serve_docs_never_answers_unauthorized :
  forall (W : World) (request : Request) (project : option Project)
         (project_slug : option str) (subproject : option Project)
         (subproject_slug lang_slug version_slug : option str)
         (filename : str) (st : State),
    let r := serve_docs_view W request project project_slug subproject
               subproject_slug lang_slug version_slug filename st in
    match fst r with
    | inr (RenderResponse _ _) => False
    | inr (CasLoginResponse endpoint next_page) =>
        is_authenticated (user request) = false
        /\ endpoint = cas_endpoint request
        /\ next_page = build_absolute_uri request
    | inr _ => True
    | inl (Http404 reason) =>
        In reason [lit "Project does not exist.";
                   lit "Invalid subproject slug";
                   lit "Invalid URL for project with versions";
                   lit "No Project matches the given query."]
        \/ (PYTHON_MEDIA (settings st) = true
            /\ exists file,
                In (Serve file (storage_root W)) (trace (snd r))
                /\ serve_raises W file (storage_root W) = Some reason)
    | inl _ => True
    end.
Proof.
  intros W request project project_slug subproject subproject_slug lang_slug
    version_slug filename st r. subst r.
  unfold serve_docs_view, decorated.
  destruct (map_project_slug_cases W
              (fun request project '(subproject, subproject_slug, kwargs) =>
                 map_subproject_slug W
                   (fun request project subproject
                        '(lang_slug, version_slug, filename) =>
                      serve_docs W request project subproject lang_slug
                        version_slug filename)
                   request project subproject subproject_slug kwargs)
              request project project_slug
              (subproject, subproject_slug,
               (lang_slug, version_slug, filename)))
    as [[p E]|[E|E]]; rewrite E; [|left; now left|exact I].
  destruct (map_subproject_slug_cases W
              (fun request project subproject
                   '(lang_slug, version_slug, filename) =>
                 serve_docs W request project subproject lang_slug
                   version_slug filename)
              request p subproject subproject_slug
              (lang_slug, version_slug, filename))
    as [[sub E']|E']; rewrite E'; [|left; right; now left].
  rewrite serve_docs_settle_answer.
  destruct (settle W request p sub lang_slug version_slug filename)
    as [target|e|q vs f] eqn:Hs; cbn [fst].
  - exact I.
  - destruct (@settle_failed W request p sub lang_slug version_slug filename
                e Hs) as [->|[->| ->]];
      [left; right; right; now left|left; right; right; right; now left
      |exact I].
  - destruct (answer_cases W request q vs f st)
      as [(_ & A & E'')|[(_ & P & E'')|(_ & _ & E'')]]; rewrite E'';
      cbn [fst snd trace].
    + repeat split. exact A.
    + destruct (served_cases W (storage_file W q vs f))
        as [(reason & Hr & Es)|[_ Es]]; rewrite Es; [|exact I].
      right. split; [exact P|]. exists (storage_file W q vs f).
      split; [|exact Hr]. apply in_or_app. right.
      do 2 right. left. reflexivity.
    + destruct (nginx_cases W request q
                  (internal_path W (storage_file W q vs f)) st)
        as [(ct & hs & u & _ & En & _)|[_ En]]; rewrite En; exact I.
Qed.

Lemma filter_both {A} (f g : A -> bool) (l : list A) :
  filter g (filter f l) = filter (fun x => f x && g x) l.
Proof.
  induction l as [|a l IH]; [reflexivity|]. simpl.
  destruct (f a); simpl; [destruct (g a)|]; now rewrite IH.
Qed.

Lemma located_first_match (W : World) (p : Project) (slug : str)
    (v : Version) :
  located W p (Some slug) = Some v
  <-> first_match (is_version_of p slug) (versions W) v.
Proof.
  unfold located, filter_slug, for_project. rewrite filter_both.
  symmetry. apply first_match_filter.
Qed.

(** X16.  Whenever [serve_docs] has looked a version up, the
    permission is checked on exactly what the lookup found, and what
    it found is the first version entity of the served project with
    the slug looked up; it found nothing only when the slug is absent
    or no version of the project has it. *)
Theorem located_version_is_the_first_entity :
  forall (W : World) (request : Request) (project : Project)
         (subproject : option Project) (lang_slug version_slug : option str)
         (filename : str) (s : Settings) (p : Project) (vs : option str)
         (found : option Version),
    let t := trace (snd (run (serve_docs W request project subproject
                                lang_slug version_slug filename) s)) in
    In (VersionQuery p vs found) t ->
    In (HasPerm found (has_perm W request found)) t
    /\ match found with
       | Some v =>
           exists slug,
             vs = Some slug
             /\ first_match (is_version_of p slug) (versions W) v
       | None => no_version_entity W p vs
       end.
Proof.
  intros W request project subproject lang_slug version_slug filename s p vs
    found t Hin. subst t.
  destruct (gate_reached W _ _ _ _ _ _ _ _ Hin) as (p' & vs' & f & _ & Hrun).
  rewrite Hrun in *. clear Hrun.
  assert (Hq : p = p' /\ vs = vs' /\ found = located W p' vs'
               /\ In (HasPerm found (has_perm W request found))
                    (trace (snd (answer W request p' vs' f
                                   {| settings := s; trace := [] |})))).
  { destruct (answer_cases W request p' vs' f
                {| settings := s; trace := [] |})
      as [(_ & _ & E)|[(_ & _ & E)|(_ & _ & E)]];
      rewrite E in *; cbn [fst snd trace settings app] in *;
      (destruct Hin as [Hin|Hin];
       [injection Hin as <- <- <-; repeat split; right; now left|]);
      repeat (destruct Hin as [Hin|Hin]; [discriminate|]); destruct Hin. }
  destruct Hq as (-> & -> & -> & Hperm). split; [exact Hperm|].
  destruct (located W p' vs') as [v|] eqn:L.
  - destruct vs' as [slug|]; [|discriminate].
    exists slug. split; [reflexivity|]. now apply located_first_match.
  - now apply located_None_iff.
Qed.

(** X17.  [serve_docs] calls the login view exactly when the user is
    anonymous and the permission check has denied access; the call is
    then made for the endpoint chosen from the request's absolute URL
    and with that URL as the page to return to. *)
Theorem login_challenge_iff_anonymous_and_denied :
  forall (W : World) (request : Request) (project : Project)
         (subproject : option Project) (lang_slug version_slug : option str)
         (filename : str) (s : Settings) (endpoint next_page : str),
    let r := run (serve_docs W request project subproject lang_slug
                    version_slug filename) s in
    In (CasLogin endpoint next_page) (trace (snd r))
    <-> (endpoint = cas_endpoint request
         /\ next_page = build_absolute_uri request
         /\ is_authenticated (user request) = false
         /\ exists version, In (HasPerm version false) (trace (snd r))).
Proof.
  intros W request project subproject lang_slug version_slug filename s
    endpoint next_page r. subst r. rewrite run_serve_docs.
  destruct (settle W request project subproject lang_slug version_slug
              filename) as [target|e|p vs f]; cbn [snd trace].
  - split; [intros []|intros (_ & _ & _ & v & [])].
  - split; [intros []|intros (_ & _ & _ & v & [])].
  - destruct (answer_cases W request p vs f {| settings := s; trace := [] |})
      as [(G & A & E)|[([G|A] & _ & E)|([G|A] & _ & E)]]; rewrite E;
      cbn [fst snd trace settings app] in *.
    + split.
      * intros Hin.
        repeat (destruct Hin as [Hin|Hin]; [try discriminate|]);
          [|destruct Hin].
        injection Hin as <- <-. repeat split; [exact A|].
        exists (located W p vs). right; left. now rewrite G.
      * intros (-> & -> & _ & _). right; right; now left.
    + split.
      * intros Hin.
        repeat (destruct Hin as [Hin|Hin]; [discriminate|]); destruct Hin.
      * intros (_ & _ & _ & v & Hin).
        destruct Hin as [Hin|[Hin|Hin]]; [discriminate| |].
        -- injection Hin as _ Hg. congruence.
        -- repeat (destruct Hin as [Hin|Hin]; [discriminate|]); destruct Hin.
    + split.
      * intros Hin.
        repeat (destruct Hin as [Hin|Hin]; [discriminate|]); destruct Hin.
      * intros (_ & _ & Hanon & _). congruence.
    + split.
      * intros Hin.
        repeat (destruct Hin as [Hin|Hin]; [discriminate|]); destruct Hin.
      * intros (_ & _ & _ & v & Hin).
        destruct Hin as [Hin|[Hin|Hin]]; [discriminate| |].
        -- injection Hin as _ Hg. congruence.
        -- repeat (destruct Hin as [Hin|Hin]; [discriminate|]); destruct Hin.
    + split.
      * intros Hin.
        repeat (destruct Hin as [Hin|Hin]; [discriminate|]); destruct Hin.
      * intros (_ & _ & Hanon & _). congruence.
Qed.

Lemma hexdigit_safe (n : N) : n < 16 -> always_safe (hexdigit n) = true.
Proof.
  intros H. unfold hexdigit, always_safe.
  do 3 (apply orb_true_iff; left). apply orb_true_iff.
  destruct (N.ltb_spec n 10) as [Hd|Hd].
  - right. unfold is_digit. apply andb_true_iff. split; apply N.leb_le; lia.
  - left. unfold is_alpha. apply orb_true_iff. left.
    apply andb_true_iff. split; apply N.leb_le; lia.
Qed.

Lemma quote_uri_safe (bs : list N) :
  Forall (fun b => b < 256) bs ->
  uri_safe (quote_from_bytes bs iri_safe) = true.
Proof.
  unfold uri_safe, quote_from_bytes. intros Hbs.
  apply forallb_forall. intros c Hc.
  apply in_flat_map in Hc as (b & Hb & Hc).
  rewrite Forall_forall in Hbs. specialize (Hbs b Hb).
  unfold quoter in Hc.
  destruct (always_safe b || mem_char b iri_safe) eqn:S.
  - destruct Hc as [<-|[]]. exact S.
  - destruct Hc as [<-|[<-|[<-|[]]]]; [reflexivity| |];
      rewrite hexdigit_safe by nlia; reflexivity.
Qed.

Lemma iri_to_uri_uri_safe (s uri : str) :
  iri_to_uri s = Some uri -> uri_safe uri = true.
Proof.
  unfold iri_to_uri, quote.
  destruct (utf8_encode s) as [bs|] eqn:E; [|discriminate].
  intros U. apply some_eq in U. subst uri.
  exact (@quote_uri_safe bs (@utf8_encode_bytes s bs E)).
Qed.

(** X18.  The header [X-Accel-Redirect] of an edge-proxy response is
    made of characters [iri_to_uri] leaves alone, so converting it
    again changes nothing: a response built for the header as a path
    exists and carries the same header. *)
Theorem x_accel_header_is_a_fixed_point_of_iri_to_uri :
  forall (W : World) (request : Request) (p : Project) (path : str)
         (st : State) (response : Response),
    fst (_serve_docs_nginx W request p path st) = inr response ->
    exists uri,
      header (lit "X-Accel-Redirect") response = Some uri
      /\ uri_safe uri = true
      /\ iri_to_uri uri = Some uri
      /\ exists again,
          fst (_serve_docs_nginx W request p uri st) = inr again
          /\ header (lit "X-Accel-Redirect") again = Some uri.
Proof.
  intros W request p path st response Hr.
  destruct (nginx_cases W request p path st)
    as [(ct & hs & u & Hu & E & Hhs)|[Hu E]]; rewrite E in Hr;
    cbn [fst] in Hr; [|discriminate].
  injection Hr as <-. exists u.
  pose proof (@iri_to_uri_uri_safe path u Hu) as Hsafe.
  pose proof (@iri_to_uri_safe u Hsafe) as Hfix.
  repeat split; auto.
  - now apply x_accel_header.
  - destruct (nginx_cases W request p u st)
      as [(ct' & hs' & u' & Hu' & E' & Hhs')|[Hu' E']]; [|congruence].
    rewrite E'. cbn [fst]. eexists. split; [reflexivity|].
    rewrite Hfix in Hu'. apply some_eq in Hu'. subst u'.
    now apply x_accel_header.
Qed.

(** X19.  Two different internal paths without percent escapes of
    their own never get the same header [X-Accel-Redirect], whatever
    the requests and projects the responses are built for. *)
Theorem escape_free_paths_get_distinct_headers :
  forall (W : World) (request request' : Request) (p p' : Project)
         (path path' : str) (st st' : State) (response response' : Response),
    has_escape path = false -> has_escape path' = false ->
    path <> path' ->
    fst (_serve_docs_nginx W request p path st) = inr response ->
    fst (_serve_docs_nginx W request' p' path' st') = inr response' ->
    header (lit "X-Accel-Redirect") response
    <> header (lit "X-Accel-Redirect") response'.
Proof.
  intros W request request' p p' path path' st st' response response'
    Hesc Hesc' Hne Hr Hr' Hh. apply Hne.
  destruct (nginx_cases W request p path st)
    as [(ct & hs & u & Hu & E & Hhs)|[Hu E]]; rewrite E in Hr;
    cbn [fst] in Hr; [|discriminate].
  destruct (nginx_cases W request' p' path' st')
    as [(ct' & hs' & u' & Hu' & E' & Hhs')|[Hu' E']]; rewrite E' in Hr';
    cbn [fst] in Hr'; [|discriminate].
  injection Hr as <-. injection Hr' as <-.
  rewrite (@x_accel_header _ _ hs u Hhs) in Hh.
  rewrite (@x_accel_header _ _ hs' u' Hhs') in Hh.
  apply some_eq in Hh. subst u'.
  pose proof (@uri_decode_iri_to_uri path u Hu Hesc) as D.
  pose proof (@uri_decode_iri_to_uri path' u Hu' Hesc') as D'.
  congruence.
Qed.

(* ================================================================== *)
(** * The keyword arguments of a faceted search *)
(* ================================================================== *)

Lemma str_eqb_spec (a b : str) : reflect (a = b) (str_eqb a b).
Proof.
  destruct (str_eqb a b) eqn:E; constructor.
  - now apply str_eqb_eq.
  - intros H. apply str_eqb_eq in H. congruence.
Qed.

Lemma dict_get_del_eq (k : str) (d : dict) : dict_get k (dict_del k d) = None.
Proof.
  unfold dict_get, dict_del. induction d as [|[k' v] d IH]; [reflexivity|].
  simpl. destruct (str_eqb_spec k' k) as [->|Hk]; simpl; [exact IH|].
  destruct (str_eqb_spec k' k); [contradiction|exact IH].
Qed.

Lemma dict_get_del_ne (k k' : str) (d : dict) :
  k' <> k -> dict_get k' (dict_del k d) = dict_get k' d.
Proof.
  intros Hk. unfold dict_get, dict_del.
  induction d as [|[k0 v] d IH]; [reflexivity|]. simpl.
  destruct (str_eqb_spec k0 k) as [->|H0]; simpl.
  - destruct (str_eqb_spec k k'); [congruence|exact IH].
  - destruct (str_eqb_spec k0 k'); [reflexivity|exact IH].
Qed.

Lemma dict_get_set_eq (k : str) (v : Obj) (d : dict) :
  dict_get k (dict_set k v d) = Some v.
Proof.
  unfold dict_get. induction d as [|[k0 v0] d IH]; simpl.
  - now rewrite str_eqb_refl.
  - destruct (str_eqb_spec k0 k) as [->|H0]; simpl.
    + now rewrite str_eqb_refl.
    + destruct (str_eqb_spec k0 k); [contradiction|exact IH].
Qed.

Lemma dict_get_set_ne (k k' : str) (v : Obj) (d : dict) :
  k' <> k -> dict_get k' (dict_set k v d) = dict_get k' d.
Proof.
  intros Hk. unfold dict_get. induction d as [|[k0 v0] d IH]; simpl.
  - destruct (str_eqb_spec k k'); [congruence|reflexivity].
  - destruct (str_eqb_spec k0 k) as [->|H0]; simpl.
    + destruct (str_eqb_spec k k'); [congruence|reflexivity].
    + destruct (str_eqb_spec k0 k'); [reflexivity|exact IH].
Qed.

Lemma dict_has_get (k : str) (d : dict) :
  dict_has k d = false <-> dict_get k d = None.
Proof. unfold dict_has. destruct (dict_get k d); simpl; split; congruence. Qed.

Lemma mem_str_In (k : str) (l : list str) : mem_str k l = true <-> In k l.
Proof.
  unfold mem_str. rewrite existsb_exists. split.
  - intros (x & Hx & E). apply str_eqb_eq in E. now subst.
  - intros H. exists k. split; [exact H|apply str_eqb_refl].
Qed.

Lemma existsb_false {A} (f : A -> bool) (l : list A) :
  existsb f l = false <-> forall x, In x l -> f x = false.
Proof.
  induction l as [|a l IH]; simpl.
  - split; [intros _ x []|reflexivity].
  - rewrite orb_false_iff, IH. split.
    + intros [Ha Hl] x [<-|Hx]; auto.
    + intros H. split; [apply H; now left|]. intros x Hx. apply H. now right.
Qed.

Lemma mem_str_cons (k f : str) (l : list str) :
  mem_str k (f :: l) = str_eqb k f || mem_str k l.
Proof. reflexivity. Qed.

(** One turn of the first loop, when it succeeds. *)
Lemma move_facet_spec (kwargs kwargs' : dict) (facet : str) :
  facet <> lit "filters" ->
  move_facet kwargs facet = inr kwargs' ->
  match dict_get facet kwargs with
  | None => kwargs' = kwargs
  | Some value =>
      dict_get (lit "filters") kwargs'
      = Some (ODict (dict_set facet value (filters_given kwargs)))
      /\ forall k, k <> lit "filters" ->
                   dict_get k kwargs'
                   = if str_eqb k facet then None else dict_get k kwargs
  end.
Proof.
  intros Hf. unfold move_facet.
  destruct (dict_get facet kwargs) as [value|] eqn:Hget; [|congruence].
  assert (Hfilters : dict_get (lit "filters") (dict_del facet kwargs)
                     = dict_get (lit "filters") kwargs).
  { apply dict_get_del_ne. congruence. }
  unfold filters_given. rewrite Hfilters.
  assert (Hother : forall v k,
             k <> lit "filters" ->
             dict_get k (dict_set (lit "filters") v (dict_del facet kwargs))
             = if str_eqb k facet then None else dict_get k kwargs).
  { intros v k Hk. rewrite dict_get_set_ne by assumption.
    destruct (str_eqb_spec k facet) as [->|Hkf].
    - apply dict_get_del_eq.
    - now apply dict_get_del_ne. }
  destruct (dict_get (lit "filters") kwargs) as [[| | |filters]|];
    try discriminate; intros E; injection E as <-;
    (split; [apply dict_get_set_eq|now apply Hother]).
Qed.

Lemma move_facets_spec (facets : list str) :
  ~ In (lit "filters") facets ->
  forall kwargs kwargs',
    move_facets facets kwargs = inr kwargs' ->
    (forall k, k <> lit "filters" ->
               dict_get k kwargs'
               = if mem_str k facets then None else dict_get k kwargs)
    /\ (if existsb (fun f => dict_has f kwargs) facets
        then exists filters,
            dict_get (lit "filters") kwargs' = Some (ODict filters)
            /\ forall name,
                dict_get name filters
                = if mem_str name facets && dict_has name kwargs
                  then dict_get name kwargs
                  else dict_get name (filters_given kwargs)
        else kwargs' = kwargs).
Proof.
  induction facets as [|f facets IH]; intros Hnf kwargs kwargs' Hrun.
  - injection Hrun as <-. split; [reflexivity|reflexivity].
  - assert (Hf : f <> lit "filters") by (intros ->; apply Hnf; now left).
    assert (Hnf' : ~ In (lit "filters") facets)
      by (intros H; apply Hnf; now right).
    cbn [move_facets] in Hrun.
    destruct (move_facet kwargs f) as [e|k1] eqn:Hstep; [discriminate|].
    pose proof (@move_facet_spec kwargs k1 f Hf Hstep) as Hspec.
    destruct (IH Hnf' k1 kwargs' Hrun) as [IHget IHfil].
    cbn [existsb]. unfold dict_has at 1.
    destruct (dict_get f kwargs) as [value|] eqn:Hget; cbn [is_none negb orb].
    + destruct Hspec as [Hfil1 Hget1].
      assert (Hhas1 : forall name, name <> f -> name <> lit "filters" ->
                                   dict_has name k1 = dict_has name kwargs).
      { intros name H1 H2. unfold dict_has. rewrite (Hget1 name H2).
        destruct (str_eqb_spec name f); [contradiction|reflexivity]. }
      assert (Hhasf : dict_has f k1 = false).
      { apply dict_has_get. rewrite (Hget1 f Hf). now rewrite str_eqb_refl. }
      assert (Hgiven1 : filters_given k1
                        = dict_set f value (filters_given kwargs)).
      { unfold filters_given at 1. now rewrite Hfil1. }
      split.
      * intros k Hk. rewrite (IHget k Hk), mem_str_cons, (Hget1 k Hk).
        destruct (str_eqb k f), (mem_str k facets); reflexivity.
      * destruct (existsb (fun f0 => dict_has f0 k1) facets) eqn:Hex.
        -- destruct IHfil as (filters & Hfil & Hnames).
           exists filters. split; [exact Hfil|]. intros name.
           rewrite (Hnames name), mem_str_cons, Hgiven1.
           destruct (str_eqb_spec name f) as [->|Hne].
           ++ rewrite Hhasf, andb_false_r. cbn [orb andb].
              unfold dict_has. rewrite Hget. cbn [is_none negb].
              apply dict_get_set_eq.
           ++ cbn [orb].
              destruct (mem_str name facets) eqn:Hm; cbn [andb].
              ** assert (name <> lit "filters").
                 { intros ->. apply Hnf'. now apply mem_str_In. }
                 rewrite (Hhas1 name Hne H), (Hget1 name H).
                 destruct (str_eqb_spec name f); [contradiction|].
                 destruct (dict_has name kwargs); [reflexivity|].
                 now apply dict_get_set_ne.
              ** now apply dict_get_set_ne.
        -- subst kwargs'. exists (dict_set f value (filters_given kwargs)).
           split; [exact Hfil1|]. intros name. rewrite mem_str_cons.
           destruct (str_eqb_spec name f) as [->|Hne].
           ++ cbn [orb andb]. unfold dict_has. rewrite Hget.
              cbn [is_none negb]. apply dict_get_set_eq.
           ++ cbn [orb]. rewrite dict_get_set_ne by assumption.
              destruct (mem_str name facets) eqn:Hm; [|reflexivity].
              cbn [andb].
              assert (Hin : In name facets) by now apply mem_str_In.
              assert (name <> lit "filters") by (intros ->; contradiction).
              rewrite <- (Hhas1 name Hne H).
              rewrite existsb_false in Hex. now rewrite (Hex name Hin).
    + subst k1. split.
      * intros k Hk. rewrite (IHget k Hk), mem_str_cons.
        destruct (str_eqb_spec k f) as [->|Hne]; [|reflexivity].
        cbn [orb]. now destruct (mem_str f facets).
      * destruct (existsb (fun f0 => dict_has f0 kwargs) facets);
          [|exact IHfil].
        destruct IHfil as (filters & Hfil & Hnames).
        exists filters. split; [exact Hfil|]. intros name.
        rewrite (Hnames name), mem_str_cons.
        destruct (str_eqb_spec name f) as [->|Hne]; [|reflexivity].
        cbn [orb]. unfold dict_has. rewrite Hget. cbn [is_none negb].
        now rewrite andb_false_r.
Qed.

Lemma drop_keys_get (keys : list str) (kwargs : dict) (k : str) :
  dict_get k (fold_left (fun kw f => if dict_has f kw then dict_del f kw
                                     else kw) keys kwargs)
  = if mem_str k keys then None else dict_get k kwargs.
Proof.
  revert kwargs. induction keys as [|f keys IH]; intros kwargs;
    [reflexivity|].
  cbn [fold_left]. rewrite IH, mem_str_cons.
  destruct (mem_str k keys); [now rewrite orb_true_r|].
  rewrite orb_false_r.
  destruct (str_eqb_spec k f) as [->|Hne].
  - destruct (dict_has f kwargs) eqn:Hh.
    + apply dict_get_del_eq.
    + now apply dict_has_get.
  - destruct (dict_has f kwargs); [now apply dict_get_del_ne|reflexivity].
Qed.

Lemma drop_facets_get (kwargs : dict) (k : str) :
  dict_get k (drop_facets kwargs)
  = if mem_str k ALL_FACETS then None else dict_get k kwargs.
Proof. apply drop_keys_get. Qed.

Lemma filters_not_a_facet : mem_str (lit "filters") ALL_FACETS = false.
Proof. reflexivity. Qed.

Lemma move_facets_error (facets : list str) :
  ~ In (lit "filters") facets ->
  forall kwargs,
    move_facets facets kwargs = inl TypeError
    <-> existsb (fun f => dict_has f kwargs) facets = true
        /\ exists o, dict_get (lit "filters") kwargs = Some o
                     /\ is_dict o = false.
Proof.
  induction facets as [|f facets IH]; intros Hnf kwargs.
  - cbn. split; [discriminate|intros [H _]; discriminate].
  - assert (Hf : f <> lit "filters") by (intros ->; apply Hnf; now left).
    assert (Hnf' : ~ In (lit "filters") facets)
      by (intros H; apply Hnf; now right).
    cbn [move_facets existsb].
    destruct (move_facet kwargs f) as [[]|k1] eqn:Hstep.
    + unfold move_facet in Hstep. unfold dict_has at 1.
      destruct (dict_get f kwargs) as [value|]; [|discriminate].
      rewrite (@dict_get_del_ne f (lit "filters") kwargs) in Hstep
        by congruence.
      cbn [is_none negb orb]. split; [intros _|reflexivity].
      split; [reflexivity|].
      destruct (dict_get (lit "filters") kwargs) as [[| | |d]|];
        try discriminate; eexists; split; reflexivity.
    + pose proof (@move_facet_spec kwargs k1 f Hf Hstep) as Hspec.
      rewrite (IH Hnf' k1). unfold dict_has at 2.
      destruct (dict_get f kwargs) as [value|] eqn:Hget;
        cbn [is_none negb orb].
      * destruct Hspec as [Hfil _]. split.
        -- intros (_ & o & Ho & Hd). rewrite Hfil in Ho.
           injection Ho as <-. discriminate.
        -- intros (_ & o & Ho & Hd). exfalso.
           unfold move_facet in Hstep. rewrite Hget in Hstep.
           rewrite (@dict_get_del_ne f (lit "filters") kwargs) in Hstep
             by congruence.
           rewrite Ho in Hstep. destruct o; discriminate.
      * now subst k1.
Qed.

Lemma map_fst_del (k : str) (d : dict) :
  map fst (dict_del k d) = filter (fun x => negb (str_eqb x k)) (map fst d).
Proof.
  unfold dict_del. induction d as [|[k0 v] d IH]; [reflexivity|]. simpl.
  destruct (str_eqb k0 k); simpl; now rewrite IH.
Qed.

Lemma keys_del (k : str) (d : dict) :
  NoDup (map fst d) ->
  NoDup (map fst (dict_del k d)) /\ incl (map fst (dict_del k d)) (map fst d).
Proof.
  intros H. rewrite map_fst_del. split.
  - now apply NoDup_filter.
  - intros x Hx. now apply filter_In in Hx.
Qed.

Lemma keys_set (k : str) (v : Obj) (d : dict) :
  NoDup (map fst d) ->
  NoDup (map fst (dict_set k v d))
  /\ incl (map fst (dict_set k v d)) (k :: map fst d).
Proof.
  induction d as [|[k0 v0] d IH]; simpl.
  - intros _. split; [repeat constructor; intros []|apply incl_refl].
  - intros H. inversion H as [|? ? Hnotin Hd]; subst.
    destruct (str_eqb_spec k0 k) as [->|Hne]; simpl.
    + split; [exact H|]. intros x Hx. now right.
    + destruct (IH Hd) as [IH1 IH2]. split.
      * constructor; [|exact IH1]. intros Hin. apply IH2 in Hin.
        destruct Hin as [E|Hin]; [congruence|contradiction].
      * intros x [<-|Hx]; [right; now left|].
        apply IH2 in Hx. destruct Hx as [<-|Hx]; [now left|right; now right].
Qed.

Lemma keys_move_facet (kwargs kwargs' : dict) (f : str) :
  NoDup (map fst kwargs) -> move_facet kwargs f = inr kwargs' ->
  NoDup (map fst kwargs')
  /\ incl (map fst kwargs') (lit "filters" :: map fst kwargs).
Proof.
  intros H. unfold move_facet.
  destruct (dict_get f kwargs) as [value|].
  - destruct (@keys_del f kwargs H) as [Hd Hi].
    destruct (dict_get (lit "filters") (dict_del f kwargs)) as [[| | |d]|];
      try discriminate; intros E; injection E as <-;
      match goal with
      | |- context [dict_set ?k ?v ?d] =>
          destruct (@keys_set k v d Hd) as [Hs Hj]
      end;
      (split; [exact Hs|]); intros x Hx; apply Hj in Hx;
      (destruct Hx as [<-|Hx]; [now left|right; now apply Hi]).
  - intros E. injection E as <-. split; [exact H|]. intros x Hx. now right.
Qed.

Lemma keys_move_facets (facets : list str) (kwargs kwargs' : dict) :
  NoDup (map fst kwargs) -> move_facets facets kwargs = inr kwargs' ->
  NoDup (map fst kwargs')
  /\ incl (map fst kwargs') (lit "filters" :: map fst kwargs).
Proof.
  revert kwargs. induction facets as [|f facets IH]; intros kwargs H.
  - intros E. injection E as <-. split; [exact H|]. intros x Hx. now right.
  - cbn [move_facets].
    destruct (move_facet kwargs f) as [e|k1] eqn:Hstep; [discriminate|].
    intros Hrun. destruct (@keys_move_facet kwargs k1 f H Hstep) as [H1 I1].
    destruct (IH k1 H1 Hrun) as [H2 I2]. split; [exact H2|].
    intros x Hx. apply I2 in Hx. destruct Hx as [<-|Hx]; [now left|].
    now apply I1.
Qed.

Lemma keys_drop (keys : list str) (kwargs : dict) :
  NoDup (map fst kwargs) ->
  NoDup (map fst (fold_left (fun kw f => if dict_has f kw then dict_del f kw
                                         else kw) keys kwargs))
  /\ incl (map fst (fold_left (fun kw f => if dict_has f kw
                                           then dict_del f kw else kw)
                      keys kwargs))
       (map fst kwargs).
Proof.
  revert kwargs. induction keys as [|f keys IH]; intros kwargs H.
  - split; [exact H|apply incl_refl].
  - cbn [fold_left]. destruct (dict_has f kwargs).
    + destruct (@keys_del f kwargs H) as [Hd Hi].
      destruct (IH _ Hd) as [H1 I1]. split; [exact H1|].
      intros x Hx. apply Hi. now apply I1.
    + now apply IH.
Qed.

Lemma move_facets_absent (facets : list str) (kwargs : dict) :
  (forall f, In f facets -> dict_get f kwargs = None) ->
  move_facets facets kwargs = inr kwargs.
Proof.
  induction facets as [|f facets IH]; intros H; [reflexivity|].
  cbn [move_facets]. unfold move_facet. rewrite (H f) by now left.
  apply IH. intros g Hg. apply H. now right.
Qed.

Lemma drop_keys_absent (keys : list str) (kwargs : dict) :
  (forall f, In f keys -> dict_get f kwargs = None) ->
  fold_left (fun kw f => if dict_has f kw then dict_del f kw else kw)
    keys kwargs = kwargs.
Proof.
  induction keys as [|f keys IH]; intros H; [reflexivity|].
  cbn [fold_left].
  rewrite (proj2 (dict_has_get f kwargs)) by (apply H; now left).
  apply IH. intros g Hg. apply H. now right.
Qed.

Lemma search_init_get (facets : list str) (kwargs kwargs' : dict) (k : str) :
  ~ In (lit "filters") facets ->
  RTDFacetedSearch_init facets kwargs = inr kwargs' ->
  k <> lit "filters" ->
  dict_get k kwargs'
  = if mem_str k facets || mem_str k ALL_FACETS then None
    else dict_get k kwargs.
Proof.
  intros Hnf Hrun Hk. unfold RTDFacetedSearch_init in Hrun.
  destruct (move_facets facets kwargs) as [e|k1] eqn:Hmove; [discriminate|].
  injection Hrun as <-.
  destruct (@move_facets_spec facets Hnf kwargs k1 Hmove) as [Hget _].
  rewrite drop_facets_get, (Hget k Hk).
  destruct (mem_str k facets), (mem_str k ALL_FACETS); reflexivity.
Qed.

(** X20.  No facet name reaches [FacetedSearch.__init__] as a keyword
    argument: after [RTDFacetedSearch.__init__] has gone through the
    keyword arguments, neither a facet of the class nor a name of
    [ALL_FACETS] is a key of them; a facet the class does not have is
    dropped, not filtered on. *)
Theorem search_init_passes_no_facet_on :
  forall (facets : list str) (kwargs kwargs' : dict) (k : str),
    ~ In (lit "filters") facets ->
    RTDFacetedSearch_init facets kwargs = inr kwargs' ->
    In k facets \/ In k ALL_FACETS ->
    dict_get k kwargs' = None.
Proof.
  intros facets kwargs kwargs' k Hnf Hrun Hk.
  assert (Hne : k <> lit "filters").
  { intros ->. destruct Hk as [Hk|Hk]; [contradiction|].
    apply mem_str_In in Hk. discriminate. }
  rewrite (@search_init_get facets kwargs kwargs' k Hnf Hrun Hne).
  destruct Hk as [Hk|Hk]; apply mem_str_In in Hk; rewrite Hk;
    [reflexivity|now rewrite orb_true_r].
Qed.

(** X21.  The facets given as keyword arguments become filters: when
    a facet of the class is among the keyword arguments, the
    [filters] argument handed on is a dictionary in which every facet
    of the class that was given has the value it was given with, and
    every other name has the value of the filters the caller gave;
    when no facet of the class is given, [filters] is handed on as it
    came, also when it is absent. *)
Theorem search_init_moves_facets_into_filters :
  forall (facets : list str) (kwargs kwargs' : dict),
    ~ In (lit "filters") facets ->
    RTDFacetedSearch_init facets kwargs = inr kwargs' ->
    if existsb (fun f => dict_has f kwargs) facets
    then exists filters,
        dict_get (lit "filters") kwargs' = Some (ODict filters)
        /\ forall name,
            dict_get name filters
            = if mem_str name facets && dict_has name kwargs
              then dict_get name kwargs
              else dict_get name (filters_given kwargs)
    else dict_get (lit "filters") kwargs' = dict_get (lit "filters") kwargs.
Proof.
  intros facets kwargs kwargs' Hnf Hrun.
  unfold RTDFacetedSearch_init in Hrun.
  destruct (move_facets facets kwargs) as [e|k1] eqn:Hmove; [discriminate|].
  injection Hrun as <-.
  destruct (@move_facets_spec facets Hnf kwargs k1 Hmove) as [_ Hfil].
  destruct (existsb (fun f => dict_has f kwargs) facets).
  - destruct Hfil as (filters & Hget & Hnames). exists filters.
    split; [|exact Hnames].
    now rewrite drop_facets_get, filters_not_a_facet.
  - subst k1. now rewrite drop_facets_get, filters_not_a_facet.
Qed.

(** X22.  Keyword arguments that are neither [filters], nor a facet
    of the class, nor a name of [ALL_FACETS] ([query], [sort], ...) are
    handed on with the value they came with, and stay absent when they
    were absent. *)
Theorem search_init_keeps_other_kwargs :
  forall (facets : list str) (kwargs kwargs' : dict) (k : str),
    ~ In (lit "filters") facets ->
    RTDFacetedSearch_init facets kwargs = inr kwargs' ->
    ~ In k facets -> ~ In k ALL_FACETS -> k <> lit "filters" ->
    dict_get k kwargs' = dict_get k kwargs.
Proof.
  intros facets kwargs kwargs' k Hnf Hrun Hf Ha Hk.
  rewrite (@search_init_get facets kwargs kwargs' k Hnf Hrun Hk).
  destruct (mem_str k facets) eqn:E1;
    [apply mem_str_In in E1; contradiction|].
  destruct (mem_str k ALL_FACETS) eqn:E2;
    [apply mem_str_In in E2; contradiction|reflexivity].
Qed.

(** X23.  [RTDFacetedSearch.__init__] raises [TypeError] in its first
    loop exactly when a facet of the class is among the keyword
    arguments while [filters] is given and is not a dictionary. *)
Theorem search_init_type_error_iff :
  forall (facets : list str) (kwargs : dict),
    ~ In (lit "filters") facets ->
    (RTDFacetedSearch_init facets kwargs = inl TypeError
     <-> existsb (fun f => dict_has f kwargs) facets = true
         /\ exists o, dict_get (lit "filters") kwargs = Some o
                      /\ is_dict o = false).
Proof.
  intros facets kwargs Hnf.
  rewrite <- (@move_facets_error facets Hnf kwargs).
  unfold RTDFacetedSearch_init.
  destruct (move_facets facets kwargs) as [[]|k1]; split; congruence.
Qed.

(** X24.  The keyword arguments stay a dictionary: when the keys that
    come in are distinct, so are the keys handed on, and the only key
    that can be new is [filters]. *)
Theorem search_init_keeps_keys_distinct :
  forall (facets : list str) (kwargs kwargs' : dict),
    NoDup (map fst kwargs) ->
    RTDFacetedSearch_init facets kwargs = inr kwargs' ->
    NoDup (map fst kwargs')
    /\ incl (map fst kwargs') (lit "filters" :: map fst kwargs).
Proof.
  intros facets kwargs kwargs' Hd Hrun.
  unfold RTDFacetedSearch_init in Hrun.
  destruct (move_facets facets kwargs) as [e|k1] eqn:Hmove; [discriminate|].
  injection Hrun as <-.
  destruct (@keys_move_facets facets kwargs k1 Hd Hmove) as [H1 I1].
  destruct (@keys_drop ALL_FACETS k1 H1) as [H2 I2].
  split; [exact H2|]. intros x Hx. apply I1. now apply I2.
Qed.

(** X25.  Going through keyword arguments that have been gone through
    already changes nothing: what [RTDFacetedSearch.__init__] hands on
    is a fixed point of it. *)
Theorem search_init_idempotent :
  forall (facets : list str) (kwargs kwargs' : dict),
    ~ In (lit "filters") facets ->
    RTDFacetedSearch_init facets kwargs = inr kwargs' ->
    RTDFacetedSearch_init facets kwargs' = inr kwargs'.
Proof.
  intros facets kwargs kwargs' Hnf Hrun.
  assert (Hnone : forall k, In k facets \/ In k ALL_FACETS ->
                            dict_get k kwargs' = None).
  { intros k Hk.
    assert (Hne : k <> lit "filters").
    { intros ->. destruct Hk as [Hk|Hk]; [contradiction|].
      apply mem_str_In in Hk. discriminate. }
    rewrite (@search_init_get facets kwargs kwargs' k Hnf Hrun Hne).
    destruct Hk as [Hk|Hk]; apply mem_str_In in Hk; rewrite Hk;
      [reflexivity|now rewrite orb_true_r]. }
  unfold RTDFacetedSearch_init.
  rewrite (@move_facets_absent facets kwargs') by (intros f Hf; auto).
  unfold drop_facets.
  now rewrite (@drop_keys_absent ALL_FACETS kwargs') by (intros f Hf; auto).
Qed.

(* ================================================================== *)
(** * The further properties at work on the small installation *)
(* ================================================================== *)

Ltac distinct_rows :=
  repeat (apply NoDup_cons;
          [intros Hrow; vm_compute in Hrow;
           repeat (destruct Hrow as [Hrow|Hrow]; [discriminate|]);
           destruct Hrow|]);
  apply NoDup_nil.

Lemma unknown_project_slug_is_not_found_witness :
  let W := Demo.world Demo.allow_all in
  let request := Demo.request Demo.anonymous (lit "/") [] in
  (forall p, In p (projects W) ->
             slug p <> wanted_project_slug request (Some (lit "nope")))
  /\ map_project_slug W (fun request project _ =>
                           redirect_project_slug W request project None tt)
       request None (Some (lit "nope")) tt
     = raise (Http404 (lit "Project does not exist.")).
Proof.
  assert (H : forall p, In p (projects (Demo.world Demo.allow_all)) ->
                slug p <> wanted_project_slug
                            (Demo.request Demo.anonymous (lit "/") [])
                            (Some (lit "nope"))).
  { intros p Hp E. vm_compute in Hp.
    repeat (destruct Hp as [<-|Hp]; [discriminate|]). destruct Hp. }
  split; [exact H|].
  exact (@unknown_project_slug_is_not_found (Demo.world Demo.allow_all) unit
           (fun request project _ =>
              redirect_project_slug (Demo.world Demo.allow_all) request
                project None tt)
           (Demo.request Demo.anonymous (lit "/") []) (Some (lit "nope")) tt
           H).
Defined.

Lemma project_slug_selects_the_project_witness :
  let W := Demo.world Demo.allow_all in
  let request := Demo.request Demo.anonymous (lit "/") [] in
  let view := fun request project (_ : unit) =>
                redirect_project_slug W request project None tt in
  NoDup (map slug (projects W))
  /\ map_project_slug W view request None (Some []) tt
     = view request Demo.acme tt.
Proof.
  assert (Hd : NoDup (map slug (projects (Demo.world Demo.allow_all))))
    by distinct_rows.
  split; [exact Hd|].
  refine (@project_slug_selects_the_project (Demo.world Demo.allow_all) unit
            _ (Demo.request Demo.anonymous (lit "/") []) (Some []) tt
            Demo.acme Hd _ eq_refl).
  left; reflexivity.
Defined.

Lemma subproject_request_is_served_as_the_subproject_witness :
  let W := Demo.world Demo.allow_all in
  let request := Demo.request Demo.anonymous (lit "/projects/docs/") [] in
  first_match (alias_is Demo.acme (lit "docs")) (relationships W)
    Demo.rel_guide
  /\ serve_docs_view W request None None None (Some (lit "docs"))
       (Some (lit "en")) (Some (lit "latest")) (lit "index.html")
     = serve_docs W request Demo.guide None (Some (lit "en"))
         (Some (lit "latest")) (lit "index.html").
Proof.
  assert (Hd : NoDup (map slug (projects (Demo.world Demo.allow_all))))
    by distinct_rows.
  assert (Hrel : first_match (alias_is Demo.acme (lit "docs"))
                   (relationships (Demo.world Demo.allow_all))
                   Demo.rel_guide).
  { exists [Demo.rel_docs], []. repeat split.
    intros y [<-|[]]. reflexivity. }
  split; [exact Hrel|].
  refine (@subproject_request_is_served_as_the_subproject
            (Demo.world Demo.allow_all)
            (Demo.request Demo.anonymous (lit "/projects/docs/") [])
            None (lit "docs") (Some (lit "en")) (Some (lit "latest"))
            (lit "index.html") Demo.acme Demo.rel_guide Hd _ eq_refl _ Hrel).
  - left; reflexivity.
  - discriminate.
Defined.

Lemma unknown_translation_is_not_found_witness :
  let W := Demo.world Demo.allow_all in
  let request := Demo.request Demo.anonymous (lit "/fr/latest/") [] in
  lit "fr" <> language Demo.acme
  /\ translations W Demo.acme = []
  /\ run (serve_docs W request Demo.acme None (Some (lit "fr"))
            (Some (lit "latest")) []) Demo.production
     = (inl (Http404 (lit "No Project matches the given query.")),
        {| settings := Demo.production; trace := [] |}).
Proof.
  assert (Hl : lit "fr" <> language Demo.acme) by discriminate.
  split; [exact Hl|]. split; [reflexivity|].
  refine (@unknown_translation_is_not_found (Demo.world Demo.allow_all)
            (Demo.request Demo.anonymous (lit "/fr/latest/") [])
            Demo.acme None (lit "fr") (Some (lit "latest")) []
            Demo.production _ Hl _ _).
  - discriminate.
  - discriminate.
  - intros t [].
Defined.

Lemma translation_is_served_from_its_own_project_witness :
  let W := Demo.world Demo.allow_all in
  let request := Demo.request Demo.anonymous (lit "/fr/") [] in
  let r := run (serve_docs W request Demo.solo None (Some (lit "fr")) None
                  (lit "index.html")) Demo.production in
  In Demo.solo_fr (translations W Demo.solo)
  /\ (files_tried (trace (snd r)) = []
      \/ files_tried (trace (snd r))
         = [storage_file W Demo.solo_fr None (lit "index.html")]).
Proof.
  assert (Ht : In Demo.solo_fr
                 (translations (Demo.world Demo.allow_all) Demo.solo))
    by (left; reflexivity).
  split; [exact Ht|].
  refine (proj2 (@translation_is_served_from_its_own_project
                   (Demo.world Demo.allow_all)
                   (Demo.request Demo.anonymous (lit "/fr/") [])
                   Demo.solo None (lit "fr") None (lit "index.html")
                   Demo.production Demo.solo_fr _ _ eq_refl _ Ht eq_refl _)).
  - discriminate.
  - discriminate.
  - distinct_rows.
  - intros t' [<-|[]] _. reflexivity.
Defined.


Lemma versioned_request_keeps_its_slugs_witness :
  let W := Demo.world Demo.allow_all in
  let request := Demo.request Demo.anonymous (lit "/en/latest/") [] in
  let r := run (serve_docs W request Demo.acme None (Some (lit "en"))
                  (Some (lit "latest")) []) Demo.production in
  single_version (or_else None Demo.acme) = false
  /\ (files_tried (trace (snd r)) = []
      \/ files_tried (trace (snd r))
         = [storage_file W Demo.acme (Some (lit "latest")) []]).
Proof.
  split; [reflexivity|].
  refine (proj2 (@versioned_request_keeps_its_slugs
                   (Demo.world Demo.allow_all)
                   (Demo.request Demo.anonymous (lit "/en/latest/") [])
                   Demo.acme None (lit "en") (lit "latest") []
                   Demo.production eq_refl _)).
  right; reflexivity.
Defined.

Lemma single_version_fold_is_a_plain_path_witness :
  let W := Demo.world Demo.allow_all in
  let request := Demo.request Demo.anonymous (lit "/en/latest/a.html") [] in
  single_version (or_else None Demo.solo) = true
  /\ run (serve_docs W request Demo.solo None (Some (lit "en"))
            (Some (lit "latest")) (lit "a.html")) Demo.production
     = run (serve_docs W request Demo.solo None None None
              (lit "en/latest/a.html")) Demo.production.
Proof.
  split; [reflexivity|].
  refine (@single_version_fold_is_a_plain_path (Demo.world Demo.allow_all)
            (Demo.request Demo.anonymous (lit "/en/latest/a.html") [])
            Demo.solo None (lit "en") (lit "latest") (lit "a.html")
            Demo.production eq_refl _ _ eq_refl eq_refl eq_refl eq_refl);
    discriminate.
Defined.

Lemma absolute_filename_discards_the_slugs_witness :
  let W := Demo.world Demo.allow_all in
  let request := Demo.request Demo.anonymous (lit "/en/latest//x") [] in
  startswith (lit "/x") [SLASH] = true
  /\ run (serve_docs W request Demo.solo None (Some (lit "en"))
            (Some (lit "latest")) (lit "/x")) Demo.production
     = run (serve_docs W request Demo.solo None None None (lit "/x"))
         Demo.production.
Proof.
  split; [reflexivity|].
  refine (@absolute_filename_discards_the_slugs (Demo.world Demo.allow_all)
            (Demo.request Demo.anonymous (lit "/en/latest//x") [])
            Demo.solo None (lit "en") (lit "latest") (lit "/x")
            Demo.production eq_refl _ _ eq_refl);
    discriminate.
Defined.

Lemma located_version_is_the_first_entity_witness :
  let W := Demo.world Demo.allow_all in
  let request := Demo.request Demo.anonymous (lit "/en/latest/") [] in
  let t := trace (snd (run (serve_docs W request Demo.acme None
                              (Some (lit "en")) (Some (lit "latest")) [])
                         Demo.production)) in
  In (VersionQuery Demo.acme (Some (lit "latest")) (Some Demo.acme_latest)) t
  /\ exists slug,
      Some (lit "latest") = Some slug
      /\ first_match (is_version_of Demo.acme slug) (versions W)
           Demo.acme_latest.
Proof.
  assert (Hin : In (VersionQuery Demo.acme (Some (lit "latest"))
                      (Some Demo.acme_latest))
                  (trace (snd (run (serve_docs (Demo.world Demo.allow_all)
                                      (Demo.request Demo.anonymous
                                         (lit "/en/latest/") [])
                                      Demo.acme None (Some (lit "en"))
                                      (Some (lit "latest")) [])
                                 Demo.production))))
    by (left; reflexivity).
  split; [exact Hin|].
  exact (proj2 (@located_version_is_the_first_entity
                  (Demo.world Demo.allow_all)
                  (Demo.request Demo.anonymous (lit "/en/latest/") [])
                  Demo.acme None (Some (lit "en")) (Some (lit "latest")) []
                  Demo.production Demo.acme (Some (lit "latest"))
                  (Some Demo.acme_latest) Hin)).
Defined.

Lemma x_accel_header_is_a_fixed_point_of_iri_to_uri_witness :
  let W := Demo.world Demo.allow_all in
  let request := Demo.request Demo.anonymous (lit "/") [] in
  let st := {| settings := Demo.production; trace := [] |} in
  let response :=
    HttpResponse (lit "Serving internal path: /proxito/" ++ [233])
      (lit "text/html") [(lit "X-Accel-Redirect", lit "/proxito/%C3%A9")] in
  fst (_serve_docs_nginx W request Demo.acme (lit "/proxito/" ++ [233]) st)
  = inr response
  /\ iri_to_uri (lit "/proxito/%C3%A9") = Some (lit "/proxito/%C3%A9").
Proof.
  split; [reflexivity|].
  destruct (@x_accel_header_is_a_fixed_point_of_iri_to_uri
              (Demo.world Demo.allow_all)
              (Demo.request Demo.anonymous (lit "/") [])
              Demo.acme (lit "/proxito/" ++ [233])
              {| settings := Demo.production; trace := [] |}
              (HttpResponse (lit "Serving internal path: /proxito/" ++ [233])
                 (lit "text/html")
                 [(lit "X-Accel-Redirect", lit "/proxito/%C3%A9")])
              eq_refl) as (uri & Hh & _ & Hfix & _).
  apply some_eq in Hh. rewrite <- Hh in Hfix. exact Hfix.
Defined.

Lemma escape_free_paths_get_distinct_headers_witness :
  let W := Demo.world Demo.allow_all in
  let request := Demo.request Demo.anonymous (lit "/") [] in
  let st := {| settings := Demo.production; trace := [] |} in
  let served path :=
    HttpResponse (lit "Serving internal path: " ++ path) (lit "text/html")
      [(lit "X-Accel-Redirect", or_else (iri_to_uri path) [])] in
  lit "/a b" <> lit "/a+b"
  /\ header (lit "X-Accel-Redirect") (served (lit "/a b"))
     <> header (lit "X-Accel-Redirect") (served (lit "/a+b")).
Proof.
  assert (Hne : lit "/a b" <> lit "/a+b") by discriminate.
  split; [exact Hne|].
  exact (@escape_free_paths_get_distinct_headers
           (Demo.world Demo.allow_all)
           (Demo.request Demo.anonymous (lit "/") [])
           (Demo.request Demo.anonymous (lit "/") [])
           Demo.acme Demo.acme (lit "/a b") (lit "/a+b")
           {| settings := Demo.production; trace := [] |}
           {| settings := Demo.production; trace := [] |}
           _ _ eq_refl eq_refl Hne eq_refl eq_refl).
Defined.

(** The facets of the four search classes are names of [ALL_FACETS],
    and none of them is [filters]. *)
Lemma search_class_facets (facets : list str) :
  In facets [DomainSearch_facets; ProjectSearch_facets; PageSearch_facets;
             AllSearch_facets] ->
  ~ In (lit "filters") facets /\ incl facets ALL_FACETS.
Proof.
  intros H.
  repeat (destruct H as [<-|H];
          [split;
           [intros Hin; repeat (destruct Hin as [Hin|Hin]; [discriminate|]);
            destruct Hin
           |intros k Hk; apply mem_str_In;
            repeat (destruct Hk as [<-|Hk]; [reflexivity|]); destruct Hk]|]).
  destruct H.
Qed.

Lemma ProjectSearch_is_a_search_class :
  In ProjectSearch_facets
    [DomainSearch_facets; ProjectSearch_facets; PageSearch_facets;
     AllSearch_facets].
Proof. right; left; reflexivity. Qed.

Lemma search_init_passes_no_facet_on_witness :
  dict_get (lit "project") demo_passed = None.
Proof.
  refine (@search_init_passes_no_facet_on ProjectSearch_facets demo_kwargs
            demo_passed (lit "project")
            (proj1 (search_class_facets ProjectSearch_is_a_search_class)) eq_refl _).
  right; left; reflexivity.
Defined.

Lemma search_init_moves_facets_into_filters_witness :
  exists filters,
    dict_get (lit "filters") demo_passed = Some (ODict filters)
    /\ dict_get (lit "language") filters = Some (OStr (lit "en"))
    /\ dict_get (lit "version") filters = Some (OStr (lit "latest")).
Proof.
  pose proof (proj1 (search_class_facets ProjectSearch_is_a_search_class))
    as Hnf.
  destruct (@search_init_moves_facets_into_filters ProjectSearch_facets
              demo_kwargs demo_passed Hnf eq_refl)
    as (filters & Hget & Hnames).
  exists filters. split; [exact Hget|].
  split; [exact (Hnames (lit "language"))|exact (Hnames (lit "version"))].
Defined.

Lemma search_init_keeps_other_kwargs_witness :
  dict_get (lit "query") demo_passed = Some (OStr (lit "install")).
Proof.
  refine (@search_init_keeps_other_kwargs ProjectSearch_facets demo_kwargs
            demo_passed (lit "query")
            (proj1 (search_class_facets ProjectSearch_is_a_search_class)) eq_refl _ _ _).
  - intros [H|[]]; discriminate.
  - intros H. repeat (destruct H as [H|H]; [discriminate|]). destruct H.
  - discriminate.
Defined.

Lemma search_init_type_error_iff_witness :
  RTDFacetedSearch_init ProjectSearch_facets
    [(lit "language", OStr (lit "en")); (lit "filters", ONone)]
  = inl TypeError.
Proof.
  refine (proj2 (@search_init_type_error_iff ProjectSearch_facets
                   [(lit "language", OStr (lit "en")); (lit "filters", ONone)]
                   (proj1 (search_class_facets ProjectSearch_is_a_search_class)))
            _).
  split; [reflexivity|]. exists ONone. split; reflexivity.
Defined.

Lemma search_init_keeps_keys_distinct_witness :
  NoDup (map fst demo_passed).
Proof.
  refine (proj1 (@search_init_keeps_keys_distinct ProjectSearch_facets
                   demo_kwargs demo_passed _ eq_refl)).
  repeat (constructor;
          [intros H; repeat (destruct H as [H|H]; [discriminate|]);
           destruct H|]).
  constructor.
Defined.

Lemma search_init_idempotent_witness :
  RTDFacetedSearch_init ProjectSearch_facets demo_passed = inr demo_passed.
Proof.
  exact (@search_init_idempotent ProjectSearch_facets demo_kwargs
           demo_passed
           (proj1 (search_class_facets ProjectSearch_is_a_search_class)) eq_refl).
Defined.
